(** * A shallow embedding of the file server of distributed-file-storage

    The development follows the Go sources: package [errors] (the error
    taxonomy), package [retry] (retry with backoff under a context), and the
    [FileServer] of [server.go] (peer registry, [Store], [Get], [broadcast],
    the message handlers, [Stop] and the message loop).

    Conventions.
    - A Go [error] value is [option error]: [None] is [nil].
    - [time.Duration] and instants are [Z], in nanoseconds.  Time is a
      logical clock: it advances only where the code sleeps or waits.
    - A byte is [Byte.byte]; a stream or a file is a [list byte].
    - Calls to the logger do not influence control flow or any other state
      of the server and are left out of its model.  Package [logger] is
      modelled on its own, with the validation of package [config]. *)

From Stdlib Require Import ZArith List Bool Lia QArith.
From Stdlib Require Import Strings.Byte.
From stdpp Require Import gmap strings list fin_maps.

Close Scope Q_scope.
#[local] Set Warnings "-register-all".
#[local] Set Warnings "-automation".
Local Open Scope Z_scope.

(** ** Package errors *)

Module errors.

Inductive ErrorType : Type :=
| NetworkError | ConnectionError | TimeoutError
| StorageError | FileNotFoundError | CorruptionError | QuotaExceededError
| AuthenticationError | AuthorizationError | EncryptionError
| ConfigError | ValidationError
| InternalError | InvalidInputError.

(** [FileSystemError] keeps the fields that decide behaviour: [Type],
    [Message] and [Cause].  [File], [Line], [Operation] and [Context] are
    diagnostics.  [PlainError] is any other Go error value ([io.EOF],
    [context.DeadlineExceeded], an error of the operating system). *)
Inductive error : Type :=
| FileSystemError (Type_ : ErrorType) (Message : string) (Cause : option error)
| PlainError (text : string).

Definition New (errorType : ErrorType) (message : string) : error :=
  FileSystemError errorType message None.

Definition Wrap (err : option error) (errorType : ErrorType) (message : string) : error :=
  FileSystemError errorType message err.

Definition ErrorType_eqb (a b : ErrorType) : bool :=
  match a, b with
  | NetworkError, NetworkError | ConnectionError, ConnectionError
  | TimeoutError, TimeoutError | StorageError, StorageError
  | FileNotFoundError, FileNotFoundError | CorruptionError, CorruptionError
  | QuotaExceededError, QuotaExceededError
  | AuthenticationError, AuthenticationError
  | AuthorizationError, AuthorizationError
  | EncryptionError, EncryptionError | ConfigError, ConfigError
  | ValidationError, ValidationError | InternalError, InternalError
  | InvalidInputError, InvalidInputError => true
  | _, _ => false
  end.

Definition IsType (err : error) (errorType : ErrorType) : bool :=
  match err with
  | FileSystemError t _ _ => ErrorType_eqb t errorType
  | PlainError _ => false
  end.

Definition GetType (err : error) : ErrorType :=
  match err with
  | FileSystemError t _ _ => t
  | PlainError _ => InternalError
  end.

Definition IsRetryable (err : error) : bool :=
  match GetType err with
  | NetworkError | ConnectionError | TimeoutError => true
  | StorageError => true
  | _ => false
  end.

Definition NewNetworkError (message : string) : error := New NetworkError message.
Definition NewConnectionError (message : string) : error := New ConnectionError message.
Definition NewTimeoutError (message : string) : error := New TimeoutError message.
Definition NewFileNotFoundError (filename : string) : error :=
  New FileNotFoundError (String.append "file not found: " filename).
Definition NewValidationError (message : string) : error := New ValidationError message.

End errors.

(** ** Time and contexts *)

(** A world in which time passes: [now] reads the clock, [elapse d] lets [d]
    nanoseconds go by. *)
Class Clock (W : Type) : Type := {
  now : W -> Z;
  elapse : Z -> W -> W
}.

(** A [context.Context]: cancelled by its parent, or done once its deadline
    has been reached.  [context.Background()] has neither. *)
Record Context : Type := {
  cancelled : bool;
  deadline : option Z
}.

Definition Background : Context := {| cancelled := false; deadline := None |}.

Definition WithTimeout {W} `{Clock W} (parent : Context) (timeout : Z) (w : W) : Context :=
  {| cancelled := cancelled parent;
     deadline := match deadline parent with
                 | Some d => Some (Z.min d (now w + timeout))
                 | None => Some (now w + timeout)
                 end |}.

(** Whether [<-ctx.Done()] is ready. *)
Definition Done {W} `{Clock W} (ctx : Context) (w : W) : bool :=
  cancelled ctx ||
  match deadline ctx with
  | Some d => d <=? now w
  | None => false
  end.

Definition Err (ctx : Context) : errors.error :=
  if cancelled ctx then errors.PlainError "context canceled"
  else errors.PlainError "context deadline exceeded".

(** [select { case <-ctx.Done(): ...; case <-time.After(d): ... }]: the
    result is [true] when the context won, and the clock stands at the
    instant at which the select returned. *)
Definition select_done_after {W} `{Clock W} (ctx : Context) (d : Z) (w : W) : W * bool :=
  if cancelled ctx then (w, true)
  else
    match deadline ctx with
    | Some dl =>
        if dl <=? now w + Z.max 0 d
        then (elapse (Z.max 0 (dl - now w)) w, true)
        else (elapse (Z.max 0 d) w, false)
    | None => (elapse (Z.max 0 d) w, false)
    end.

(** ** Package retry *)

Module retry.
Import errors.

Definition Millisecond : Z := 1000000.
Definition Second : Z := 1000 * Millisecond.

(** [Multiplier] is a [float64] in the source; it is an exact rational
    here, and the conversion back to [time.Duration] truncates. *)
Record RetryConfig : Type := {
  MaxAttempts : Z;
  InitialDelay : Z;
  MaxDelay : Z;
  Multiplier : Q;
  Jitter : bool
}.

Definition DefaultRetryConfig : RetryConfig :=
  {| MaxAttempts := 3;
     InitialDelay := 100 * Millisecond;
     MaxDelay := 5 * Second;
     Multiplier := 2 # 1;
     Jitter := true |}.

(** [time.Duration(float64(d) * m)] *)
Definition scale (d : Z) (m : Q) : Z := Z.quot (d * Qnum m) (Z.pos (Qden m)).

(** The delay before the next attempt.  In the jitter term
    [2*time.Now().UnixNano()%2 - 1] the product is taken first, so the
    remainder is 0 and the factor is -1 whatever the clock shows. *)
Definition next_delay (config : RetryConfig) (delay : Z) (unixNano : Z) : Z :=
  let delay := scale delay (Multiplier config) in
  let delay := if MaxDelay config <? delay then MaxDelay config else delay in
  if Jitter config then
    let jitter := scale delay (1 # 10) in
    delay + jitter * (Z.rem (2 * unixNano) 2 - 1)
  else delay.

Section Do.
Context {W : Type} `{Clock W}.

(** A [RetryableFunc] is a closure: it acts on the world and returns an
    error or [nil]. *)
Definition RetryableFunc : Type := W -> W * option error.

(** The [for] loop of [Do]; [fuel] is the number of iterations left,
    [MaxAttempts - attempt + 1]. *)
Fixpoint Do_loop (ctx : Context) (config : RetryConfig) (fn : RetryableFunc)
         (fuel : nat) (attempt : Z) (delay : Z) (lastErr : option error) (w : W)
  : W * option error :=
  match fuel with
  | O => (w, lastErr)
  | S fuel' =>
      if Done ctx w then (w, Some (Err ctx))
      else
        let '(w, err) := fn w in
        match err with
        | None => (w, None)
        | Some e =>
            let lastErr := Some e in
            if negb (IsRetryable e) then (w, Some e)
            else if attempt =? MaxAttempts config then (w, lastErr)
            else
              let '(w, stop) := select_done_after ctx delay w in
              if stop then (w, Some (Err ctx))
              else
                Do_loop ctx config fn fuel' (attempt + 1)
                        (next_delay config delay (now w)) lastErr w
        end
  end.

Definition Do (ctx : Context) (config : RetryConfig) (fn : RetryableFunc) (w : W)
  : W * option error :=
  Do_loop ctx config fn (Z.to_nat (MaxAttempts config)) 1 (InitialDelay config) None w.

Definition DoWithTimeout (timeout : Z) (config : RetryConfig) (fn : RetryableFunc) (w : W)
  : W * option error :=
  Do (WithTimeout Background timeout w) config fn w.

Definition DoSimple (fn : RetryableFunc) (w : W) : W * option error :=
  DoWithTimeout (30 * Second) DefaultRetryConfig fn w.
End Do.

(** A closure in the style of the package's tests: it counts its
    invocations, and the outcome of each invocation is given by its index
    (from 0). *)
Record Probe : Type := { calls : nat; clock : Z }.

#[export] Instance Probe_Clock : Clock Probe :=
  {| now := clock;
     elapse := fun d p => {| calls := calls p; clock := clock p + d |} |}.

Definition scripted (outcome : nat -> option error) : @RetryableFunc Probe :=
  fun p => ({| calls := S (calls p); clock := clock p |}, outcome (calls p)).

End retry.

(** ** Bytes and fixed-width integers *)

Abbreviation bytes := (list byte).

Definition xor_byte (a b : byte) : byte :=
  let '(a0, (a1, (a2, (a3, (a4, (a5, (a6, a7))))))) := Byte.to_bits a in
  let '(b0, (b1, (b2, (b3, (b4, (b5, (b6, b7))))))) := Byte.to_bits b in
  Byte.of_bits (xorb a0 b0, (xorb a1 b1, (xorb a2 b2, (xorb a3 b3,
               (xorb a4 b4, (xorb a5 b5, (xorb a6 b6, xorb a7 b7))))))).

(** The byte with value [z mod 256]. *)
Definition byte_of_Z (z : Z) : byte :=
  match Byte.of_N (Z.to_N (z mod 256)) with
  | Some b => b
  | None => x00
  end.

Definition Z_of_byte (b : byte) : Z := Z.of_N (Byte.to_N b).

(** [int64(z)]: the value of [z] as a 64-bit two's complement integer. *)
Definition int64 (z : Z) : Z := (z + 2 ^ 63) mod 2 ^ 64 - 2 ^ 63.

(** [n] bytes of [z], least significant first. *)
Fixpoint le_bytes (n : nat) (z : Z) : bytes :=
  match n with
  | O => []
  | S n' => byte_of_Z z :: le_bytes n' (z / 256)
  end.

Fixpoint le_value (bs : bytes) : Z :=
  match bs with
  | [] => 0
  | b :: bs' => Z_of_byte b + 256 * le_value bs'
  end.

(** [binary.Write(w, binary.LittleEndian, v)] for [v : int64] writes these
    eight bytes; [binary.Read] into an [int64] reads them back. *)
Definition put_int64 (v : Z) : bytes := le_bytes 8 (v mod 2 ^ 64).
Definition get_int64 (bs : bytes) : Z := int64 (le_value bs).

(** ** Messages (server.go) *)

Module message.
Record MessageStoreFile : Type := {
  sf_ID : string;
  sf_Key : string;
  sf_Size : Z
}.

Record MessageGetFile : Type := {
  gf_ID : string;
  gf_Key : string
}.

(** [Message.Payload] is an [any]; the registered payload types are the two
    records, anything else is [Other]. *)
Inductive Payload : Type :=
| StoreFile (m : MessageStoreFile)
| GetFile (m : MessageGetFile)
| Other.

Record Message : Type := { Payload_ : Payload }.
End message.
Import message.

(** The messages that Go can hold and [gob] can encode: [Size] is an
    [int64], and the payload is of a registered type. *)
Definition wf_message (m : Message) : Prop :=
  match Payload_ m with
  | StoreFile v => - 2 ^ 63 <= sf_Size v < 2 ^ 63
  | GetFile _ => True
  | Other => False
  end.

(** ** Primitives of the Go library and of the files not at hand

    [hashKey] is the digest of a key in hexadecimal; [gobEncode] and
    [gobDecode] are [encoding/gob] on a [Message] ([gobDecode] reads one
    value off the front of a stream and returns the rest); [keystream key iv]
    is the AES-CTR key stream, byte by byte. *)

Class Primitives : Type := {
  hashKey : string -> string;
  gobEncode : Message -> bytes;
  gobDecode : bytes -> option (Message * bytes);
  keystream : bytes -> bytes -> nat -> byte
}.

(** The property of [encoding/gob] that the end-to-end results rely on: a
    value is self-delimiting on the wire. *)
Definition gob_round_trip `{Primitives} : Prop :=
  forall (m : Message) (rest : bytes),
    wf_message m -> gobDecode (gobEncode m ++ rest) = Some (m, rest).

(** ** Streaming encryption *)

(** Modelled from the spec: the crypto stream (section 4.2), whose source
    file is not at hand.  Encrypt-and-copy writes the 16-byte IV and then the
    plaintext XORed with the key stream; decrypt-and-copy reads 16 bytes as
    the IV and XORs the remainder with the same key stream. *)
Module crypto.
Section Crypto.
Context `{Primitives}.

(** Modelled from the spec: the IV is 16 bytes. *)
Definition ivSize : nat := 16.

(** Modelled from the spec: CTR mode, the source XORed with the key stream
    from position [i] on. *)
Fixpoint xor_stream (ks : nat -> byte) (i : nat) (src : bytes) : bytes :=
  match src with
  | [] => []
  | b :: src' => xor_byte b (ks i) :: xor_stream ks (S i) src'
  end.

(** Modelled from the spec: the stream that encrypt-and-copy produces for the
    IV drawn, the IV at its head. *)
Definition encrypt (key iv src : bytes) : bytes :=
  iv ++ xor_stream (keystream key iv) 0 src.

(** Modelled from the spec: decrypt-and-copy, [copyDecrypt]; a short read of
    the IV is a [CorruptionError]. *)
Definition decrypt (key src : bytes) : bytes + errors.error :=
  if (length src <? ivSize)%nat
  then inr (errors.New errors.CorruptionError "short read of IV")
  else inl (xor_stream (keystream key (take ivSize src)) 0 (drop ivSize src)).
(** Modelled from the spec: [copyEncrypt(key, src, dst)], whose file is not
    at hand; [write] is the [Write] of [dst].  The IV
    goes out first, then the ciphertext (nothing when the source is empty);
    the count is [16 + plaintext_len].  An error of [dst] comes back as an
    [EncryptionError] that wraps it. *)
Definition copyEncrypt {D : Type} (key iv src : bytes)
           (write : bytes -> D -> D * option errors.error) (dst : D)
  : D * Z * option errors.error :=
  let '(dst, e) := write iv dst in
  match e with
  | Some e => (dst, 0, Some (errors.Wrap (Some e) errors.EncryptionError "failed to write IV"))
  | None =>
      match src with
      | [] => (dst, Z.of_nat ivSize, None)
      | _ =>
          let '(dst, e) := write (xor_stream (keystream key iv) 0 src) dst in
          match e with
          | Some e =>
              (dst, Z.of_nat ivSize,
               Some (errors.Wrap (Some e) errors.EncryptionError "failed to write ciphertext"))
          | None => (dst, Z.of_nat ivSize + Z.of_nat (length src), None)
          end
      end
  end.
End Crypto.
End crypto.

(** ** The content-addressed store *)

(** Modelled from the spec: the store (section 4.3), whose source file is not
    at hand.  Its operations are keyed by (node id, key); a blob is the
    content of the file at the derived path.  [failing] stands for a file
    system on which no file can be opened or created. *)
Module store.
Import errors.

(** Modelled from the spec: the state of the store, its files by (node id,
    key). *)
Record Store : Type := {
  files : gmap (string * string) bytes;
  failing : bool
}.

(** Modelled from the spec: the store with other files. *)
Definition with_files (st : Store) (fs : gmap (string * string) bytes) : Store :=
  {| files := fs; failing := failing st |}.

(** Modelled from the spec: [has(node_id, raw_key) -> bool] *)
Definition Has (st : Store) (id key : string) : bool :=
  bool_decide (is_Some (files st !! (id, key))).

(** Modelled from the spec: [write(node_id, raw_key, reader) -> n] copies
    the reader to the file and returns the byte count. *)
Definition Write (st : Store) (id key : string) (r : bytes) : Store * Z * option error :=
  if failing st then (st, 0, Some (PlainError "open: permission denied"))
  else (with_files st (<[(id, key) := r]> (files st)), Z.of_nat (length r), None).

(** Modelled from the spec: [read(node_id, raw_key) -> (size, reader)] *)
Definition Read (st : Store) (id key : string) : (Z * bytes) + error :=
  if failing st then inr (PlainError "open: permission denied")
  else
    match files st !! (id, key) with
    | Some content => inl (Z.of_nat (length content), content)
    | None => inr (PlainError "stat: no such file or directory")
    end.

(** Modelled from the spec:
    [write_decrypt(enc_key, node_id, raw_key, reader) -> n]: the file is
    opened for writing, then the reader is piped through decrypt-and-copy
    into it; the count is that of the decrypted bytes written. *)
Definition WriteDecrypt `{Primitives} (st : Store) (encKey : bytes) (id key : string)
           (r : bytes) : Store * Z * option error :=
  if failing st then (st, 0, Some (PlainError "open: permission denied"))
  else
    match crypto.decrypt encKey r with
    | inl plain =>
        (with_files st (<[(id, key) := plain]> (files st)), Z.of_nat (length plain), None)
    | inr e =>
        (with_files st (<[(id, key) := []]> (files st)), 0, Some e)
    end.

(** Modelled from the spec: whether a write gets as far as reading from its
    reader (the file is opened first). *)
Definition drains (st : Store) : bool := negb (failing st).

(** Modelled from the spec: [clear()] removes the root. *)
Definition Clear (st : Store) : Store := with_files st ∅.
End store.

(** ** Peers and frames *)

(** Modelled from the spec: the peer and the frame codec of the transport
    (sections 3 and 4.4), whose source files are not at hand.  A peer is one
    end of a connection: [sent] is everything written to it so far, [inbox]
    what the remote end has sent and nobody has read yet.  [budget] is the
    health of the connection: [None] never fails, [Some n] lets [n] more
    writes through and then fails every write.  A read that finds the inbox
    exhausted fails, as on a connection that the remote end has closed.
    [in_flight] is the counter of streams that the read task is waiting on. *)
Module p2p.
Import errors.

(** Modelled from the spec: the kind byte of a typed message. *)
Definition IncomingMessage : byte := x01.
(** Modelled from the spec: the kind byte of a stream. *)
Definition IncomingStream : byte := x02.

(** Modelled from the spec: the peer record, as far as the server sees it. *)
Record Peer : Type := {
  sent : bytes;
  inbox : bytes;
  budget : option nat;
  in_flight : Z
}.

(** Modelled from the spec: [RPC { from, payload, stream }]. *)
Record RPC : Type := {
  From_ : string;
  Payload : bytes;
  Stream : bool
}.

(** Modelled from the spec: [peer.Send(b)] writes the bytes verbatim to the
    connection; so does [peer.Write(b)]. *)
Definition Send (p : Peer) (b : bytes) : Peer * option error :=
  match budget p with
  | Some O => (p, Some (PlainError "write: broken pipe"))
  | Some (S n) =>
      ({| sent := sent p ++ b; inbox := inbox p; budget := Some n;
          in_flight := in_flight p |}, None)
  | None =>
      ({| sent := sent p ++ b; inbox := inbox p; budget := None;
          in_flight := in_flight p |}, None)
  end.

(** Modelled from the spec: the peer with other bytes sent. *)
Definition with_sent (p : Peer) (o : bytes) : Peer :=
  {| sent := o; inbox := inbox p; budget := budget p; in_flight := in_flight p |}.

(** Modelled from the spec: the peer with another inbox. *)
Definition with_inbox (p : Peer) (i : bytes) : Peer :=
  {| sent := sent p; inbox := i; budget := budget p; in_flight := in_flight p |}.

(** Modelled from the spec: [peer.CloseStream()] releases the read task. *)
Definition CloseStream (p : Peer) : Peer :=
  {| sent := sent p; inbox := inbox p; budget := budget p;
     in_flight := in_flight p - 1 |}.

(** Modelled from the spec: [binary.Read(peer, binary.LittleEndian, &fileSize)]
    on the peer as a reader. *)
Definition read_int64 (p : Peer) : Peer * (Z + error) :=
  if (length (inbox p) <? 8)%nat
  then (with_inbox p [], inr (PlainError "unexpected EOF"))
  else (with_inbox p (drop 8 (inbox p)), inl (get_int64 (take 8 (inbox p)))).

(** Modelled from the spec: draining [io.LimitReader(peer, n)] on the peer
    as a reader; at most [n] bytes leave the inbox. *)
Definition read_limited (p : Peer) (n : Z) : Peer * bytes :=
  (with_inbox p (drop (Z.to_nat n) (inbox p)), take (Z.to_nat n) (inbox p)).

(** Modelled from the spec: one step of the per-peer read task (section
    4.4): the kind byte, then either a typed
    message, delivered as an RPC, or the start of a stream, on which the task
    waits until [CloseStream]. *)
Definition read_frame `{Primitives} (from : string) (p : Peer) : Peer * option RPC :=
  match inbox p with
  | [] => (p, None)
  | kind :: rest =>
      if Byte.eqb kind IncomingStream then
        ({| sent := sent p; inbox := rest; budget := budget p;
            in_flight := in_flight p + 1 |},
         Some {| From_ := from; Payload := []; Stream := true |})
      else if Byte.eqb kind IncomingMessage then
        match gobDecode rest with
        | Some (_, rest') =>
            (with_inbox p rest',
             Some {| From_ := from;
                     Payload := take (length rest - length rest') rest;
                     Stream := false |})
        | None => (with_inbox p [], None)
        end
      else (with_inbox p rest, None)
  end.
End p2p.

(** ** The file server (server.go) *)

(** What a call that may panic comes to. *)
Inductive outcome (A : Type) : Type :=
| Returned (a : A)
| Panicked (reason : string).
Arguments Returned {A} a.
Arguments Panicked {A} reason.

Module server.
Import errors store p2p.

(** [peers] is the registry [map[string]p2p.Peer], as an association list
    from remote address to peer.  Go leaves the order in which a [range]
    visits a map open; the order of the list is the order of the visit.
    [quitch] is [true] once the channel is closed.  [entropy] is the source
    that [crypto/rand] reads, [drawn] the number of bytes taken from it. *)
Record FileServer : Type := {
  ID : string;
  EncKey : bytes;
  BootstrapNodes : list string;
  peers : list (string * Peer);
  store_ : Store;
  quitch : bool;
  transport_closed : bool;
  wall : Z;
  entropy : nat -> byte;
  drawn : nat
}.

Definition with_peers (s : FileServer) (ps : list (string * Peer)) : FileServer :=
  {| ID := ID s; EncKey := EncKey s; BootstrapNodes := BootstrapNodes s;
     peers := ps; store_ := store_ s; quitch := quitch s;
     transport_closed := transport_closed s; wall := wall s;
     entropy := entropy s; drawn := drawn s |}.

Definition with_store (s : FileServer) (st : Store) : FileServer :=
  {| ID := ID s; EncKey := EncKey s; BootstrapNodes := BootstrapNodes s;
     peers := peers s; store_ := st; quitch := quitch s;
     transport_closed := transport_closed s; wall := wall s;
     entropy := entropy s; drawn := drawn s |}.

Definition with_wall (s : FileServer) (t : Z) : FileServer :=
  {| ID := ID s; EncKey := EncKey s; BootstrapNodes := BootstrapNodes s;
     peers := peers s; store_ := store_ s; quitch := quitch s;
     transport_closed := transport_closed s; wall := t;
     entropy := entropy s; drawn := drawn s |}.

Definition with_drawn (s : FileServer) (n : nat) : FileServer :=
  {| ID := ID s; EncKey := EncKey s; BootstrapNodes := BootstrapNodes s;
     peers := peers s; store_ := store_ s; quitch := quitch s;
     transport_closed := transport_closed s; wall := wall s;
     entropy := entropy s; drawn := n |}.

Definition with_quitch (s : FileServer) (q : bool) : FileServer :=
  {| ID := ID s; EncKey := EncKey s; BootstrapNodes := BootstrapNodes s;
     peers := peers s; store_ := store_ s; quitch := q;
     transport_closed := transport_closed s; wall := wall s;
     entropy := entropy s; drawn := drawn s |}.

Definition with_transport_closed (s : FileServer) (c : bool) : FileServer :=
  {| ID := ID s; EncKey := EncKey s; BootstrapNodes := BootstrapNodes s;
     peers := peers s; store_ := store_ s; quitch := quitch s;
     transport_closed := c; wall := wall s;
     entropy := entropy s; drawn := drawn s |}.

#[export] Instance FileServer_Clock : Clock FileServer :=
  {| now := wall; elapse := fun d s => with_wall s (wall s + d) |}.

(** [s.peers[addr]] *)
Fixpoint peer_lookup (ps : list (string * Peer)) (addr : string) : option Peer :=
  match ps with
  | [] => None
  | (a, p) :: rest => if String.eqb a addr then Some p else peer_lookup rest addr
  end.

(** [s.peers[addr] = p] *)
Fixpoint peer_store (ps : list (string * Peer)) (addr : string) (p : Peer)
  : list (string * Peer) :=
  match ps with
  | [] => [(addr, p)]
  | (a, q) :: rest =>
      if String.eqb a addr then (a, p) :: rest else (a, q) :: peer_store rest addr p
  end.

Definition OnPeer (s : FileServer) (addr : string) (p : Peer) : FileServer * option error :=
  (with_peers s (peer_store (peers s) addr p), None).

(** Whether the next [n] writes to the peer all succeed. *)
Definition delivers (p : Peer) (n : nat) : bool :=
  match budget p with
  | None => true
  | Some k => (n <=? k)%nat
  end.

(** What the body of the loop of [broadcast] does to one peer. *)
Definition announce (buf : bytes) (p : Peer) : Peer :=
  let '(p, err) := Send p [IncomingMessage] in
  match err with
  | Some _ => p
  | None => fst (Send p buf)
  end.

(** An entry of the registry after some writes: the peer is in its place, and
    what has been sent to it has only been appended to. *)
Definition grows (ap ap' : string * Peer) : Prop :=
  ap'.1 = ap.1 /\ exists t, sent ap'.2 = sent ap.2 ++ t.

Section Server.
Context `{Primitives}.

(** The [for addr, peer := range s.peers] of [broadcast]; the result is the
    registry after the sends, [lastErr] and [successCount]. *)
Fixpoint broadcast_peers (ps : list (string * Peer)) (buf : bytes)
         (lastErr : option error) (successCount : Z)
  : list (string * Peer) * option error * Z :=
  match ps with
  | [] => ([], lastErr, successCount)
  | (addr, peer) :: rest =>
      let '(peer, err) := Send peer [IncomingMessage] in
      match err with
      | Some e =>
          let '(rest, lastErr, successCount) :=
            broadcast_peers rest buf (Some e) successCount in
          ((addr, peer) :: rest, lastErr, successCount)
      | None =>
          let '(peer, err) := Send peer buf in
          match err with
          | Some e =>
              let '(rest, lastErr, successCount) :=
                broadcast_peers rest buf (Some e) successCount in
              ((addr, peer) :: rest, lastErr, successCount)
          | None =>
              let '(rest, lastErr, successCount) :=
                broadcast_peers rest buf lastErr (successCount + 1) in
              ((addr, peer) :: rest, lastErr, successCount)
          end
      end
  end.

(** [gob] encodes every value of the two registered payload types, so the
    encoding step of [broadcast] does not fail. *)
Definition broadcast (s : FileServer) (msg : Message) : FileServer * option error :=
  let buf := gobEncode msg in
  let '(ps, lastErr, successCount) := broadcast_peers (peers s) buf None 0 in
  let s' := with_peers s ps in
  if (successCount =? 0) && (0 <? Z.of_nat (length (peers s)))
  then (s', Some (Wrap lastErr NetworkError "failed to broadcast to any peers"))
  else (s', None).

(** The [for addr, peer := range s.peers] of [fetchFileFromNetwork]; the
    last component tells whether a peer delivered the file. *)
Fixpoint fetch_peers (encKey : bytes) (id key : string) (ps : list (string * Peer))
         (st : Store) (lastErr : option error)
  : list (string * Peer) * Store * option error * bool :=
  match ps with
  | [] => ([], st, lastErr, false)
  | (addr, peer) :: rest =>
      let '(peer, r) := read_int64 peer in
      match r with
      | inr e =>
          let '(rest, st, lastErr, ok) := fetch_peers encKey id key rest st (Some e) in
          ((addr, peer) :: rest, st, lastErr, ok)
      | inl fileSize =>
          let body := take (Z.to_nat fileSize) (inbox peer) in
          let peer := if drains st then fst (read_limited peer fileSize) else peer in
          let '(st, n, err) := WriteDecrypt st encKey id key body in
          match err with
          | Some e =>
              let peer := CloseStream peer in
              let '(rest, st, lastErr, ok) := fetch_peers encKey id key rest st (Some e) in
              ((addr, peer) :: rest, st, lastErr, ok)
          | None => ((addr, CloseStream peer) :: rest, st, lastErr, true)
          end
      end
  end.

Definition fetchFileFromNetwork (s : FileServer) (key : string) : FileServer * option error :=
  if (length (peers s) =? 0)%nat
  then (s, Some (NewNetworkError "no peers available for file retrieval"))
  else
    let msg := {| Payload_ := GetFile {| gf_ID := ID s; gf_Key := hashKey key |} |} in
    let '(s, err) := broadcast s msg in
    match err with
    | Some e => (s, Some e)
    | None =>
        let ctx := WithTimeout Background (10 * retry.Second) s in
        let '(s, stop) := select_done_after ctx (500 * retry.Millisecond) s in
        if stop
        then (s, Some (NewTimeoutError "timeout waiting for file from network"))
        else
          let '(ps, st, lastErr, ok) :=
            fetch_peers (EncKey s) (ID s) key (peers s) (store_ s) None in
          let s := with_store (with_peers s ps) st in
          if ok then (s, None)
          else
            match lastErr with
            | Some e => (s, Some e)
            | None => (s, Some (NewNetworkError "no peers provided the requested file"))
            end
    end.

(** The reader that [Get] returns is given by the bytes it yields. *)
Definition Get (s : FileServer) (key : string) : FileServer * (bytes + error) :=
  if Has (store_ s) (ID s) key then
    match Read (store_ s) (ID s) key with
    | inr e => (s, inr (Wrap (Some e) StorageError "failed to read local file"))
    | inl (_, r) => (s, inl r)
    end
  else
    let '(s, err) := retry.DoSimple (fun s => fetchFileFromNetwork s key) s in
    match err with
    | Some e => (s, inr (Wrap (Some e) NetworkError "failed to fetch file from network"))
    | None =>
        match Read (store_ s) (ID s) key with
        | inr e => (s, inr (Wrap (Some e) StorageError "failed to read file after network fetch"))
        | inl (_, r) => (s, inl r)
        end
    end.

(** [io.MultiWriter(peers...).Write(b)]: the writers are written in turn, and
    the first error ends the call. *)
Fixpoint multi_write (ps : list (string * Peer)) (b : bytes)
  : list (string * Peer) * option error :=
  match ps with
  | [] => ([], None)
  | (addr, peer) :: rest =>
      let '(peer, err) := Send peer b in
      match err with
      | Some e => ((addr, peer) :: rest, Some e)
      | None =>
          let '(rest, err) := multi_write rest b in
          ((addr, peer) :: rest, err)
      end
  end.

Definition mw_Write (b : bytes) (s : FileServer) : FileServer * option error :=
  let '(ps, err) := multi_write (peers s) b in (with_peers s ps, err).

(** [rand.Read(iv)] on a 16-byte buffer. *)
Definition draw_iv (s : FileServer) : FileServer * bytes :=
  (with_drawn s (drawn s + crypto.ivSize)%nat,
   map (entropy s) (seq (drawn s) crypto.ivSize)).

Definition replicateTopeers (s : FileServer) (key : string) (fileBuffer : bytes)
  : FileServer * option error :=
  if (length (peers s) =? 0)%nat then (s, None)
  else
    let '(s, err) := mw_Write [IncomingStream] s in
    match err with
    | Some e => (s, Some (Wrap (Some e) NetworkError "failed to send stream header"))
    | None =>
        let '(s, iv) := draw_iv s in
        let '(s, n, err) := crypto.copyEncrypt (EncKey s) iv fileBuffer mw_Write s in
        match err with
        | Some e =>
            (s, Some (Wrap (Some e) EncryptionError "failed to encrypt and send file data"))
        | None => (s, None)
        end
    end.

(** [r] is what the reader yields; the tee fills [fileBuffer] with it. *)
Definition Store (s : FileServer) (key : string) (r : bytes) : FileServer * option error :=
  let fileBuffer := r in
  let '(st, size, err) := Write (store_ s) (ID s) key r in
  match err with
  | Some e => (s, Some (Wrap (Some e) StorageError "failed to write file locally"))
  | None =>
      let s := with_store s st in
      if (length (peers s) =? 0)%nat then (s, None)
      else
        let msg := {| Payload_ := StoreFile {| sf_ID := ID s; sf_Key := hashKey key;
                                               sf_Size := int64 (size + 16) |} |} in
        let '(s, _) := broadcast s msg in
        let s := elapse (5 * retry.Millisecond) s in
        replicateTopeers s key fileBuffer
  end.

(** [close(s.quitch)]: closing a closed channel panics. *)
Definition Stop (s : FileServer) : outcome FileServer :=
  if quitch s then Panicked "close of closed channel"
  else Returned (with_quitch s true).

Definition handleMessageGetFile (s : FileServer) (from : string) (msg : MessageGetFile)
  : FileServer * option error :=
  if negb (Has (store_ s) (gf_ID msg) (gf_Key msg))
  then (s, Some (NewFileNotFoundError (gf_Key msg)))
  else
    match Read (store_ s) (gf_ID msg) (gf_Key msg) with
    | inr e => (s, Some (Wrap (Some e) StorageError "failed to read file for serving"))
    | inl (fileSize, r) =>
        match peer_lookup (peers s) from with
        | None => (s, Some (NewConnectionError (String.append "peer " (String.append from " not found"))))
        | Some peer =>
            let '(peer, err) := Send peer [IncomingStream] in
            match err with
            | Some e =>
                (with_peers s (peer_store (peers s) from peer),
                 Some (Wrap (Some e) NetworkError "failed to send stream header"))
            | None =>
                let '(peer, err) := Send peer (put_int64 fileSize) in
                match err with
                | Some e =>
                    (with_peers s (peer_store (peers s) from peer),
                     Some (Wrap (Some e) NetworkError "failed to send file size"))
                | None =>
                    let '(peer, err) :=
                      match r with
                      | [] => (peer, None)
                      | _ => Send peer r
                      end in
                    match err with
                    | Some e =>
                        (with_peers s (peer_store (peers s) from peer),
                         Some (Wrap (Some e) NetworkError "failed to send file data"))
                    | None => (with_peers s (peer_store (peers s) from peer), None)
                    end
                end
            end
        end
    end.

Definition handleMessageStoreFile (s : FileServer) (from : string) (msg : MessageStoreFile)
  : FileServer * option error :=
  match peer_lookup (peers s) from with
  | None => (s, Some (NewConnectionError (String.append "peer " (String.append from " not found"))))
  | Some peer =>
      let body := take (Z.to_nat (sf_Size msg)) (inbox peer) in
      let peer' := if drains (store_ s) then fst (read_limited peer (sf_Size msg)) else peer in
      let '(st, n, err) := Write (store_ s) (sf_ID msg) (sf_Key msg) body in
      let s := with_store (with_peers s (peer_store (peers s) from peer')) st in
      match err with
      | Some e => (s, Some (Wrap (Some e) StorageError "failed to write file from peer"))
      | None => (with_peers s (peer_store (peers s) from (CloseStream peer')), None)
      end
  end.

Definition handleMessage (s : FileServer) (from : string) (msg : Message)
  : FileServer * option error :=
  match Payload_ msg with
  | StoreFile v => handleMessageStoreFile s from v
  | GetFile v => handleMessageGetFile s from v
  | Other => (s, None)
  end.

(** What [loop] comes to on the RPCs that the transport delivers: it exits,
    with the transport closed by the deferred call, or it is left waiting in
    its [select] with the channel drained and [quitch] open. *)
Inductive loop_state : Type :=
| Exited (s : FileServer)
| Waiting (s : FileServer).

(** [rpcs] are the RPCs on [s.Transport.Consume()], in order.  When an RPC
    is ready and [quitch] is closed as well, [select] may take either case:
    [pick_quit] tells, select by select, whether it takes [quitch]. *)
Fixpoint loop (pick_quit : list bool) (rpcs : list RPC) (s : FileServer) : loop_state :=
  match rpcs with
  | [] =>
      if quitch s then Exited (with_transport_closed s true) else Waiting s
  | rpc :: rest =>
      if quitch s && hd true pick_quit
      then Exited (with_transport_closed s true)
      else
        match gobDecode (Payload rpc) with
        | None => loop (tl pick_quit) rest s
        | Some (msg, _) =>
            let '(s, _) := handleMessage s (From_ rpc) msg in
            loop (tl pick_quit) rest s
        end
  end.

End Server.
End server.

(** ** Nodes on a connection *)

(** Modelled from the spec: the connection between two nodes and the
    per-peer read task of the transport (sections 4.4 and 5), whose source
    files are not at hand.  What one node has written to a peer arrives, in
    order, in the inbox that the other node keeps for it.  The read task takes
    typed messages off the inbox and hands them to the message loop; once it
    has read the kind byte of a stream it waits, and the bytes that follow are
    left for the handler, or for [Get], to read. *)
Module network.
Import p2p server.

(** Modelled from the spec: the bytes written so far to the peer at [addr]. *)
Definition sent_to (addr : string) (s : FileServer) : bytes :=
  match peer_lookup (peers s) addr with
  | Some p => sent p
  | None => []
  end.

(** Modelled from the spec: the bytes written to the peer at [addr] between
    [s] and [s']. *)
Definition sent_since (s : FileServer) (addr : string) (s' : FileServer) : bytes :=
  drop (length (sent_to addr s)) (sent_to addr s').

Section Network.
Context `{Primitives}.

(** Modelled from the spec: the read task on a connection; frames are read
    until the inbox is empty or a stream begins. *)
Fixpoint read_frames (fuel : nat) (from : string) (p : Peer) : Peer * list RPC :=
  match fuel with
  | O => (p, [])
  | S fuel' =>
      match read_frame from p with
      | (p, Some rpc) =>
          if Stream rpc then (p, [])
          else
            let '(p, rpcs) := read_frames fuel' from p in
            (p, rpc :: rpcs)
      | (p, None) => (p, [])
      end
  end.

(** Modelled from the spec: the node [s] receives the bytes [b] from the
    peer at [from]; the read task frames them, and the message loop handles
    the messages. *)
Definition receive (from : string) (b : bytes) (s : FileServer) : FileServer :=
  match peer_lookup (peers s) from with
  | None => s
  | Some p =>
      let arrived := with_inbox p (inbox p ++ b) in
      let '(p, rpcs) := read_frames (length (inbox arrived)) from arrived in
      match loop [] rpcs (with_peers s (peer_store (peers s) from p)) with
      | Exited s' => s'
      | Waiting s' => s'
      end
  end.

End Network.
End network.

(** ** A concrete instance of the primitives

    A small length-prefixed tagged format in place of [gob], a key stream
    read off the key and the IV, and a digest that tags the key.  The model
    runs on it. *)
Module sample.

Definition encode_string (s : string) : bytes :=
  repeat x01 (length (String.list_byte_of_string s)) ++ x00 :: String.list_byte_of_string s.

Fixpoint decode_length (bs : bytes) : option (nat * bytes) :=
  match bs with
  | [] => None
  | b :: rest =>
      if Byte.eqb b x00 then Some (O, rest)
      else if Byte.eqb b x01 then
        match decode_length rest with
        | Some (n, rest') => Some (S n, rest')
        | None => None
        end
      else None
  end.

Definition decode_string (bs : bytes) : option (string * bytes) :=
  match decode_length bs with
  | Some (n, rest) =>
      if (length rest <? n)%nat then None
      else Some (String.string_of_list_byte (take n rest), drop n rest)
  | None => None
  end.

Definition encode (m : Message) : bytes :=
  match Payload_ m with
  | StoreFile v =>
      x01 :: encode_string (sf_ID v) ++ encode_string (sf_Key v) ++ put_int64 (sf_Size v)
  | GetFile v => x02 :: encode_string (gf_ID v) ++ encode_string (gf_Key v)
  | Other => [x00]
  end.

Definition decode (bs : bytes) : option (Message * bytes) :=
  match bs with
  | [] => None
  | tag :: rest =>
      if Byte.eqb tag x00 then Some ({| Payload_ := Other |}, rest)
      else
        match decode_string rest with
        | None => None
        | Some (id, rest) =>
            match decode_string rest with
            | None => None
            | Some (key, rest) =>
                if Byte.eqb tag x02
                then Some ({| Payload_ := GetFile {| gf_ID := id; gf_Key := key |} |}, rest)
                else if Byte.eqb tag x01 then
                  if (length rest <? 8)%nat then None
                  else Some ({| Payload_ := StoreFile {| sf_ID := id; sf_Key := key;
                                  sf_Size := get_int64 (take 8 rest) |} |},
                             drop 8 rest)
                else None
            end
        end
  end.

Definition stream (key iv : bytes) (i : nat) : byte :=
  xor_byte (nth i key x00) (nth i iv x00).

#[export] Instance primitives : Primitives :=
  {| hashKey := fun key => String.append "h:" key;
     gobEncode := encode;
     gobDecode := decode;
     keystream := stream |}.

Definition peer0 : p2p.Peer :=
  {| p2p.sent := []; p2p.inbox := []; p2p.budget := None; p2p.in_flight := 0 |}.

Definition node (id : string) (key : bytes) (ps : list (string * p2p.Peer))
  : server.FileServer :=
  {| server.ID := id; server.EncKey := key; server.BootstrapNodes := [];
     server.peers := ps;
     server.store_ := {| store.files := ∅; store.failing := false |};
     server.quitch := false; server.transport_closed := false;
     server.wall := 0; server.entropy := fun i => byte_of_Z (Z.of_nat (7 * i + 3));
     server.drawn := 0 |}.

End sample.


(** ** Package logger (logger/logger.go) *)

From stdpp Require Import pretty.
Local Open Scope Z_scope.

(** The package on its own: levels, loggers and their writers.  A [*Logger]
    is an address, so that a logger that is shared is changed for everyone
    who holds it, and a logger that [WithPrefix] makes is an object of its
    own. *)
Module logger.

(** [LogLevel] is an [int]; the five named levels are 0 to 4. *)
Definition LogLevel : Type := Z.
Definition DEBUG : LogLevel := 0.
Definition INFO : LogLevel := 1.
Definition WARN : LogLevel := 2.
Definition ERROR : LogLevel := 3.
Definition FATAL : LogLevel := 4.

(** [LogLevel.String] *)
Definition LogLevel_String (l : LogLevel) : string :=
  if l =? DEBUG then "DEBUG"
  else if l =? INFO then "INFO"
  else if l =? WARN then "WARN"
  else if l =? ERROR then "ERROR"
  else if l =? FATAL then "FATAL"
  else "UNKNOWN".

(** An [io.Writer], known by its handle; [Stdout] is [os.Stdout]. *)
Definition Writer : Type := nat.
Definition Stdout : Writer := O.

Record Logger : Type := {
  level : LogLevel;
  output : Writer;
  prefix : string
}.

(** The state that the package acts on: the [Logger] objects by address,
    and what each writer has been given, one element per [Write]. *)
Record World : Type := {
  loggers : list Logger;
  written : gmap Writer (list string)
}.

(** What a call comes to: it returns, or the process exits ([os.Exit]), or
    the receiver is not the address of a logger and the call panics. *)
Inductive after (A : Type) : Type :=
| Continues (a : A) (w : World)
| Terminates (code : Z) (w : World)
| Faults (reason : string).
Arguments Continues {A} a w.
Arguments Terminates {A} code w.
Arguments Faults {A} reason.

(** [&Logger{...}]: a new object, at the next free address. *)
Definition alloc (lg : Logger) (w : World) : nat * World :=
  (length (loggers w), {| loggers := loggers w ++ [lg]; written := written w |}).

Definition New (level : LogLevel) (output : Writer) (prefix : string) (w : World)
  : nat * World :=
  alloc {| level := level; output := output; prefix := prefix |} w.

Definition NewDefault (w : World) : nat * World := New INFO Stdout "" w.

(** [var defaultLogger = NewDefault()]: the first object of the package. *)
Definition defaultLogger : nat := O.
Definition init : World := snd (NewDefault {| loggers := []; written := ∅ |}).

(** An assignment to the fields of [*l]. *)
Definition assign (l : nat) (f : Logger -> Logger) (w : World) : after unit :=
  match loggers w !! l with
  | None => Faults "invalid memory address or nil pointer dereference"
  | Some lg => Continues tt {| loggers := <[l := f lg]> (loggers w); written := written w |}
  end.

Definition SetLevel (l : nat) (level : LogLevel) (w : World) : after unit :=
  assign l (fun lg => {| level := level; output := output lg; prefix := prefix lg |}) w.

Definition SetOutput (l : nat) (output : Writer) (w : World) : after unit :=
  assign l (fun lg => {| level := level lg; output := output; prefix := prefix lg |}) w.

Definition SetPrefix (l : nat) (prefix : string) (w : World) : after unit :=
  assign l (fun lg => {| level := level lg; output := output lg; prefix := prefix |}) w.

(** [w.Write(b)] on the writer [o]; what [Write] returns is not looked at. *)
Definition Write (o : Writer) (b : string) (ws : gmap Writer (list string))
  : gmap Writer (list string) :=
  <[o := default [] (ws !! o) ++ [b]]> ws.

(** What a call of [log] takes from its surroundings: the local time as
    [Format] prints it, the frame that [runtime.Caller(2)] reports (file and
    line) if there is one, and the message, [fmt.Sprintf(format, args...)]. *)
Record Call : Type := {
  timestamp : string;
  frame : option (string * Z);
  message : string
}.

Definition slash : Ascii.ascii := Ascii.ascii_of_nat 47.

(** The last element of [strings.Split(file, "/")]. *)
Fixpoint last_part (acc s : string) : string :=
  match s with
  | EmptyString => acc
  | String c s' =>
      if Ascii.eqb c slash then last_part "" s'
      else last_part (acc +:+ String c EmptyString) s'
  end.

Definition caller_of (frame : option (string * Z)) : string :=
  match frame with
  | None => "unknown"
  | Some (file, line) => last_part "" file +:+ ":" +:+ pretty line
  end.

Definition newline : string := String (Ascii.ascii_of_nat 10) EmptyString.

Definition log (l : nat) (lv : LogLevel) (c : Call) (w : World) : after unit :=
  match loggers w !! l with
  | None => Faults "invalid memory address or nil pointer dereference"
  | Some lg =>
      if lv <? level lg then Continues tt w
      else
        let caller := caller_of (frame c) in
        let logLine :=
          if negb (String.eqb (prefix lg) "")
          then "[" +:+ timestamp c +:+ "] " +:+ LogLevel_String lv +:+ " ["
                 +:+ prefix lg +:+ "] [" +:+ caller +:+ "] " +:+ message c +:+ newline
          else "[" +:+ timestamp c +:+ "] " +:+ LogLevel_String lv +:+ " ["
                 +:+ caller +:+ "] " +:+ message c +:+ newline in
        let w := {| loggers := loggers w; written := Write (output lg) logLine (written w) |} in
        if lv =? FATAL then Terminates 1 w else Continues tt w
  end.

Definition Debug (l : nat) (c : Call) (w : World) : after unit := log l DEBUG c w.
Definition Info (l : nat) (c : Call) (w : World) : after unit := log l INFO c w.
Definition Warn (l : nat) (c : Call) (w : World) : after unit := log l WARN c w.
Definition Error (l : nat) (c : Call) (w : World) : after unit := log l ERROR c w.
Definition Fatal (l : nat) (c : Call) (w : World) : after unit := log l FATAL c w.

(** [(l *Logger) WithPrefix]: the level and the writer of [l] as they are
    now, in a new object. *)
Definition WithPrefix (l : nat) (prefix : string) (w : World) : after nat :=
  match loggers w !! l with
  | None => Faults "invalid memory address or nil pointer dereference"
  | Some lg =>
      let '(d, w) := alloc {| level := level lg; output := output lg; prefix := prefix |} w in
      Continues d w
  end.

(** The functions of the package act on [defaultLogger]. *)
Definition SetGlobalLevel (level : LogLevel) (w : World) : after unit :=
  SetLevel defaultLogger level w.
Definition SetGlobalOutput (output : Writer) (w : World) : after unit :=
  SetOutput defaultLogger output w.
Definition GlobalFatal (c : Call) (w : World) : after unit := Fatal defaultLogger c w.
Definition GlobalWithPrefix (prefix : string) (w : World) : after nat :=
  WithPrefix defaultLogger prefix w.

End logger.

(** ** Package config: validation and the log level *)

Module config.
Import logger.

(** [int] and [int64] fields are only compared with 0. *)
Record Config : Type := {
  ListenAddr : string;
  StorageRoot : string;
  BootstrapNodes : list string;
  LogLevel_ : string;
  LogFile : string;
  EncryptionEnabled : bool;
  EncryptionKey : string;
  MaxConnections : Z;
  ReadTimeout : Z;
  WriteTimeout : Z;
  MaxStorageSize : Z;
  ReplicationFactor : Z
}.

Section Config.
(** [strings.ToUpper], of the Go library. *)
Variable ToUpper : string -> string.

(** The map [validLogLevels], looked up at [key]. *)
Definition validLogLevels (key : string) : bool :=
  String.eqb key "DEBUG" || String.eqb key "INFO" || String.eqb key "WARN"
  || String.eqb key "ERROR" || String.eqb key "FATAL".

Definition Validate (c : Config) : option errors.error :=
  if String.eqb (ListenAddr c) "" then
    Some (errors.PlainError "listen address cannot be empty")
  else if String.eqb (StorageRoot c) "" then
    Some (errors.PlainError "storage root cannot be empty")
  else if negb (validLogLevels (ToUpper (LogLevel_ c))) then
    Some (errors.PlainError ("invalid log level: " +:+ LogLevel_ c))
  else if MaxConnections c <=? 0 then
    Some (errors.PlainError "max connections must be positive")
  else if ReadTimeout c <=? 0 then
    Some (errors.PlainError "read timeout must be positive")
  else if WriteTimeout c <=? 0 then
    Some (errors.PlainError "write timeout must be positive")
  else if MaxStorageSize c <=? 0 then
    Some (errors.PlainError "max storage size must be positive")
  else if ReplicationFactor c <=? 0 then
    Some (errors.PlainError "replication factor must be positive")
  else None.

Definition GetLogLevel (c : Config) : LogLevel :=
  let u := ToUpper (LogLevel_ c) in
  if String.eqb u "DEBUG" then DEBUG
  else if String.eqb u "INFO" then INFO
  else if String.eqb u "WARN" then WARN
  else if String.eqb u "ERROR" then ERROR
  else if String.eqb u "FATAL" then FATAL
  else INFO.

End Config.

(** [strings.ToUpper] as it acts on ASCII text; the model runs on it. *)
Definition upper_char (c : Ascii.ascii) : Ascii.ascii :=
  let n := Ascii.nat_of_ascii c in
  if ((97 <=? n) && (n <=? 122))%nat then Ascii.ascii_of_nat (n - 32) else c.

Fixpoint upper (s : string) : string :=
  match s with
  | EmptyString => EmptyString
  | String c s' => String (upper_char c) (upper s')
  end.

End config.
(** * Properties *)

(** ** Bytes, integers and the key stream *)

Lemma xor_byte_involutive (a b : byte) : xor_byte (xor_byte a b) b = a.
Proof.
  unfold xor_byte.
  rewrite <- (Byte.of_bits_to_bits a) at 2.
  destruct (Byte.to_bits a) as (a0 & a1 & a2 & a3 & a4 & a5 & a6 & a7).
  destruct (Byte.to_bits b) as (b0 & b1 & b2 & b3 & b4 & b5 & b6 & b7) eqn:Hb.
  rewrite Byte.to_bits_of_bits.
  f_equal.
  repeat match goal with
         | |- (_, _) = (_, _) => f_equal
         end;
    match goal with
    | |- xorb (xorb ?x ?y) ?y = ?x => destruct x, y; reflexivity
    end.
Qed.

Lemma xor_byte_comm (a b : byte) : xor_byte a b = xor_byte b a.
Proof.
  unfold xor_byte.
  destruct (Byte.to_bits a) as (a0 & a1 & a2 & a3 & a4 & a5 & a6 & a7).
  destruct (Byte.to_bits b) as (b0 & b1 & b2 & b3 & b4 & b5 & b6 & b7).
  now rewrite (xorb_comm a0), (xorb_comm a1), (xorb_comm a2), (xorb_comm a3),
    (xorb_comm a4), (xorb_comm a5), (xorb_comm a6), (xorb_comm a7).
Qed.

(** Two masks that send a byte to the same byte are one mask. *)
Lemma xor_byte_cancel (a k1 k2 : byte) : xor_byte a k1 = xor_byte a k2 -> k1 = k2.
Proof.
  intros Heq.
  rewrite <- (xor_byte_involutive k1 a), <- (xor_byte_involutive k2 a).
  now rewrite (xor_byte_comm k1 a), (xor_byte_comm k2 a), Heq.
Qed.

Lemma int64_range (z : Z) : - 2 ^ 63 <= int64 z < 2 ^ 63.
Proof.
  unfold int64.
  pose proof (Z.mod_pos_bound (z + 2 ^ 63) (2 ^ 64) ltac:(lia)). lia.
Qed.

Lemma int64_id (z : Z) : - 2 ^ 63 <= z < 2 ^ 63 -> int64 z = z.
Proof.
  intros Hz. unfold int64. rewrite Z.mod_small by lia. lia.
Qed.

Lemma Z_of_byte_of_Z (z : Z) : Z_of_byte (byte_of_Z z) = z mod 256.
Proof.
  unfold Z_of_byte, byte_of_Z.
  pose proof (Z.mod_pos_bound z 256 ltac:(lia)) as Hb.
  destruct (Byte.of_N (Z.to_N (z mod 256))) as [b|] eqn:Hof.
  - apply Byte.to_of_N in Hof. rewrite Hof. lia.
  - apply Byte.of_N_None_iff in Hof. lia.
Qed.

Lemma le_value_le_bytes (n : nat) (z : Z) :
  le_value (le_bytes n z) = z mod 256 ^ Z.of_nat n.
Proof.
  revert z. induction n as [|n IH]; intros z.
  - simpl. now rewrite Z.mod_1_r.
  - cbn [le_bytes le_value]. rewrite Z_of_byte_of_Z, IH.
    rewrite Nat2Z.inj_succ, Z.pow_succ_r by lia.
    rewrite Z.rem_mul_r by lia. reflexivity.
Qed.

Lemma get_put_int64 (v : Z) : - 2 ^ 63 <= v < 2 ^ 63 -> get_int64 (put_int64 v) = v.
Proof.
  intros Hv. unfold get_int64, put_int64.
  rewrite le_value_le_bytes.
  change (256 ^ Z.of_nat 8) with (2 ^ 64).
  rewrite Z.mod_mod by lia.
  unfold int64.
  rewrite Zplus_mod_idemp_l.
  rewrite Z.mod_small by lia. lia.
Qed.

Lemma length_le_bytes (n : nat) (z : Z) : length (le_bytes n z) = n.
Proof. revert z. induction n; intros; simpl; auto. Qed.

Lemma length_put_int64 (v : Z) : length (put_int64 v) = 8%nat.
Proof. apply length_le_bytes. Qed.

Section CryptoFacts.
Context `{Primitives}.

Lemma xor_stream_involutive (ks : nat -> byte) (i : nat) (src : bytes) :
  crypto.xor_stream ks i (crypto.xor_stream ks i src) = src.
Proof.
  revert i. induction src as [|b src IH]; intros i; simpl.
  - reflexivity.
  - now rewrite xor_byte_involutive, IH.
Qed.

Lemma length_xor_stream (ks : nat -> byte) (i : nat) (src : bytes) :
  length (crypto.xor_stream ks i src) = length src.
Proof. revert i. induction src; intros; simpl; auto. Qed.

Lemma length_encrypt (key iv src : bytes) :
  length (crypto.encrypt key iv src) = (length iv + length src)%nat.
Proof. unfold crypto.encrypt. now rewrite length_app, length_xor_stream. Qed.

(** Decryption under the key of the encryption gives the plaintext back. *)
Lemma decrypt_encrypt (key iv src : bytes) :
  length iv = crypto.ivSize ->
  crypto.decrypt key (crypto.encrypt key iv src) = inl src.
Proof.
  intros Hiv. unfold crypto.decrypt.
  rewrite length_encrypt, Hiv.
  destruct (Nat.ltb_spec (crypto.ivSize + length src) crypto.ivSize) as [Hlt|_]; [lia|].
  unfold crypto.encrypt.
  rewrite take_app_length' by (symmetry; exact Hiv).
  rewrite drop_app_length' by (symmetry; exact Hiv).
  now rewrite xor_stream_involutive.
Qed.

(** Decryption under a key whose key stream differs at the first byte does
    not give the plaintext back. *)
Lemma decrypt_under_another_key (key1 key2 iv : bytes) (b : byte) (src : bytes) :
  length iv = crypto.ivSize ->
  keystream key1 iv 0 <> keystream key2 iv 0 ->
  crypto.decrypt key2 (crypto.encrypt key1 iv (b :: src)) <> inl (b :: src).
Proof.
  intros Hiv Hks. unfold crypto.decrypt.
  rewrite length_encrypt, Hiv.
  destruct (Nat.ltb_spec (crypto.ivSize + length (b :: src)) crypto.ivSize) as [Hlt|_];
    [discriminate|].
  unfold crypto.encrypt.
  rewrite take_app_length' by (symmetry; exact Hiv).
  rewrite drop_app_length' by (symmetry; exact Hiv).
  cbn [crypto.xor_stream]. intros Heq. injection Heq as Hb _.
  apply Hks.
  apply (xor_byte_cancel (xor_byte b (keystream key1 iv 0))).
  rewrite xor_byte_involutive. now rewrite Hb.
Qed.

End CryptoFacts.

(** ** Package errors and package retry *)

Lemma IsRetryable_Network (e : errors.error) :
  errors.GetType e = errors.NetworkError -> errors.IsRetryable e = true.
Proof. intros He. unfold errors.IsRetryable. now rewrite He. Qed.

Lemma IsRetryable_Validation (e : errors.error) :
  errors.GetType e = errors.ValidationError -> errors.IsRetryable e = false.
Proof. intros He. unfold errors.IsRetryable. now rewrite He. Qed.

Section RetryFacts.
Import errors retry.

(** With attempts left, a run of retryable failures followed by a success
    makes the loop call the closure once per failure and once more. *)
Lemma Do_loop_succeeds_after (config : RetryConfig) (outcome : nat -> option error) :
  forall (m : nat) (attempt delay : Z) (lastErr : option error) (p : Probe),
    attempt + Z.of_nat m <= MaxAttempts config ->
    (forall k, (k < m)%nat ->
               exists e, outcome (calls p + k)%nat = Some e /\ IsRetryable e = true) ->
    outcome (calls p + m)%nat = None ->
    exists p',
      Do_loop Background config (scripted outcome) (S m) attempt delay lastErr p
      = (p', None)
      /\ calls p' = (calls p + S m)%nat.
Proof.
  induction m as [|m IH]; intros attempt delay lastErr p Hle Hfail Hok.
  - cbn. rewrite Nat.add_0_r in Hok. rewrite Hok.
    eexists; split; [reflexivity|]. cbn. lia.
  - destruct (Hfail O ltac:(lia)) as (e & He & Hretry).
    rewrite Nat.add_0_r in He.
    cbn [Do_loop]. cbn [Done Background cancelled deadline orb].
    cbn [scripted]. rewrite He, Hretry. cbn [negb].
    destruct (Z.eqb_spec attempt (MaxAttempts config)) as [Heq|_]; [lia|].
    cbn [select_done_after Background cancelled deadline].
    edestruct (IH (attempt + 1) (next_delay config delay
                 (now (elapse (Z.max 0 delay) {| calls := S (calls p); clock := clock p |})))
                 (Some e)
                 (elapse (Z.max 0 delay) {| calls := S (calls p); clock := clock p |}))
      as (p' & Hrun & Hcalls).
    + lia.
    + intros k Hk. cbn. destruct (Hfail (S k) ltac:(lia)) as (e' & He' & Hr').
      exists e'. split; [|exact Hr'].
      rewrite <- He'. f_equal. lia.
    + cbn. rewrite <- Hok. f_equal. lia.
    + exists p'. split; [exact Hrun|]. rewrite Hcalls. cbn. lia.
Qed.

(** A failure that is not retryable ends the loop at once. *)
Lemma Do_loop_stops_on_fatal (ctx : Context) (config : RetryConfig)
      (outcome : nat -> option error) (fuel : nat) (attempt delay : Z)
      (lastErr : option error) (p : Probe) (e : error) :
  Done ctx p = false ->
  outcome (calls p) = Some e ->
  IsRetryable e = false ->
  Do_loop ctx config (scripted outcome) (S fuel) attempt delay lastErr p
  = ({| calls := S (calls p); clock := clock p |}, Some e).
Proof.
  intros Hlive He Hfatal. cbn [Do_loop]. rewrite Hlive.
  cbn [scripted]. now rewrite He, Hfatal.
Qed.

End RetryFacts.

Section RetryPolicy.
Import errors retry.

(** C3, as stated, fails when [MaxAttempts] is 0: the loop body never runs,
    so a closure that fails with a Validation error is not invoked at all,
    and [Do] returns [nil] instead of the error. *)
Lemma retry_Do_without_attempts_skips_closure :
  let config := {| MaxAttempts := 0; InitialDelay := 1 * Millisecond;
                   MaxDelay := 10 * Millisecond; Multiplier := 2 # 1;
                   Jitter := false |} in
  let e := NewValidationError "non-retryable error" in
  let fn := scripted (fun _ => Some e) in
  let start := {| calls := 0; clock := 0 |} in
  ~ (calls (fst (Do Background config fn start)) = 1%nat
     /\ snd (Do Background config fn start) = Some e)
  /\ Do Background config fn start = (start, None).
Proof.
  cbv zeta. split; [|reflexivity].
  intros [Hcalls _]. vm_compute in Hcalls. discriminate.
Qed.

(** C3, amended: with [MaxAttempts = n >= 1] and a context that is never
    done, a closure that fails with a Network error on its first [n - 1]
    invocations and then succeeds makes [Do] return [nil] after exactly [n]
    invocations; and a closure that fails with a Validation error is invoked
    exactly once, whatever [n >= 1] is, and [Do] returns that error. *)
Theorem retry_Do_policy
        (config : RetryConfig) (n : nat) (flaky fatal : nat -> option error)
        (e : error) (p : Probe) :
  (1 <= n)%nat ->
  MaxAttempts config = Z.of_nat n ->
  (forall k, (k < n - 1)%nat ->
             exists e', flaky (calls p + k)%nat = Some e' /\ GetType e' = NetworkError) ->
  flaky (calls p + (n - 1))%nat = None ->
  fatal (calls p) = Some e ->
  GetType e = ValidationError ->
  (exists p', Do Background config (scripted flaky) p = (p', None)
              /\ calls p' = (calls p + n)%nat)
  /\ Do Background config (scripted fatal) p
     = ({| calls := S (calls p); clock := clock p |}, Some e).
Proof.
  intros Hn Hmax Hflaky Hok Hfatal Hval.
  unfold Do. rewrite Hmax, Nat2Z.id.
  destruct n as [|m]; [lia|].
  replace (S m - 1)%nat with m in * by lia.
  split.
  - destruct (Do_loop_succeeds_after config flaky m 1 (InitialDelay config) None p)
      as (p' & Hrun & Hcalls).
    + lia.
    + intros k Hk. destruct (Hflaky k Hk) as (e' & He' & Hty).
      exists e'. split; [exact He'|]. now apply IsRetryable_Network.
    + exact Hok.
    + exists p'. split; [exact Hrun|exact Hcalls].
  - apply Do_loop_stops_on_fatal.
    + reflexivity.
    + exact Hfatal.
    + now apply IsRetryable_Validation.
Qed.

(** The scenarios of the package's tests: two Network failures and a
    success under [MaxAttempts = 3], and a Validation failure. *)
Lemma retry_Do_policy_witness :
  let config := {| MaxAttempts := 3; InitialDelay := 1 * Millisecond;
                   MaxDelay := 10 * Millisecond; Multiplier := 2 # 1;
                   Jitter := false |} in
  let flaky := fun k => if (k <? 2)%nat
                        then Some (NewNetworkError "temporary failure") else None in
  let e := NewValidationError "non-retryable error" in
  let start := {| calls := 0; clock := 0 |} in
  (exists p', Do Background config (scripted flaky) start = (p', None)
              /\ calls p' = 3%nat)
  /\ Do Background config (scripted (fun _ => Some e)) start
     = ({| calls := 1; clock := 0 |}, Some e).
Proof.
  cbv zeta.
  apply (retry_Do_policy
           {| MaxAttempts := 3; InitialDelay := 1 * Millisecond;
              MaxDelay := 10 * Millisecond; Multiplier := 2 # 1; Jitter := false |}
           3
           (fun k => if (k <? 2)%nat
                     then Some (NewNetworkError "temporary failure") else None)
           (fun _ => Some (NewValidationError "non-retryable error"))
           (NewValidationError "non-retryable error")
           {| calls := 0; clock := 0 |}).
  - lia.
  - reflexivity.
  - intros k Hk. exists (NewNetworkError "temporary failure").
    destruct k as [|[|k]]; [split; reflexivity | split; reflexivity | simpl in Hk; lia].
  - reflexivity.
  - reflexivity.
  - reflexivity.
Defined.

End RetryPolicy.

(** An invariant of the world that the clock does not touch, and under which
    the closure always fails, makes [Do] return an error. *)
Lemma Do_loop_never_nil {W : Type} `{Clock W} (I : W -> Prop) (ctx : Context)
      (config : retry.RetryConfig) (fn : W -> W * option errors.error) :
  (forall d w, I w -> I (elapse d w)) ->
  (forall w, I w -> exists w' e, fn w = (w', Some e) /\ I w') ->
  forall (fuel : nat) (attempt delay : Z) (lastErr : option errors.error) (w : W),
    I w ->
    (fuel = O -> lastErr <> None) ->
    exists w' e,
      retry.Do_loop ctx config fn fuel attempt delay lastErr w = (w', Some e) /\ I w'.
Proof.
  intros Hclock Hfn.
  induction fuel as [|fuel IH]; intros attempt delay lastErr w Hw Hlast.
  - destruct lastErr as [e|]; [|now destruct Hlast].
    exists w, e. now split.
  - cbn [retry.Do_loop].
    destruct (Done ctx w); [now eauto|].
    destruct (Hfn w Hw) as (w1 & e & Hrun & Hw1). rewrite Hrun.
    destruct (negb (errors.IsRetryable e)); [now eauto|].
    destruct (attempt =? retry.MaxAttempts config); [now eauto|].
    unfold select_done_after.
    destruct (cancelled ctx); [now eauto|].
    destruct (deadline ctx) as [dl|].
    + destruct (dl <=? now w1 + Z.max 0 delay); [now eauto|].
      apply IH; [now apply Hclock | discriminate].
    + apply IH; [now apply Hclock | discriminate].
Qed.

Section GetFacts.
Context `{Primitives}.
Import errors store p2p server.

Lemma fetchFileFromNetwork_without_peers (s : FileServer) (key : string) :
  peers s = [] ->
  fetchFileFromNetwork s key
  = (s, Some (NewNetworkError "no peers available for file retrieval")).
Proof. intros Hp. unfold fetchFileFromNetwork. now rewrite Hp. Qed.

Lemma next_delay_default_first (t : Z) :
  retry.next_delay retry.DefaultRetryConfig (100 * retry.Millisecond) t
  = 180 * retry.Millisecond.
Proof.
  unfold retry.next_delay, retry.scale.
  cbn [retry.DefaultRetryConfig retry.Multiplier retry.MaxDelay retry.Jitter Qnum Qden].
  rewrite (Z.mul_comm 2 t), Z.rem_mul by lia.
  reflexivity.
Qed.

(** A deadline that the clock has not reached. *)
Ltac not_yet :=
  match goal with
  | |- context [?a <=? ?b] =>
      replace (a <=? b) with false
        by (symmetry; apply Z.leb_gt;
            cbn [now elapse FileServer_Clock wall with_wall];
            unfold retry.Second, retry.Millisecond; lia)
  end.

(** Without peers every attempt fails at once with a Network error, which
    is retryable: [DoSimple] makes its three attempts, 100 ms and 180 ms
    apart, and [Get] wraps the last error. *)
Lemma Get_without_peers_run (s : FileServer) (key : string) :
  peers s = [] ->
  Has (store_ s) (ID s) key = false ->
  Get s key
  = (with_wall s (wall s + 280 * retry.Millisecond),
     inr (Wrap (Some (NewNetworkError "no peers available for file retrieval"))
               NetworkError "failed to fetch file from network")).
Proof.
  intros Hpeers Hmiss. unfold Get. rewrite Hmiss.
  unfold retry.DoSimple, retry.DoWithTimeout, retry.Do.
  change (Z.to_nat (retry.MaxAttempts retry.DefaultRetryConfig)) with 3%nat.
  change (retry.InitialDelay retry.DefaultRetryConfig) with (100 * retry.Millisecond).
  unfold WithTimeout. cbn [Background cancelled deadline].
  cbn [retry.Do_loop]. unfold Done at 1. cbn [cancelled deadline orb].
  not_yet.
  rewrite fetchFileFromNetwork_without_peers by exact Hpeers.
  cbn [IsRetryable GetType NewNetworkError New negb].
  change (1 =? retry.MaxAttempts retry.DefaultRetryConfig) with false. cbn iota.
  unfold select_done_after at 1. cbn [cancelled deadline].
  not_yet.
  rewrite next_delay_default_first.
  unfold Done at 1. cbn [cancelled deadline orb].
  not_yet.
  rewrite fetchFileFromNetwork_without_peers by exact Hpeers.
  cbn [IsRetryable GetType NewNetworkError New negb].
  change (1 + 1 =? retry.MaxAttempts retry.DefaultRetryConfig) with false. cbn iota.
  unfold select_done_after at 1. cbn [cancelled deadline].
  not_yet.
  unfold Done at 1. cbn [cancelled deadline orb].
  not_yet.
  rewrite fetchFileFromNetwork_without_peers by exact Hpeers.
  cbn [IsRetryable GetType NewNetworkError New negb].
  change (1 + 1 + 1 =? retry.MaxAttempts retry.DefaultRetryConfig) with true. cbn iota.
  cbn [elapse FileServer_Clock wall with_wall]. f_equal.
  unfold with_wall. cbn. f_equal. unfold retry.Millisecond. lia.
Qed.

(** C4: on a node without peers, [Get] of a key that the local store does
    not hold returns an error of kind Network, which wraps the Network
    error "no peers available" of the fetch; the registry and the store are
    as before. *)
Theorem Get_without_peers_is_Network (s : FileServer) (key : string) :
  peers s = [] ->
  Has (store_ s) (ID s) key = false ->
  exists s' e,
    Get s key = (s', inr e)
    /\ GetType e = NetworkError
    /\ e = Wrap (Some (NewNetworkError "no peers available for file retrieval"))
                NetworkError "failed to fetch file from network"
    /\ peers s' = [] /\ store_ s' = store_ s.
Proof.
  intros Hpeers Hmiss. rewrite (Get_without_peers_run s key Hpeers Hmiss).
  eexists. eexists. split; [reflexivity|].
  split; [reflexivity|]. split; [reflexivity|]. now split.
Qed.

End GetFacts.


(** ** The registry *)

Section RegistryFacts.
Import p2p server.

Lemma peer_lookup_store (ps : list (string * Peer)) (addr : string) (p : Peer) :
  peer_lookup (peer_store ps addr p) addr = Some p.
Proof.
  induction ps as [|[a q] ps IH]; simpl.
  - now rewrite String.eqb_refl.
  - destruct (String.eqb a addr) eqn:Ha; simpl; now rewrite Ha.
Qed.

Lemma peer_lookup_store_other (ps : list (string * Peer)) (addr other : string) (p : Peer) :
  addr <> other ->
  peer_lookup (peer_store ps addr p) other = peer_lookup ps other.
Proof.
  intros Hne. induction ps as [|[a q] ps IH]; simpl.
  - destruct (String.eqb_spec addr other); [contradiction|reflexivity].
  - destruct (String.eqb_spec a addr) as [->|Ha]; simpl.
    + destruct (String.eqb_spec addr other); [contradiction|reflexivity].
    + now rewrite IH.
Qed.

Lemma peer_store_store (ps : list (string * Peer)) (addr : string) (p q : Peer) :
  peer_store (peer_store ps addr p) addr q = peer_store ps addr q.
Proof.
  induction ps as [|[a r] ps IH]; simpl.
  - now rewrite String.eqb_refl.
  - destruct (String.eqb a addr) eqn:Ha; simpl; rewrite Ha; [reflexivity|now rewrite IH].
Qed.

End RegistryFacts.

(** ** The handlers *)

Section HandlerFacts.
Context `{Primitives}.
Import errors store p2p server.

(** C8: when the key of a [GetFile] message is absent from the store, the
    handler returns a FileNotFound error and leaves the server as it was:
    nothing is written to the requesting peer, nor to any other. *)
Theorem handleMessageGetFile_missing (s : FileServer) (from : string) (msg : MessageGetFile) :
  Has (store_ s) (gf_ID msg) (gf_Key msg) = false ->
  handleMessageGetFile s from msg = (s, Some (NewFileNotFoundError (gf_Key msg)))
  /\ GetType (NewFileNotFoundError (gf_Key msg)) = FileNotFoundError
  /\ forall p, peer_lookup (peers s) from = Some p ->
               peer_lookup (peers (fst (handleMessageGetFile s from msg))) from = Some p.
Proof.
  intros Hmiss. unfold handleMessageGetFile. rewrite Hmiss. cbn [negb fst].
  repeat split. intros p Hp. exact Hp.
Qed.

(** What [handleMessageStoreFile] comes to when the peer is registered and
    the store takes the write. *)
Lemma handleMessageStoreFile_run (s : FileServer) (from : string)
      (msg : MessageStoreFile) (peer : Peer) :
  peer_lookup (peers s) from = Some peer ->
  failing (store_ s) = false ->
  handleMessageStoreFile s from msg
  = (with_peers
       (with_store s
          (with_files (store_ s)
             (<[(sf_ID msg, sf_Key msg) := take (Z.to_nat (sf_Size msg)) (inbox peer)]>
                (files (store_ s)))))
       (peer_store (peers s) from
          (CloseStream (with_inbox peer (drop (Z.to_nat (sf_Size msg)) (inbox peer))))),
     None).
Proof.
  intros Hpeer Hfs.
  unfold handleMessageStoreFile. rewrite Hpeer.
  unfold Write, drains. rewrite Hfs. cbn [negb fst read_limited].
  cbn [peers with_store with_peers]. rewrite peer_store_store. reflexivity.
Qed.

(** C7: on [StoreFile] from a registered peer that has at least [Size] bytes
    on the way, the handler takes exactly the first [Size] bytes off the
    peer, stores them unchanged under (ID, Key) of the message, and calls
    [CloseStream] on the peer; it returns [nil]. *)
Theorem handleMessageStoreFile_copies (s : FileServer) (from : string)
        (msg : MessageStoreFile) (peer : Peer) :
  peer_lookup (peers s) from = Some peer ->
  failing (store_ s) = false ->
  0 <= sf_Size msg <= Z.of_nat (length (inbox peer)) ->
  exists s' body,
    handleMessageStoreFile s from msg = (s', None)
    /\ Z.of_nat (length body) = sf_Size msg
    /\ inbox peer = body ++ drop (Z.to_nat (sf_Size msg)) (inbox peer)
    /\ files (store_ s') !! (sf_ID msg, sf_Key msg) = Some body
    /\ peer_lookup (peers s') from
       = Some (CloseStream (with_inbox peer (drop (Z.to_nat (sf_Size msg)) (inbox peer)))).
Proof.
  intros Hpeer Hfs Hsize.
  rewrite (handleMessageStoreFile_run s from msg peer Hpeer Hfs).
  eexists. exists (take (Z.to_nat (sf_Size msg)) (inbox peer)).
  split; [reflexivity|].
  split; [rewrite length_take; lia|].
  split; [now rewrite take_drop|].
  split.
  - cbn. apply lookup_insert_eq.
  - cbn. apply peer_lookup_store.
Qed.

End HandlerFacts.

(** ** Store and Stop *)

Section StoreFacts.
Context `{Primitives}.
Import errors store p2p server.

(** C10: with an empty registry, [Store] writes the blob to the local store
    and returns [nil]; the server is otherwise as before: no peer exists to
    which anything was sent, no time was spent waiting for peers and no IV
    was drawn, so neither the broadcast nor the replication took place. *)
Theorem Store_without_peers (s : FileServer) (key : string) (r : bytes) :
  peers s = [] ->
  failing (store_ s) = false ->
  Store s key r
  = (with_store s (with_files (store_ s) (<[(ID s, key) := r]> (files (store_ s)))), None)
  /\ Read (store_ (fst (Store s key r))) (ID s) key = inl (Z.of_nat (length r), r)
  /\ peers (fst (Store s key r)) = []
  /\ wall (fst (Store s key r)) = wall s
  /\ drawn (fst (Store s key r)) = drawn s.
Proof.
  intros Hpeers Hfs.
  assert (Hrun : Store s key r
                 = (with_store s (with_files (store_ s)
                                    (<[(ID s, key) := r]> (files (store_ s)))), None)).
  { unfold Store, Write. rewrite Hfs. cbn. now rewrite Hpeers. }
  rewrite Hrun. cbn [fst]. repeat split.
  - unfold Read. cbn. rewrite Hfs. now rewrite lookup_insert_eq.
  - exact Hpeers.
Qed.

End StoreFacts.

Section StopFacts.
Context `{Primitives}.
Import errors store p2p server.

Lemma handleMessage_quitch (s : FileServer) (from : string) (msg : Message) :
  quitch (fst (handleMessage s from msg)) = quitch s.
Proof.
  unfold handleMessage. destruct (Payload_ msg) as [v|v|]; [| |reflexivity].
  - unfold handleMessageStoreFile.
    destruct (peer_lookup (peers s) from); [|reflexivity].
    destruct (Write _ _ _ _) as [[st n] [e|]]; reflexivity.
  - unfold handleMessageGetFile.
    destruct (negb _); [reflexivity|].
    destruct (Read _ _ _) as [[fileSize r]|e]; [|reflexivity].
    destruct (peer_lookup (peers s) from) as [peer|]; [|reflexivity].
    destruct (Send peer _) as [p1 [e|]]; [reflexivity|].
    destruct (Send p1 _) as [p2 [e|]]; [reflexivity|].
    destruct r; [reflexivity|].
    destruct (Send p2 _) as [p3 [e|]]; reflexivity.
Qed.

(** Once [quitch] is closed the loop exits, whatever is on the channel and
    whichever ready case its selects take, and closes the transport. *)
Lemma loop_exits_after_quit (pick_quit : list bool) (rpcs : list RPC) (s : FileServer) :
  quitch s = true ->
  exists s', loop pick_quit rpcs s = Exited s'
             /\ transport_closed s' = true /\ quitch s' = true.
Proof.
  revert pick_quit s. induction rpcs as [|rpc rpcs IH]; intros pick_quit s Hq.
  - cbn. rewrite Hq. eexists. split; [reflexivity|]. now split.
  - cbn [loop]. rewrite Hq. cbn [andb].
    destruct (hd true pick_quit).
    + eexists. split; [reflexivity|]. now split.
    + destruct (gobDecode (Payload rpc)) as [[msg rest]|].
      * pose proof (handleMessage_quitch s (From_ rpc) msg) as Hh.
        destruct (handleMessage s (From_ rpc) msg) as [s1 e]. cbn [fst] in Hh.
        apply IH. now rewrite Hh.
      * now apply IH.
Qed.

(** C9, amended: [Stop] returns no error, and a call on a server whose
    [quitch] is still open completes without failure and closes [quitch];
    this signals the loop to quit: whatever RPCs are pending and whichever
    ready case its selects take, the loop then exits and closes the
    transport. *)
Theorem Stop_signals_quit (s : FileServer) :
  quitch s = false ->
  exists s1,
    Stop s = Returned s1
    /\ quitch s1 = true
    /\ forall (pick_quit : list bool) (rpcs : list RPC),
         exists s2, loop pick_quit rpcs s1 = Exited s2 /\ transport_closed s2 = true.
Proof.
  intros Hopen. unfold Stop. rewrite Hopen.
  eexists. split; [reflexivity|]. split; [reflexivity|].
  intros pick_quit rpcs.
  destruct (loop_exits_after_quit pick_quit rpcs (with_quitch s true) eq_refl)
    as (s2 & Hrun & Hclosed & _).
  now exists s2.
Qed.

End StopFacts.

Section StopTheorems.
Import server.

(** C9, as stated, fails on a second call: [Stop] closes [quitch] each time,
    and closing a closed channel panics. *)
Lemma Stop_twice_panics :
  exists s1,
    Stop (sample.node "n1" [] []) = Returned s1
    /\ Stop s1 = Panicked "close of closed channel".
Proof. eexists. split; reflexivity. Qed.

End StopTheorems.

(** ** Broadcast *)

Section BroadcastFacts.
Context `{Primitives}.
Import errors store p2p server.

Lemma Send_delivers (p : Peer) (b : bytes) (n : nat) :
  delivers p (S n) = true ->
  exists p', Send p b = (p', None)
             /\ sent p' = sent p ++ b /\ inbox p' = inbox p
             /\ in_flight p' = in_flight p /\ delivers p' n = true.
Proof.
  unfold delivers, Send. destruct (budget p) as [[|k]|] eqn:Hb; intros Hd.
  - discriminate.
  - eexists. split; [reflexivity|]. cbn. repeat split; try reflexivity.
    apply Nat.leb_le in Hd. apply Nat.leb_le. lia.
  - eexists. split; [reflexivity|]. cbn. repeat split; reflexivity.
Qed.

Lemma Send_fails (p : Peer) (b : bytes) :
  delivers p 1 = false ->
  Send p b = (p, Some (PlainError "write: broken pipe")).
Proof.
  unfold delivers, Send. destruct (budget p) as [[|k]|]; intros Hd;
    [reflexivity | discriminate | discriminate].
Qed.

Lemma Send_inbox (p : Peer) (b : bytes) :
  inbox (fst (Send p b)) = inbox p /\ in_flight (fst (Send p b)) = in_flight p.
Proof. unfold Send. destruct (budget p) as [[|k]|]; now split. Qed.

Lemma Send_sent_grows (p : Peer) (b : bytes) :
  exists t, sent (fst (Send p b)) = sent p ++ t.
Proof.
  unfold Send. destruct (budget p) as [[|k]|]; cbn.
  - exists []. now rewrite app_nil_r.
  - now exists b.
  - now exists b.
Qed.

Lemma Send_ok_inv (p p' : Peer) (b : bytes) :
  Send p b = (p', None) ->
  delivers p 1 = true /\ forall n, delivers p' n = delivers p (S n).
Proof.
  unfold Send, delivers. destruct (budget p) as [[|k]|]; intros Hs;
    [discriminate| |]; injection Hs as <-; cbn; now split.
Qed.

Lemma Send_err_inv (p p' : Peer) (b : bytes) (e : error) :
  Send p b = (p', Some e) ->
  p' = p /\ forall n, delivers p (S n) = false.
Proof.
  unfold Send, delivers. destruct (budget p) as [[|k]|]; intros Hs;
    [|discriminate|discriminate]. injection Hs as <- _. now split.
Qed.

Lemma announce_delivers (buf : bytes) (p : Peer) (n : nat) :
  delivers p (S (S n)) = true ->
  sent (announce buf p) = sent p ++ [IncomingMessage] ++ buf
  /\ inbox (announce buf p) = inbox p
  /\ in_flight (announce buf p) = in_flight p
  /\ delivers (announce buf p) n = true.
Proof.
  intros Hd. unfold announce.
  destruct (Send_delivers p [IncomingMessage] (S n) Hd) as (p1 & -> & Hs1 & Hi1 & Hf1 & Hd1).
  destruct (Send_delivers p1 buf n Hd1) as (p2 & Hrun & Hs2 & Hi2 & Hf2 & Hd2).
  rewrite Hrun. cbn [fst].
  rewrite Hs2, Hs1, Hi2, Hi1, Hf2, Hf1, <- app_assoc. now repeat split.
Qed.

Lemma announce_inbox (buf : bytes) (p : Peer) :
  inbox (announce buf p) = inbox p /\ in_flight (announce buf p) = in_flight p.
Proof.
  unfold announce.
  pose proof (Send_inbox p [IncomingMessage]) as [Hi Hf].
  destruct (Send p [IncomingMessage]) as [p1 [e|]]; cbn [fst] in *.
  - now split.
  - pose proof (Send_inbox p1 buf) as [Hi' Hf']. split; congruence.
Qed.

(** The loop of [broadcast] treats the peers one by one: the registry that
    it leaves is the old one with every peer announced to, and the count is
    the number of peers that took both writes. *)
Lemma broadcast_peers_spec (buf : bytes) (ps : list (string * Peer)) :
  forall (lastErr : option error) (successCount : Z),
    exists lastErr',
      broadcast_peers ps buf lastErr successCount
      = (map (fun ap => (ap.1, announce buf ap.2)) ps, lastErr',
         successCount + Z.of_nat (length (filter (fun ap => delivers ap.2 2 = true) ps)))
      /\ (lastErr <> None -> lastErr' <> None)
      /\ (Exists (fun ap => delivers ap.2 2 = false) ps -> lastErr' <> None).
Proof.
  induction ps as [|[addr p] ps IH]; intros lastErr successCount.
  - exists lastErr. cbn. rewrite Z.add_0_r. split; [reflexivity|].
    split; [auto|]. intros Hex. inversion Hex.
  - cbn [broadcast_peers map fst snd]. unfold announce.
    destruct (Send p [IncomingMessage]) as [p1 [e1|]] eqn:Hs1.
    + destruct (IH (Some e1) successCount) as (le & -> & Hle & _).
      exists le.
      assert (Hnd : delivers p 2 = false).
      { now apply Send_err_inv in Hs1 as [_ Hs1]. }
      rewrite filter_cons. cbn [snd]. rewrite Hnd.
      destruct (decide (false = true)) as [Habs|_]; [discriminate|].
      split; [reflexivity|]. split; intros _; apply Hle; discriminate.
    + destruct (Send p1 buf) as [p2 [e2|]] eqn:Hs2; cbn [fst].
      * destruct (IH (Some e2) successCount) as (le & -> & Hle & _).
        exists le.
        assert (Hnd : delivers p 2 = false).
        { apply Send_ok_inv in Hs1 as [_ Hs1]. apply Send_err_inv in Hs2 as [_ Hs2].
          rewrite <- Hs1. apply Hs2. }
        rewrite filter_cons. cbn [snd]. rewrite Hnd.
        destruct (decide (false = true)) as [Habs|_]; [discriminate|].
        split; [reflexivity|]. split; intros _; apply Hle; discriminate.
      * destruct (IH lastErr (successCount + 1)) as (le & -> & Hle & Hex).
        exists le.
        assert (Hd : delivers p 2 = true).
        { apply Send_ok_inv in Hs1 as [_ Hs1]. apply Send_ok_inv in Hs2 as [Hs2 _].
          rewrite <- Hs1. exact Hs2. }
        rewrite filter_cons. cbn [snd]. rewrite Hd.
        destruct (decide (true = true)) as [_|Habs]; [|now destruct Habs].
        cbn [length]. split; [f_equal; lia|].
        split; [exact Hle|].
        intros Hex'. apply Exists_cons in Hex' as [Hhd|Htl].
        -- cbn in Hhd. congruence.
        -- now apply Hex.
Qed.

(** [broadcast] returns an error, of kind Network, exactly when the registry
    is not empty and no peer took the message. *)
Lemma broadcast_spec (s : FileServer) (msg : Message) :
  exists lastErr,
    broadcast s msg
    = (with_peers s (map (fun ap => (ap.1, announce (gobEncode msg) ap.2)) (peers s)),
       if forallb (fun ap => negb (delivers ap.2 2)) (peers s)
          && negb (length (peers s) =? 0)%nat
       then Some (Wrap lastErr NetworkError "failed to broadcast to any peers")
       else None).
Proof.
  unfold broadcast.
  destruct (broadcast_peers_spec (gobEncode msg) (peers s) None 0) as (le & -> & _ & _).
  exists le.
  assert (Hcount : (0 + Z.of_nat (length (filter (fun ap => delivers ap.2 2 = true) (peers s))) =? 0)
                   = forallb (fun ap => negb (delivers ap.2 2)) (peers s)).
  { induction (peers s) as [|[a p] ps IH]; [reflexivity|].
    rewrite filter_cons. cbn [forallb snd].
    destruct (delivers p 2).
    - destruct (decide (true = true)) as [_|Habs]; [|now destruct Habs].
      cbn [negb andb length]. apply Z.eqb_neq. lia.
    - destruct (decide (false = true)) as [Habs|_]; [discriminate|].
      cbn [negb andb]. exact IH. }
  rewrite Hcount.
  destruct (forallb _ (peers s)); [|reflexivity].
  destruct (peers s); reflexivity.
Qed.

End BroadcastFacts.

(** ** Replication *)

Section ReplicateFacts.
Context `{Primitives}.
Import errors store p2p server.

Lemma grows_refl (ap : string * Peer) : grows ap ap.
Proof. split; [reflexivity|]. exists []. now rewrite app_nil_r. Qed.

Lemma grows_trans (a b c : string * Peer) : grows a b -> grows b c -> grows a c.
Proof.
  intros [Hab (t & Ht)] [Hbc (u & Hu)]. split; [congruence|].
  exists (t ++ u). now rewrite Hu, Ht, app_assoc.
Qed.

Lemma Forall2_grows_refl (ps : list (string * Peer)) : Forall2 grows ps ps.
Proof. induction ps; constructor; auto using grows_refl. Qed.

Lemma Forall2_grows_trans (a b c : list (string * Peer)) :
  Forall2 grows a b -> Forall2 grows b c -> Forall2 grows a c.
Proof.
  intros Hab. revert c. induction Hab; intros c Hbc; inversion Hbc; subst; constructor.
  - eauto using grows_trans.
  - auto.
Qed.

Lemma multi_write_grows (ps : list (string * Peer)) (b : bytes) :
  Forall2 grows ps (fst (multi_write ps b)).
Proof.
  induction ps as [|[addr p] ps IH]; cbn [multi_write fst].
  - constructor.
  - pose proof (Send_sent_grows p b) as Hg.
    destruct (Send p b) as [p1 [e|]]; cbn [fst] in *.
    + constructor; [now split|apply Forall2_grows_refl].
    + destruct (multi_write ps b) as [ps' e']. cbn [fst] in *.
      constructor; [now split|exact IH].
Qed.

(** One failing writer makes the whole write fail. *)
Lemma multi_write_fails (ps : list (string * Peer)) (b : bytes) :
  Exists (fun ap => delivers ap.2 1 = false) ps ->
  snd (multi_write ps b) = Some (PlainError "write: broken pipe").
Proof.
  induction ps as [|[addr p] ps IH]; intros Hex; [inversion Hex|].
  cbn [multi_write].
  destruct (delivers p 1) eqn:Hd.
  - destruct (Send_delivers p b 0 Hd) as (p1 & -> & _).
    apply Exists_cons in Hex as [Hhd|Htl]; [cbn in Hhd; congruence|].
    specialize (IH Htl). destruct (multi_write ps b) as [ps' e']. exact IH.
  - now rewrite Send_fails.
Qed.

Lemma Send_healthy (p : Peer) (b : bytes) :
  budget p = None -> Send p b = (with_sent p (sent p ++ b), None).
Proof. intros Hb. unfold Send, with_sent. now rewrite Hb. Qed.

Lemma announce_healthy (buf : bytes) (p : Peer) :
  budget p = None ->
  announce buf p = with_sent p (sent p ++ [IncomingMessage] ++ buf).
Proof.
  intros Hb. unfold announce. rewrite Send_healthy by exact Hb.
  rewrite Send_healthy by exact Hb. cbn. unfold with_sent. cbn.
  now rewrite <- app_assoc.
Qed.

Lemma multi_write_healthy (ps : list (string * Peer)) (b : bytes) :
  Forall (fun ap => budget ap.2 = None) ps ->
  multi_write ps b = (map (fun ap => (ap.1, with_sent ap.2 (sent ap.2 ++ b))) ps, None).
Proof.
  induction 1 as [|[addr p] ps Hp _ IH]; [reflexivity|].
  cbn [multi_write map fst snd]. cbn in Hp.
  now rewrite Send_healthy, IH.
Qed.

Lemma replicateTopeers_grows (s : FileServer) (key : string) (fileBuffer : bytes) :
  Forall2 grows (peers s) (peers (fst (replicateTopeers s key fileBuffer))).
Proof.
  unfold replicateTopeers.
  destruct (length (peers s) =? 0)%nat; [apply Forall2_grows_refl|].
  unfold mw_Write at 1.
  pose proof (multi_write_grows (peers s) [IncomingStream]) as H1.
  destruct (multi_write (peers s) [IncomingStream]) as [ps1 [e|]]; cbn [fst] in *.
  - exact H1.
  - unfold draw_iv, crypto.copyEncrypt.
    set (iv := map _ _).
    unfold mw_Write at 1. cbn [peers with_drawn with_peers].
    pose proof (multi_write_grows ps1 iv) as H2.
    destruct (multi_write ps1 iv) as [ps2 [e|]]; cbn [fst] in *.
    + eapply Forall2_grows_trans; eassumption.
    + destruct fileBuffer as [|b0 fb].
      * eapply Forall2_grows_trans; eassumption.
      * set (ct := crypto.xor_stream _ _ _).
        unfold mw_Write. cbn [peers with_drawn with_peers].
        pose proof (multi_write_grows ps2 ct) as H3.
        destruct (multi_write ps2 ct) as [ps3 [e|]]; cbn [fst] in *;
          eapply Forall2_grows_trans;
          try eassumption; eapply Forall2_grows_trans; eassumption.
Qed.

(** A single peer whose connection is broken makes [replicateTopeers]
    return an error, whatever the state of the other peers. *)
Lemma replicateTopeers_one_failure_is_an_error (s : FileServer) (key : string)
      (fileBuffer : bytes) :
  Exists (fun ap => delivers ap.2 1 = false) (peers s) ->
  snd (replicateTopeers s key fileBuffer)
  = Some (Wrap (Some (PlainError "write: broken pipe")) NetworkError
               "failed to send stream header").
Proof.
  intros Hex. unfold replicateTopeers.
  destruct (peers s) as [|ap ps] eqn:Hps; [inversion Hex|].
  cbn [length Nat.eqb]. rewrite <- Hps in *.
  unfold mw_Write.
  pose proof (multi_write_fails (peers s) [IncomingStream] Hex) as Hw.
  destruct (multi_write (peers s) [IncomingStream]) as [ps1 e]. cbn [snd] in Hw.
  now rewrite Hw.
Qed.

(** C2, the replication half: the failure of a single peer is not
    swallowed.  With a first peer whose connection is broken and a second
    that is sound, [replicateTopeers] returns an error of kind Network and
    the sound peer is sent nothing; visited in the other order, the sound
    peer gets the stream header only, and the error is the same.  [Store]
    returns that error to its caller. *)
Theorem replicateTopeers_fails_on_one_peer :
  let broken := {| sent := []; inbox := []; budget := Some O; in_flight := 0 |} in
  let sound := {| sent := []; inbox := []; budget := None; in_flight := 0 |} in
  let err := Wrap (Some (PlainError "write: broken pipe")) NetworkError
                  "failed to send stream header" in
  let s1 := sample.node "n1" [] [("10.0.0.1:3000", broken); ("10.0.0.2:3000", sound)] in
  let s2 := sample.node "n1" [] [("10.0.0.2:3000", sound); ("10.0.0.1:3000", broken)] in
  replicateTopeers s1 "a.txt" [x48; x69] = (s1, Some err)
  /\ snd (replicateTopeers s2 "a.txt" [x48; x69]) = Some err
  /\ peer_lookup (peers (fst (replicateTopeers s2 "a.txt" [x48; x69]))) "10.0.0.2:3000"
     = Some (with_sent sound [IncomingStream])
  /\ snd (Store s1 "a.txt" [x48; x69]) = Some err
  /\ snd (Store s2 "a.txt" [x48; x69]) = Some err.
Proof. cbv zeta. repeat split; vm_compute; reflexivity. Qed.

End ReplicateFacts.

(** ** Store: what goes on the wire *)

Section StoreWireFacts.
Context `{Primitives}.
Import errors store p2p server.

Lemma replicateTopeers_store (s : FileServer) (key : string) (fileBuffer : bytes) :
  store_ (fst (replicateTopeers s key fileBuffer)) = store_ s.
Proof.
  unfold replicateTopeers.
  destruct (length (peers s) =? 0)%nat; [reflexivity|].
  unfold mw_Write at 1.
  destruct (multi_write (peers s) [IncomingStream]) as [ps1 [e|]]; [reflexivity|].
  unfold draw_iv, crypto.copyEncrypt. unfold mw_Write at 1.
  cbn [peers with_drawn with_peers].
  destruct (multi_write ps1 _) as [ps2 [e|]]; [reflexivity|].
  destruct fileBuffer; [reflexivity|].
  unfold mw_Write. cbn [peers with_drawn with_peers].
  destruct (multi_write ps2 _) as [ps3 [e|]]; reflexivity.
Qed.

(** On sound connections the replication writes, to every peer, the stream
    header and then the encrypted stream. *)
Lemma replicateTopeers_healthy (s : FileServer) (key : string) (fileBuffer : bytes) :
  peers s <> [] ->
  Forall (fun ap => budget ap.2 = None) (peers s) ->
  replicateTopeers s key fileBuffer
  = (with_drawn
       (with_peers s
          (map (fun ap =>
                  (ap.1, with_sent ap.2
                           (sent ap.2 ++ [IncomingStream]
                              ++ crypto.encrypt (EncKey s)
                                   (map (entropy s) (seq (drawn s) crypto.ivSize))
                                   fileBuffer)))
               (peers s)))
       (drawn s + crypto.ivSize)%nat,
     None).
Proof.
  intros Hne Hh. unfold replicateTopeers.
  destruct (peers s) as [|ap0 ps0] eqn:Hps; [contradiction|].
  cbn [length Nat.eqb]. rewrite <- Hps in *. clear Hps ap0 ps0.
  unfold mw_Write at 1. rewrite multi_write_healthy by exact Hh.
  unfold draw_iv, crypto.copyEncrypt.
  cbn [entropy drawn with_peers EncKey].
  set (iv := map (entropy s) (seq (drawn s) crypto.ivSize)).
  unfold mw_Write at 1. cbn [peers with_drawn with_peers].
  assert (Hh1 : forall b, Forall (fun ap : string * Peer => budget ap.2 = None)
                  (map (fun ap : string * Peer => (ap.1, with_sent ap.2 (sent ap.2 ++ b)))
                       (peers s))).
  { intros b. apply Forall_map. eapply Forall_impl; [exact Hh|]. intros [a p] Hp. exact Hp. }
  rewrite multi_write_healthy by apply Hh1.
  rewrite map_map.
  destruct fileBuffer as [|b0 fb].
  - unfold with_drawn, with_peers. cbn [ID EncKey BootstrapNodes peers store_ quitch
      transport_closed wall entropy drawn].
    do 2 f_equal. apply map_ext. intros [a p].
    unfold with_sent, crypto.encrypt.
    cbn [fst snd sent inbox budget in_flight crypto.xor_stream].
    now rewrite app_nil_r, <- !app_assoc.
  - set (ct := crypto.xor_stream _ _ _).
    unfold mw_Write. cbn [peers with_drawn with_peers EncKey].
    rewrite multi_write_healthy.
    + rewrite map_map.
      unfold with_drawn, with_peers. cbn [ID EncKey BootstrapNodes peers store_ quitch
        transport_closed wall entropy drawn].
      do 2 f_equal. apply map_ext. intros [a p].
      unfold with_sent, crypto.encrypt. fold ct.
      cbn [fst snd sent inbox budget in_flight].
      now rewrite <- !app_assoc.
    + apply Forall_map. eapply Forall_impl; [exact Hh|]. intros [a p] Hp. exact Hp.
Qed.

(** The message that [Store] announces for a blob. *)
Lemma Store_steps (s : FileServer) (key : string) (r : bytes) :
  failing (store_ s) = false ->
  peers s <> [] ->
  Store s key r
  = replicateTopeers
      (elapse (5 * retry.Millisecond)
         (with_peers
            (with_store s (with_files (store_ s) (<[(ID s, key) := r]> (files (store_ s)))))
            (map (fun ap =>
                    (ap.1,
                     announce
                       (gobEncode
                          {| Payload_ :=
                               StoreFile {| sf_ID := ID s; sf_Key := hashKey key;
                                            sf_Size := int64 (Z.of_nat (length r) + 16) |} |})
                       ap.2))
                 (peers s))))
      key r.
Proof.
  intros Hfs Hne. unfold Store, Write. rewrite Hfs.
  cbn [peers with_store ID].
  destruct (peers s) as [|ap0 ps0] eqn:Hps; [contradiction|].
  cbn [length Nat.eqb]. rewrite <- Hps. clear Hne.
  set (msg := {| Payload_ := _ |}).
  destruct (broadcast_spec
              (with_store s (with_files (store_ s) (<[(ID s, key) := r]> (files (store_ s)))))
              msg) as (le & Hb).
  rewrite Hb. reflexivity.
Qed.

(** C5: every [StoreFile] message that [Store] announces carries as [Size]
    the number of bytes written to the local store plus 16.  For a blob [r]
    that the local store takes, each peer that the announcement reaches is
    sent the kind byte and the encoding of [StoreFile] with
    [Size = length r + 16], while the local file holds the [length r] bytes
    of [r]; and on sound connections the stream that follows the stream
    header has exactly [Size] bytes, the IV included. *)
Theorem Store_announces_ciphertext_size
        (s : FileServer) (key : string) (r : bytes) (i : nat) (addr : string) (p : Peer) :
  failing (store_ s) = false ->
  Z.of_nat (length r) + 16 < 2 ^ 63 ->
  peers s !! i = Some (addr, p) ->
  delivers p 2 = true ->
  let msg := {| Payload_ :=
                  StoreFile {| sf_ID := ID s; sf_Key := hashKey key;
                               sf_Size := Z.of_nat (length r) + 16 |} |} in
  let s' := fst (Store s key r) in
  files (store_ s') !! (ID s, key) = Some r
  /\ (exists p' tail,
        peers s' !! i = Some (addr, p')
        /\ sent p' = sent p ++ [IncomingMessage] ++ gobEncode msg ++ tail)
  /\ (Forall (fun ap => budget ap.2 = None) (peers s) ->
      exists p' stream,
        peers s' !! i = Some (addr, p')
        /\ sent p' = sent p ++ [IncomingMessage] ++ gobEncode msg
                            ++ [IncomingStream] ++ stream
        /\ Z.of_nat (length stream) = Z.of_nat (length r) + 16
        /\ snd (Store s key r) = None).
Proof.
  intros Hfs Hsize Hi Hd. cbv zeta.
  assert (Hne : peers s <> []) by (intros Hnil; rewrite Hnil in Hi; discriminate).
  rewrite (Store_steps s key r Hfs Hne).
  rewrite (int64_id (Z.of_nat (length r) + 16)) by lia.
  set (msg := {| Payload_ := _ |}).
  set (s1 := elapse _ _).
  assert (Hi1 : peers s1 !! i = Some (addr, announce (gobEncode msg) p)).
  { subst s1. cbn [elapse FileServer_Clock peers with_wall with_peers].
    rewrite list_lookup_fmap, Hi. reflexivity. }
  split; [|split].
  - rewrite replicateTopeers_store. subst s1. cbn. apply lookup_insert_eq.
  - pose proof (replicateTopeers_grows s1 key r) as Hg.
    destruct (Forall2_lookup_l _ _ _ _ _ Hg Hi1) as ([addr' p'] & Hi' & Haddr & t & Ht).
    cbn in Haddr, Ht. subst addr'.
    exists p', t. split; [exact Hi'|].
    rewrite Ht.
    destruct (announce_delivers (gobEncode msg) p 0 Hd) as (Hs & _).
    rewrite Hs. now rewrite <- !app_assoc.
  - intros Hh.
    assert (Hh1 : Forall (fun ap : string * Peer => budget ap.2 = None) (peers s1)).
    { subst s1. cbn [elapse FileServer_Clock peers with_wall with_peers].
      apply Forall_map. eapply Forall_impl; [exact Hh|].
      intros [a q] Hq. cbn in *. now rewrite announce_healthy. }
    assert (Hne1 : peers s1 <> []).
    { intros Hnil. rewrite Hnil in Hi1. discriminate. }
    rewrite (replicateTopeers_healthy s1 key r Hne1 Hh1).
    cbn [fst snd peers with_drawn with_peers].
    eexists. eexists. split.
    + rewrite list_lookup_fmap, Hi1. reflexivity.
    + cbn [snd sent with_sent].
      destruct (announce_delivers (gobEncode msg) p 0 Hd) as (Hs & _).
      rewrite Hs. split; [now rewrite <- !app_assoc|].
      split; [|reflexivity].
      rewrite length_encrypt, length_map, length_seq. unfold crypto.ivSize. lia.
Qed.

End StoreWireFacts.

(** ** Fetching from the network *)

Section FetchFacts.
Context `{Primitives}.
Import errors store p2p server.

Lemma read_int64_short (p : Peer) :
  (length (inbox p) < 8)%nat ->
  read_int64 p = (with_inbox p [], inr (PlainError "unexpected EOF")).
Proof.
  intros Hlen. unfold read_int64.
  destruct (Nat.ltb_spec (length (inbox p)) 8); [reflexivity|lia].
Qed.

Lemma read_int64_prefixed (p : Peer) (v : Z) (rest : bytes) :
  - 2 ^ 63 <= v < 2 ^ 63 ->
  inbox p = put_int64 v ++ rest ->
  read_int64 p = (with_inbox p rest, inl v).
Proof.
  intros Hv Hin. unfold read_int64. rewrite Hin.
  rewrite length_app, length_put_int64.
  destruct (Nat.ltb_spec (8 + length rest) 8); [lia|].
  rewrite take_app_length' by (symmetry; apply length_put_int64).
  rewrite drop_app_length' by (symmetry; apply length_put_int64).
  now rewrite get_put_int64.
Qed.

(** The loop of [fetchFileFromNetwork] passes the peers that send no size,
    and stops at the first peer that sends a size and that many bytes which
    decrypt: these bytes, and no more, leave its inbox, the plaintext goes
    to the store, and the peers behind it are not read from. *)
Lemma fetch_peers_first_responder (encKey : bytes) (id key : string)
      (pre post : list (string * Peer)) (addr : string) (peer : Peer)
      (st : store.Store) (body rest plain : bytes) :
  failing st = false ->
  Forall (fun ap => (length (inbox ap.2) < 8)%nat) pre ->
  inbox peer = put_int64 (Z.of_nat (length body)) ++ body ++ rest ->
  Z.of_nat (length body) < 2 ^ 63 ->
  crypto.decrypt encKey body = inl plain ->
  forall lastErr, exists lastErr',
    fetch_peers encKey id key (pre ++ (addr, peer) :: post) st lastErr
    = (map (fun ap => (ap.1, with_inbox ap.2 [])) pre
         ++ (addr, CloseStream (with_inbox peer rest)) :: post,
       with_files st (<[(id, key) := plain]> (files st)), lastErr', true).
Proof.
  intros Hfs Hpre Hin Hlen Hdec.
  induction Hpre as [|[a p] pre Hp _ IH]; intros lastErr.
  - exists lastErr. cbn [app map fetch_peers].
    rewrite (read_int64_prefixed peer (Z.of_nat (length body)) (body ++ rest)); [|lia|exact Hin].
    unfold drains. rewrite Hfs. cbn [negb fst read_limited with_inbox inbox].
    rewrite Nat2Z.id.
    rewrite take_app_length, drop_app_length.
    unfold WriteDecrypt. rewrite Hfs, Hdec.
    reflexivity.
  - cbn [app map fetch_peers fst snd]. cbn in Hp.
    rewrite read_int64_short by exact Hp.
    destruct (IH (Some (PlainError "unexpected EOF"))) as (le & ->).
    now exists le.
Qed.

Lemma timeout_not_reached (t d timeout : Z) :
  0 <= d < timeout -> (t + timeout <=? t + Z.max 0 d) = false.
Proof. intros Hd. apply Z.leb_gt. lia. Qed.

(** One call of [fetchFileFromNetwork] when a peer answers. *)
Lemma fetchFileFromNetwork_first_responder (s : FileServer) (key : string)
      (pre post : list (string * Peer)) (addr : string) (peer : Peer)
      (body rest plain : bytes) :
  failing (store_ s) = false ->
  peers s = pre ++ (addr, peer) :: post ->
  delivers peer 2 = true ->
  Forall (fun ap => (length (inbox ap.2) < 8)%nat) pre ->
  inbox peer = put_int64 (Z.of_nat (length body)) ++ body ++ rest ->
  Z.of_nat (length body) < 2 ^ 63 ->
  crypto.decrypt (EncKey s) body = inl plain ->
  let buf := gobEncode {| Payload_ := GetFile {| gf_ID := ID s; gf_Key := hashKey key |} |} in
  fetchFileFromNetwork s key
  = (with_store
       (with_peers
          (with_wall s (wall s + 500 * retry.Millisecond))
          (map (fun ap => (ap.1, with_inbox (announce buf ap.2) [])) pre
             ++ (addr, CloseStream (with_inbox (announce buf peer) rest))
             :: map (fun ap => (ap.1, announce buf ap.2)) post))
       (with_files (store_ s) (<[(ID s, key) := plain]> (files (store_ s)))),
     None).
Proof.
  intros Hfs Hps Hd Hpre Hin Hlen Hdec buf.
  unfold fetchFileFromNetwork.
  rewrite Hps at 1. rewrite length_app. cbn [length].
  replace (length pre + S (length post) =? 0)%nat with false
    by (symmetry; apply Nat.eqb_neq; lia).
  fold buf.
  destruct (broadcast_spec s {| Payload_ := GetFile {| gf_ID := ID s; gf_Key := hashKey key |} |})
    as (le & Hb).
  rewrite Hb. fold buf.
  replace (forallb (fun ap : string * Peer => negb (delivers ap.2 2)) (peers s)) with false.
  2:{ symmetry. rewrite Hps, forallb_app. cbn [forallb snd]. rewrite Hd.
      cbn [negb andb]. apply andb_false_r. }
  cbn [andb].
  unfold select_done_after, WithTimeout.
  cbn [Background cancelled deadline now elapse FileServer_Clock wall with_peers].
  rewrite timeout_not_reached by (unfold retry.Second, retry.Millisecond; lia).
  cbn [peers with_peers with_wall EncKey ID store_].
  rewrite Hps, map_app. cbn [map fst snd].
  edestruct (fetch_peers_first_responder (EncKey s) (ID s) key
               (map (fun ap : string * Peer => (ap.1, announce buf ap.2)) pre)
               (map (fun ap : string * Peer => (ap.1, announce buf ap.2)) post)
               addr (announce buf peer) (store_ s) body rest plain Hfs)
    as (le' & Hrun).
  - apply Forall_map. eapply Forall_impl; [exact Hpre|].
    intros [a p] Hp. cbn in *. now rewrite (proj1 (announce_inbox buf p)).
  - rewrite (proj1 (announce_inbox buf peer)). exact Hin.
  - exact Hlen.
  - exact Hdec.
  - rewrite Hrun. rewrite map_map. cbn [fst snd].
    rewrite Z.max_r by (unfold retry.Millisecond; lia).
    reflexivity.
Qed.

(** [Get] on a local miss when a peer answers: the first attempt of the
    retry succeeds. *)
Lemma Get_first_responder (s : FileServer) (key : string)
        (pre post : list (string * Peer)) (addr : string) (peer : Peer)
        (body rest plain : bytes) :
  Has (store_ s) (ID s) key = false ->
  failing (store_ s) = false ->
  peers s = pre ++ (addr, peer) :: post ->
  delivers peer 2 = true ->
  Forall (fun ap => (length (inbox ap.2) < 8)%nat) pre ->
  inbox peer = put_int64 (Z.of_nat (length body)) ++ body ++ rest ->
  Z.of_nat (length body) < 2 ^ 63 ->
  crypto.decrypt (EncKey s) body = inl plain ->
  let buf := gobEncode {| Payload_ := GetFile {| gf_ID := ID s; gf_Key := hashKey key |} |} in
  exists s',
    Get s key = (s', inl plain)
    /\ wall s' = wall s + 500 * retry.Millisecond
    /\ files (store_ s') !! (ID s, key) = Some plain
    /\ peers s'
       = map (fun ap => (ap.1, with_inbox (announce buf ap.2) [])) pre
           ++ (addr, CloseStream (with_inbox (announce buf peer) rest))
           :: map (fun ap => (ap.1, announce buf ap.2)) post
    /\ sent (announce buf peer) = sent peer ++ [IncomingMessage] ++ buf
    /\ in_flight (CloseStream (with_inbox (announce buf peer) rest)) = in_flight peer - 1.
Proof.
  intros Hmiss Hfs Hps Hd Hpre Hin Hlen Hdec buf.
  unfold Get. rewrite Hmiss.
  unfold retry.DoSimple, retry.DoWithTimeout, retry.Do.
  change (Z.to_nat (retry.MaxAttempts retry.DefaultRetryConfig)) with 3%nat.
  cbn [retry.Do_loop].
  replace (Done (WithTimeout Background (30 * retry.Second) s) s) with false.
  2:{ symmetry. unfold Done, WithTimeout.
      cbn [Background cancelled deadline now FileServer_Clock orb].
      apply Z.leb_gt. unfold retry.Second, retry.Millisecond. lia. }
  rewrite (fetchFileFromNetwork_first_responder s key pre post addr peer body rest plain
             Hfs Hps Hd Hpre Hin Hlen Hdec).
  fold buf.
  unfold Read. cbn [store_ with_store with_files failing files ID with_peers with_wall].
  rewrite Hfs, lookup_insert_eq.
  eexists. split; [reflexivity|].
  cbn [wall store_ peers with_store with_peers with_wall files with_files].
  split; [reflexivity|]. split; [apply lookup_insert_eq|]. split; [reflexivity|].
  destruct (announce_delivers buf peer 0 Hd) as (Hs & _ & Hf & _).
  split; [exact Hs|].
  unfold CloseStream, with_inbox. cbn [in_flight]. now rewrite Hf.
Qed.

(** C6: on a local miss, [Get] broadcasts [GetFile] (every peer is announced
    to), waits 500 ms, and visits the peers in turn.  It passes the peers
    that send no size; from the first peer that sends a little-endian int64
    size and that many bytes which decrypt, it takes the size and exactly
    these bytes, writes their decryption to the local store, calls
    [CloseStream] on that peer, and returns; the peers behind are not read
    from.  The reader that [Get] returns yields the decrypted bytes. *)
Theorem Get_fetches_from_first_responder (s : FileServer) (key : string)
        (pre post : list (string * Peer)) (addr : string) (peer : Peer)
        (body rest plain : bytes) :
  Has (store_ s) (ID s) key = false ->
  failing (store_ s) = false ->
  peers s = pre ++ (addr, peer) :: post ->
  delivers peer 2 = true ->
  Forall (fun ap => (length (inbox ap.2) < 8)%nat) pre ->
  inbox peer = put_int64 (Z.of_nat (length body)) ++ body ++ rest ->
  Z.of_nat (length body) < 2 ^ 63 ->
  crypto.decrypt (EncKey s) body = inl plain ->
  let buf := gobEncode {| Payload_ := GetFile {| gf_ID := ID s; gf_Key := hashKey key |} |} in
  exists s',
    Get s key = (s', inl plain)
    /\ wall s' = wall s + 500 * retry.Millisecond
    /\ files (store_ s') !! (ID s, key) = Some plain
    /\ peers s'
       = map (fun ap => (ap.1, with_inbox (announce buf ap.2) [])) pre
           ++ (addr, CloseStream (with_inbox (announce buf peer) rest))
           :: map (fun ap => (ap.1, announce buf ap.2)) post
    /\ sent (announce buf peer) = sent peer ++ [IncomingMessage] ++ buf
    /\ in_flight (CloseStream (with_inbox (announce buf peer) rest)) = in_flight peer - 1.
Proof.
  intros Hmiss Hfs Hps Hd Hpre Hin Hlen Hdec.
  exact (Get_first_responder s key pre post addr peer body rest plain
           Hmiss Hfs Hps Hd Hpre Hin Hlen Hdec).
Qed.

End FetchFacts.

(** ** A file that goes to a peer and comes back *)

Section RoundTripFacts.
Context `{Primitives}.
Import errors store p2p server network.

(** [Store] on sound connections. *)
Lemma Store_healthy (s : FileServer) (key : string) (r : bytes) :
  failing (store_ s) = false ->
  peers s <> [] ->
  Forall (fun ap => budget ap.2 = None) (peers s) ->
  Z.of_nat (length r) + 16 < 2 ^ 63 ->
  let msg := {| Payload_ :=
                  StoreFile {| sf_ID := ID s; sf_Key := hashKey key;
                               sf_Size := Z.of_nat (length r) + 16 |} |} in
  let iv := map (entropy s) (seq (drawn s) crypto.ivSize) in
  exists s',
    Store s key r = (s', None)
    /\ peers s'
       = map (fun ap =>
                (ap.1, with_sent ap.2
                         (sent ap.2 ++ [IncomingMessage] ++ gobEncode msg
                            ++ [IncomingStream] ++ crypto.encrypt (EncKey s) iv r)))
             (peers s)
    /\ store_ s' = with_files (store_ s) (<[(ID s, key) := r]> (files (store_ s)))
    /\ ID s' = ID s /\ EncKey s' = EncKey s /\ quitch s' = quitch s.
Proof.
  intros Hfs Hne Hh Hsize msg iv.
  rewrite (Store_steps s key r Hfs Hne).
  rewrite (int64_id (Z.of_nat (length r) + 16)) by lia. fold msg.
  set (s1 := elapse _ _).
  assert (Hps1 : peers s1 = map (fun ap => (ap.1, announce (gobEncode msg) ap.2)) (peers s))
    by reflexivity.
  assert (Hh1 : Forall (fun ap : string * Peer => budget ap.2 = None) (peers s1)).
  { rewrite Hps1. apply Forall_map. eapply Forall_impl; [exact Hh|].
    intros [a q] Hq. cbn in *. now rewrite announce_healthy. }
  assert (Hne1 : peers s1 <> []).
  { rewrite Hps1. destruct (peers s); [contradiction|discriminate]. }
  rewrite (replicateTopeers_healthy s1 key r Hne1 Hh1).
  eexists. split; [reflexivity|].
  cbn [peers store_ ID EncKey quitch with_drawn with_peers].
  split; [|now repeat split].
  rewrite Hps1, map_map.
  apply map_ext_in. intros [a q] Hin. cbn [fst snd].
  assert (Hq : budget q = None).
  { rewrite Forall_forall in Hh. apply (Hh (a, q)). now apply list_elem_of_In. }
  rewrite announce_healthy by exact Hq.
  unfold with_sent. cbn [sent inbox budget in_flight].
  f_equal. f_equal. now rewrite <- !app_assoc.
Qed.

Lemma read_frames_drained (fuel : nat) (from : string) (p : Peer) :
  inbox p = [] -> read_frames fuel from p = (p, []).
Proof.
  intros Hin. destruct fuel as [|fuel]; [reflexivity|].
  cbn [read_frames]. unfold read_frame. now rewrite Hin.
Qed.

Lemma read_frame_message (from : string) (p : Peer) (m : Message) (rest : bytes) :
  gob_round_trip ->
  wf_message m ->
  inbox p = [IncomingMessage] ++ gobEncode m ++ rest ->
  read_frame from p
  = (with_inbox p rest,
     Some {| From_ := from; Payload := gobEncode m; Stream := false |}).
Proof.
  intros Hgob Hwf Hin. unfold read_frame. rewrite Hin.
  cbn [app]. change (Byte.eqb IncomingMessage IncomingStream) with false.
  change (Byte.eqb IncomingMessage IncomingMessage) with true. cbn iota.
  rewrite (Hgob m rest Hwf).
  rewrite length_app.
  replace (length (gobEncode m) + length rest - length rest)%nat
    with (length (gobEncode m)) by lia.
  now rewrite take_app_length.
Qed.

Lemma read_frame_stream (from : string) (p : Peer) (rest : bytes) :
  inbox p = [IncomingStream] ++ rest ->
  read_frame from p
  = ({| sent := sent p; inbox := rest; budget := budget p; in_flight := in_flight p + 1 |},
     Some {| From_ := from; Payload := []; Stream := true |}).
Proof. intros Hin. unfold read_frame. now rewrite Hin. Qed.

Lemma gobDecode_whole (m : Message) :
  gob_round_trip -> wf_message m -> gobDecode (gobEncode m) = Some (m, []).
Proof.
  intros Hgob Hwf. rewrite <- (app_nil_r (gobEncode m)) at 1. now apply Hgob.
Qed.

(** A node that receives the announcement of a file and the stream behind
    it keeps the stream, as it is, under the ID and the key of the
    announcement. *)
Lemma receive_StoreFile (b : FileServer) (from : string) (link : Peer)
      (msg : MessageStoreFile) (stream : bytes) :
  gob_round_trip ->
  peer_lookup (peers b) from = Some link ->
  inbox link = [] ->
  quitch b = false ->
  failing (store_ b) = false ->
  sf_Size msg = Z.of_nat (length stream) ->
  sf_Size msg < 2 ^ 63 ->
  receive from ([IncomingMessage] ++ gobEncode {| Payload_ := StoreFile msg |}
                  ++ [IncomingStream] ++ stream) b
  = with_peers
      (with_store b
         (with_files (store_ b) (<[(sf_ID msg, sf_Key msg) := stream]> (files (store_ b)))))
      (peer_store (peers b) from
         {| sent := sent link; inbox := []; budget := budget link;
            in_flight := in_flight link + 1 - 1 |}).
Proof.
  intros Hgob Hlink Hin Hq Hfs Hsize Hmax.
  assert (Hwf : wf_message {| Payload_ := StoreFile msg |}) by (cbn; lia).
  unfold receive. rewrite Hlink, Hin. cbn [app with_inbox inbox length].
  cbn [read_frames].
  rewrite (read_frame_message from _ {| Payload_ := StoreFile msg |}
             ([IncomingStream] ++ stream) Hgob Hwf) by reflexivity.
  cbn [Stream].
  destruct (length (gobEncode {| Payload_ := StoreFile msg |} ++ IncomingStream :: stream))
    as [|fuel] eqn:Hlen.
  { rewrite length_app in Hlen. cbn in Hlen. lia. }
  cbn [read_frames].
  rewrite (read_frame_stream from _ stream) by reflexivity.
  cbn [Stream].
  cbn [loop Payload From_ with_peers quitch]. rewrite Hq. cbn [andb].
  rewrite (gobDecode_whole _ Hgob Hwf).
  unfold handleMessage. cbn [Payload_].
  erewrite handleMessageStoreFile_run;
    [|cbn [peers with_peers]; apply peer_lookup_store|exact Hfs].
  cbn [inbox sent budget in_flight with_inbox CloseStream peers store_ with_peers
       with_store quitch].
  rewrite Hq. rewrite Hsize, Nat2Z.id, firstn_all, drop_all.
  rewrite peer_store_store. reflexivity.
Qed.

(** What [handleMessageGetFile] comes to when the file is there and the
    connection to the requester is sound. *)
Lemma handleMessageGetFile_serves (s : FileServer) (from : string)
      (msg : MessageGetFile) (peer : Peer) (content : bytes) :
  files (store_ s) !! (gf_ID msg, gf_Key msg) = Some content ->
  failing (store_ s) = false ->
  peer_lookup (peers s) from = Some peer ->
  budget peer = None ->
  handleMessageGetFile s from msg
  = (with_peers s
       (peer_store (peers s) from
          (with_sent peer
             (sent peer ++ [IncomingStream] ++ put_int64 (Z.of_nat (length content))
                ++ content))),
     None).
Proof.
  intros Hfile Hfs Hpeer Hb.
  unfold handleMessageGetFile, Has, Read. rewrite Hfile, Hfs.
  rewrite bool_decide_eq_true_2 by eauto. cbn [negb].
  rewrite Hpeer.
  rewrite Send_healthy by exact Hb.
  rewrite Send_healthy by exact Hb.
  destruct content as [|c content].
  - cbn [with_sent sent]. do 3 f_equal. unfold with_sent. cbn [sent inbox budget in_flight].
    now rewrite ?app_nil_r, <- ?app_assoc.
  - rewrite Send_healthy by exact Hb.
    cbn [with_sent sent]. do 3 f_equal. unfold with_sent. cbn [sent inbox budget in_flight].
    now rewrite <- !app_assoc.
Qed.

(** A node that receives a request for a file that it holds answers with
    the stream header, the size, and the file as it is. *)
Lemma receive_GetFile (b : FileServer) (from : string) (link : Peer)
      (msg : MessageGetFile) (content : bytes) :
  gob_round_trip ->
  peer_lookup (peers b) from = Some link ->
  inbox link = [] ->
  budget link = None ->
  quitch b = false ->
  failing (store_ b) = false ->
  files (store_ b) !! (gf_ID msg, gf_Key msg) = Some content ->
  sent_to from (receive from ([IncomingMessage] ++ gobEncode {| Payload_ := GetFile msg |}) b)
  = sent link ++ [IncomingStream] ++ put_int64 (Z.of_nat (length content)) ++ content.
Proof.
  intros Hgob Hlink Hin Hb Hq Hfs Hfile.
  assert (Hwf : wf_message {| Payload_ := GetFile msg |}) by exact I.
  unfold receive. rewrite Hlink, Hin. cbn [app with_inbox inbox length].
  cbn [read_frames].
  rewrite (read_frame_message from _ {| Payload_ := GetFile msg |} [] Hgob Hwf)
    by (cbn [app inbox]; now rewrite app_nil_r).
  cbn [Stream].
  rewrite read_frames_drained by reflexivity.
  cbn [loop Payload From_ with_peers quitch]. rewrite Hq. cbn [andb].
  rewrite (gobDecode_whole _ Hgob Hwf).
  unfold handleMessage. cbn [Payload_].
  erewrite handleMessageGetFile_serves;
    [|exact Hfile|exact Hfs|cbn [peers with_peers]; apply peer_lookup_store|exact Hb].
  cbn [quitch with_peers]. rewrite Hq.
  unfold sent_to. cbn [peers with_peers].
  rewrite peer_store_store, peer_lookup_store. reflexivity.
Qed.

(** A node that receives the header of a stream leaves what follows it in
    the inbox of the peer. *)
Lemma receive_stream (a : FileServer) (from : string) (link : Peer) (payload : bytes) :
  peer_lookup (peers a) from = Some link ->
  inbox link = [] ->
  let a' := receive from ([IncomingStream] ++ payload) a in
  peers a' = peer_store (peers a) from
               {| sent := sent link; inbox := payload; budget := budget link;
                  in_flight := in_flight link + 1 |}
  /\ store_ a' = store_ a /\ ID a' = ID a /\ EncKey a' = EncKey a.
Proof.
  intros Hlink Hin. cbv zeta.
  unfold receive. rewrite Hlink, Hin. cbn [app with_inbox inbox length].
  cbn [read_frames].
  rewrite (read_frame_stream from _ payload) by reflexivity.
  cbn [Stream loop].
  destruct (quitch _); now repeat split.
Qed.

(** A node [a] stores a file while connected to one peer [b], and [b]
    receives what was sent.  A requester [c] that has the ID and the key of
    [a], and not the file, asks for it; [b] answers, and [c] reads the
    answer: [Get] returns the bytes that [Store] wrote locally on [a], and
    what [Get] sent is the request that [b] answered. *)
Lemma replicated_file_comes_back (a b c : FileServer) (pa pb pc pb' key : string)
      (r : bytes) (linkA linkB linkC linkB' : Peer) :
  gob_round_trip ->
  failing (store_ a) = false ->
  peers a = [(pb, linkB)] -> budget linkB = None ->
  failing (store_ b) = false -> quitch b = false ->
  peer_lookup (peers b) pa = Some linkA -> budget linkA = None -> inbox linkA = [] ->
  peer_lookup (peers b) pc = Some linkC -> budget linkC = None -> inbox linkC = [] ->
  ID c = ID a -> EncKey c = EncKey a ->
  Has (store_ c) (ID c) key = false -> failing (store_ c) = false ->
  peers c = [(pb', linkB')] -> budget linkB' = None -> inbox linkB' = [] ->
  Z.of_nat (length r) + 16 < 2 ^ 63 ->
  let a1 := fst (Store a key r) in
  let b1 := receive pa (sent_since a pb a1) b in
  let request :=
    [IncomingMessage]
      ++ gobEncode {| Payload_ := GetFile {| gf_ID := ID c; gf_Key := hashKey key |} |} in
  let b2 := receive pc request b1 in
  let c1 := receive pb' (sent_since b1 pc b2) c in
  files (store_ a1) !! (ID a, key) = Some r
  /\ Has (store_ c1) (ID c1) key = false
  /\ exists c2, Get c1 key = (c2, inl r) /\ sent_since c1 pb' c2 = request.
Proof.
  intros Hgob HfsA HpsA HbB HfsB HqB HlinkA HbA HiA HlinkC HbC HiC
         HidC HkeyC HmissC HfsC HpsC HbB' HiB' Hsize a1 b1 request b2 c1.
  set (iv := map (entropy a) (seq (drawn a) crypto.ivSize)).
  set (stream := crypto.encrypt (EncKey a) iv r).
  set (sf := {| sf_ID := ID a; sf_Key := hashKey key;
                sf_Size := Z.of_nat (length r) + 16 |}).
  assert (Hlen : Z.of_nat (length stream) = Z.of_nat (length r) + 16).
  { subst stream iv. rewrite length_encrypt, length_map, length_seq.
    unfold crypto.ivSize. lia. }
  (* the store on [a] *)
  destruct (Store_healthy a key r HfsA) as (a1' & Hrun & Hps1 & Hst1 & _).
  { rewrite HpsA. discriminate. }
  { rewrite HpsA. repeat constructor. exact HbB. }
  { exact Hsize. }
  assert (Ha1 : a1 = a1') by (subst a1; now rewrite Hrun).
  rewrite <- Ha1 in *. clear Ha1 a1' Hrun.
  rewrite HpsA in Hps1. cbn [map fst snd] in Hps1. fold iv stream sf in Hps1.
  (* what [b] receives *)
  assert (Hwire : sent_since a pb a1
                  = [IncomingMessage] ++ gobEncode {| Payload_ := StoreFile sf |}
                      ++ [IncomingStream] ++ stream).
  { unfold sent_since, sent_to. rewrite HpsA, Hps1. cbn [peer_lookup].
    rewrite String.eqb_refl. cbn [with_sent sent]. apply drop_app_length. }
  set (linkA1 := {| sent := sent linkA; inbox := []; budget := budget linkA;
                    in_flight := in_flight linkA + 1 - 1 |}).
  assert (Hb1 : b1 = with_peers
                       (with_store b
                          (with_files (store_ b)
                             (<[(ID a, hashKey key) := stream]> (files (store_ b)))))
                       (peer_store (peers b) pa linkA1)).
  { subst b1. rewrite Hwire.
    apply (receive_StoreFile b pa linkA sf stream Hgob HlinkA HiA HqB HfsB).
    - unfold sf. cbn [sf_Size]. lia.
    - unfold sf. cbn [sf_Size]. lia. }
  (* the connection of [b] to the requester *)
  assert (Hlink1 : exists l, peer_lookup (peers b1) pc = Some l
                             /\ inbox l = [] /\ budget l = None).
  { rewrite Hb1. cbn [peers with_peers].
    destruct (String.eqb_spec pa pc) as [<-|Hne].
    - exists linkA1. rewrite peer_lookup_store. now repeat split.
    - exists linkC. rewrite peer_lookup_store_other by exact Hne. now repeat split. }
  destruct Hlink1 as (l & Hl & Hil & Hbl).
  (* what [b] answers *)
  assert (Hanswer : sent_since b1 pc b2
                    = [IncomingStream] ++ put_int64 (Z.of_nat (length stream)) ++ stream).
  { unfold sent_since. subst b2 request.
    rewrite (receive_GetFile b1 pc l
               {| gf_ID := ID c; gf_Key := hashKey key |} stream Hgob Hl Hil Hbl).
    - unfold sent_to at 1. rewrite Hl. apply drop_app_length.
    - rewrite Hb1. exact HqB.
    - rewrite Hb1. exact HfsB.
    - rewrite Hb1. cbn [gf_ID gf_Key store_ with_peers with_store files with_files].
      rewrite HidC. apply lookup_insert_eq. }
  (* what the requester reads *)
  set (linkB3 := {| sent := sent linkB';
                    inbox := put_int64 (Z.of_nat (length stream)) ++ stream;
                    budget := budget linkB'; in_flight := in_flight linkB' + 1 |}).
  destruct (receive_stream c pb' linkB' (put_int64 (Z.of_nat (length stream)) ++ stream))
    as (Hps3 & Hst3 & Hid3 & Hkey3).
  { rewrite HpsC. cbn [peer_lookup]. now rewrite String.eqb_refl. }
  { exact HiB'. }
  rewrite <- Hanswer in Hps3, Hst3, Hid3, Hkey3. fold c1 in Hps3, Hst3, Hid3, Hkey3.
  assert (Hps3' : peers c1 = [] ++ (pb', linkB3) :: []).
  { rewrite Hps3, HpsC. cbn [peer_store]. now rewrite String.eqb_refl. }
  assert (Hmiss : Has (store_ c1) (ID c1) key = false).
  { now rewrite Hst3, Hid3. }
  split; [rewrite Hst1; cbn; apply lookup_insert_eq|].
  split; [exact Hmiss|].
  destruct (Get_first_responder c1 key [] [] pb' linkB3 stream [] r)
    as (c2 & Hget & _ & _ & Hps4 & Hsent & _).
  - exact Hmiss.
  - now rewrite Hst3.
  - exact Hps3'.
  - unfold delivers. subst linkB3. cbn [budget]. now rewrite HbB'.
  - constructor.
  - subst linkB3. cbn [inbox]. now rewrite app_nil_r.
  - lia.
  - rewrite Hkey3, HkeyC. subst stream. apply decrypt_encrypt.
    subst iv. now rewrite length_map, length_seq.
  - exists c2. split; [exact Hget|].
    unfold sent_since, sent_to. rewrite Hps3', Hps4. cbn [app map peer_lookup].
    rewrite String.eqb_refl. unfold CloseStream, with_inbox. cbn [sent].
    rewrite Hsent. rewrite drop_app_length.
    subst request. now rewrite Hid3.
Qed.


End RoundTripFacts.

(** ** The concrete instance *)

Section SampleFacts.
Import sample.

Lemma decode_length_encoded (n : nat) (rest : bytes) :
  decode_length (repeat x01 n ++ x00 :: rest) = Some (n, rest).
Proof.
  induction n as [|n IH]; [reflexivity|].
  cbn [repeat app decode_length]. rewrite IH. reflexivity.
Qed.

Lemma decode_encode_string (s : string) (rest : bytes) :
  decode_string (encode_string s ++ rest) = Some (s, rest).
Proof.
  unfold decode_string, encode_string.
  rewrite <- app_assoc. cbn [app]. rewrite decode_length_encoded.
  rewrite length_app.
  destruct (Nat.ltb_spec (length (String.list_byte_of_string s) + length rest)
                         (length (String.list_byte_of_string s))); [lia|].
  rewrite take_app_length, drop_app_length.
  now rewrite String.string_of_list_byte_of_string.
Qed.

(** The format of the instance is self-delimiting, as [gob] is. *)
Lemma sample_gob_round_trip : @gob_round_trip primitives.
Proof.
  intros [[v|v|]] rest Hwf; [| |destruct Hwf].
  - destruct v as [id key size]. cbn in Hwf.
    cbn [gobEncode gobDecode primitives]. unfold encode, decode.
    cbn [Payload_ sf_ID sf_Key sf_Size app].
    change (Byte.eqb x01 x00) with false. cbn iota.
    rewrite <- !app_assoc.
    rewrite decode_encode_string, decode_encode_string.
    change (Byte.eqb x01 x02) with false. change (Byte.eqb x01 x01) with true. cbn iota.
    rewrite length_app, length_put_int64.
    destruct (Nat.ltb_spec (8 + length rest) 8); [lia|].
    rewrite take_app_length' by (symmetry; apply length_put_int64).
    rewrite drop_app_length' by (symmetry; apply length_put_int64).
    now rewrite get_put_int64.
  - destruct v as [id key].
    cbn [gobEncode gobDecode primitives]. unfold encode, decode.
    cbn [Payload_ gf_ID gf_Key app].
    change (Byte.eqb x02 x00) with false. cbn iota.
    rewrite <- !app_assoc.
    rewrite decode_encode_string, decode_encode_string.
    reflexivity.
Qed.

End SampleFacts.

(** * Further properties *)

(** ** Package retry: exhaustion, bounds, contexts *)

Section RetryMore.
Import errors retry.

Lemma Do_loop_exhausts (config : RetryConfig) (outcome : nat -> option error) :
  forall (m : nat) (attempt delay : Z) (lastErr : option error) (p : Probe),
    attempt + Z.of_nat m = MaxAttempts config ->
    (forall k, (k <= m)%nat ->
               exists e, outcome (calls p + k)%nat = Some e /\ IsRetryable e = true) ->
    exists p',
      Do_loop Background config (scripted outcome) (S m) attempt delay lastErr p
      = (p', outcome (calls p + m)%nat)
      /\ calls p' = (calls p + S m)%nat.
Proof.
  induction m as [|m IH]; intros attempt delay lastErr p Hatt Hfail.
  - destruct (Hfail O ltac:(lia)) as (e & He & Hretry).
    rewrite Nat.add_0_r in *.
    cbn [Do_loop]. cbn [Done Background cancelled deadline orb scripted].
    rewrite He, Hretry. cbn [negb].
    replace (attempt =? MaxAttempts config) with true by (symmetry; apply Z.eqb_eq; lia).
    eexists. split; [reflexivity|]. cbn. lia.
  - destruct (Hfail O ltac:(lia)) as (e & He & Hretry).
    rewrite Nat.add_0_r in He.
    cbn [Do_loop]. cbn [Done Background cancelled deadline orb scripted].
    rewrite He, Hretry. cbn [negb].
    destruct (Z.eqb_spec attempt (MaxAttempts config)) as [Heq|_]; [lia|].
    cbn [select_done_after Background cancelled deadline].
    edestruct (IH (attempt + 1)
                 (next_delay config delay
                    (now (elapse (Z.max 0 delay) {| calls := S (calls p); clock := clock p |})))
                 (Some e)
                 (elapse (Z.max 0 delay) {| calls := S (calls p); clock := clock p |}))
      as (p' & Hrun & Hcalls).
    + lia.
    + intros k Hk. cbn. destruct (Hfail (S k) ltac:(lia)) as (e' & He' & Hr').
      exists e'. split; [|exact Hr']. rewrite <- He'. f_equal. lia.
    + exists p'. split.
      * etransitivity; [exact Hrun|]. cbn. f_equal. f_equal. lia.
      * rewrite Hcalls. cbn. lia.
Qed.

(** X1: a closure that fails with a retryable error on each of [n] invocations
    is invoked exactly [n = MaxAttempts >= 1] times under a context that is
    never done, and [Do] returns the error of the last invocation. *)
Theorem retry_Do_exhausts (config : RetryConfig) (n : nat)
        (outcome : nat -> option error) (p : Probe) :
  (1 <= n)%nat ->
  MaxAttempts config = Z.of_nat n ->
  (forall k, (k < n)%nat ->
             exists e, outcome (calls p + k)%nat = Some e /\ IsRetryable e = true) ->
  exists p' e,
    Do Background config (scripted outcome) p = (p', Some e)
    /\ outcome (calls p + (n - 1))%nat = Some e
    /\ calls p' = (calls p + n)%nat.
Proof.
  intros Hn Hmax Hfail. unfold Do. rewrite Hmax, Nat2Z.id.
  destruct n as [|m]; [lia|].
  replace (S m - 1)%nat with m by lia.
  destruct (Do_loop_exhausts config outcome m 1 (InitialDelay config) None p)
    as (p' & Hrun & Hcalls).
  - lia.
  - intros k Hk. apply Hfail. lia.
  - destruct (Hfail m ltac:(lia)) as (e & He & _).
    exists p', e. rewrite Hrun, He. now repeat split.
Qed.

Lemma select_done_after_calls (ctx : Context) (d : Z) (p : Probe) :
  calls (fst (select_done_after ctx d p)) = calls p.
Proof.
  unfold select_done_after. destruct (cancelled ctx); [reflexivity|].
  destruct (deadline ctx) as [dl|]; [|reflexivity].
  destruct (dl <=? now p + Z.max 0 d); reflexivity.
Qed.

Lemma Do_loop_calls_bound (ctx : Context) (config : RetryConfig)
      (outcome : nat -> option error) :
  forall (fuel : nat) (attempt delay : Z) (lastErr : option error) (p : Probe),
    (calls p <= calls (fst (Do_loop ctx config (scripted outcome) fuel attempt delay lastErr p))
     <= calls p + fuel)%nat.
Proof.
  induction fuel as [|fuel IH]; intros attempt delay lastErr p.
  - cbn. lia.
  - cbn [Do_loop]. destruct (Done ctx p); [cbn; lia|].
    cbn [scripted]. destruct (outcome (calls p)) as [e|]; [|cbn; lia].
    destruct (negb (IsRetryable e)); [cbn; lia|].
    destruct (attempt =? MaxAttempts config); [cbn; lia|].
    pose proof (select_done_after_calls ctx delay
                  {| calls := S (calls p); clock := clock p |}) as Hsel.
    destruct (select_done_after ctx delay {| calls := S (calls p); clock := clock p |})
      as [p1 stop]. cbn [fst] in Hsel. cbn [calls] in Hsel.
    destruct stop; [cbn; lia|].
    specialize (IH (attempt + 1) (next_delay config delay (now p1)) (Some e) p1).
    lia.
Qed.

(** X2: whatever the closure returns and whatever the context does, [Do]
    invokes the closure at most [MaxAttempts] times (not at all when
    [MaxAttempts <= 0]). *)
Theorem retry_Do_never_exceeds_MaxAttempts (ctx : Context) (config : RetryConfig)
        (outcome : nat -> option error) (p : Probe) :
  (calls p <= calls (fst (Do ctx config (scripted outcome) p))
   <= calls p + Z.to_nat (MaxAttempts config))%nat.
Proof. unfold Do. apply Do_loop_calls_bound. Qed.

(** X3: when the context is already done, [Do] returns the error of the
    context without invoking the closure at all, for every closure and
    every world. *)
Theorem retry_Do_under_done_context {W : Type} `{Clock W} (ctx : Context)
        (config : RetryConfig) (fn : W -> W * option error) (w : W) :
  Done ctx w = true ->
  1 <= MaxAttempts config ->
  Do ctx config fn w = (w, Some (Err ctx)).
Proof.
  intros Hdone Hmax. unfold Do.
  destruct (Z.to_nat (MaxAttempts config)) as [|fuel] eqn:Hfuel; [lia|].
  cbn [Do_loop]. now rewrite Hdone.
Qed.

(** X4: a deadline that falls into the wait after the first failed attempt
    ends [Do] at the deadline: the closure has been invoked once, the clock
    stands at the deadline and not later, and the error is that of the
    context, not that of the closure. *)
Theorem retry_Do_deadline_during_backoff (config : RetryConfig) (dl : Z)
        (outcome : nat -> option error) (e : error) (p : Probe) :
  2 <= MaxAttempts config ->
  clock p < dl <= clock p + InitialDelay config ->
  outcome (calls p) = Some e ->
  IsRetryable e = true ->
  Do {| cancelled := false; deadline := Some dl |} config (scripted outcome) p
  = ({| calls := S (calls p); clock := dl |},
     Some (PlainError "context deadline exceeded")).
Proof.
  intros Hmax Hdl He Hretry. unfold Do.
  destruct (Z.to_nat (MaxAttempts config)) as [|fuel] eqn:Hfuel; [lia|].
  cbn [Do_loop]. unfold Done. cbn [cancelled deadline orb now Probe_Clock].
  replace (dl <=? clock p) with false by (symmetry; apply Z.leb_gt; lia).
  cbn [scripted]. rewrite He, Hretry. cbn [negb].
  destruct (Z.eqb_spec 1 (MaxAttempts config)) as [Heq|_]; [lia|].
  unfold select_done_after. cbn [cancelled deadline now elapse Probe_Clock calls clock].
  replace (dl <=? clock p + Z.max 0 (InitialDelay config)) with true
    by (symmetry; apply Z.leb_le; lia).
  unfold Err. cbn [cancelled]. f_equal. f_equal. lia.
Qed.


Lemma Do_loop_nil_means_success (ctx : Context) (config : RetryConfig)
      (outcome : nat -> option error) :
  forall (fuel : nat) (attempt delay : Z) (lastErr : option error) (p p' : Probe),
    Do_loop ctx config (scripted outcome) fuel attempt delay lastErr p = (p', None) ->
    (fuel = O /\ lastErr = None)
    \/ ((calls p < calls p')%nat /\ outcome (calls p' - 1)%nat = None).
Proof.
  induction fuel as [|fuel IH]; intros attempt delay lastErr p p' Hrun.
  - cbn in Hrun. injection Hrun as _ Hl. left. now split.
  - right. cbn [Do_loop] in Hrun.
    destruct (Done ctx p); [discriminate|].
    cbn [scripted] in Hrun.
    destruct (outcome (calls p)) as [e|] eqn:He.
    + destruct (negb (IsRetryable e)); [discriminate|].
      destruct (attempt =? MaxAttempts config); [discriminate|].
      pose proof (select_done_after_calls ctx delay
                    {| calls := S (calls p); clock := clock p |}) as Hsel.
      destruct (select_done_after ctx delay {| calls := S (calls p); clock := clock p |})
        as [p1 stop]. cbn [fst calls] in Hsel.
      destruct stop; [discriminate|].
      apply IH in Hrun as [[_ Habs]|[Hlt Hok]]; [discriminate|].
      split; [lia|exact Hok].
    + injection Hrun as <-. cbn. split; [lia|].
      now rewrite Nat.sub_0_r.
Qed.

(** X6: [Do] with [MaxAttempts >= 1] returns [nil] only after an invocation
    of the closure that returned [nil]: it is the last invocation made. *)
Theorem retry_Do_nil_means_success (ctx : Context) (config : RetryConfig)
        (outcome : nat -> option error) (p p' : Probe) :
  1 <= MaxAttempts config ->
  Do ctx config (scripted outcome) p = (p', None) ->
  (calls p < calls p')%nat /\ outcome (calls p' - 1)%nat = None.
Proof.
  intros Hmax Hrun. unfold Do in Hrun.
  apply Do_loop_nil_means_success in Hrun as [[Hfuel _]|Hok]; [lia|exact Hok].
Qed.

End RetryMore.

(** ** The file server: broadcast, registry, local reads *)

Section ServerMore.
Context `{Primitives}.
Import errors store p2p server.

Lemma announce_broken (buf : bytes) (p : Peer) :
  delivers p 1 = false -> announce buf p = p.
Proof. intros Hd. unfold announce. now rewrite Send_fails. Qed.

Lemma no_delivery_count (ps : list (string * Peer)) :
  (0 + Z.of_nat (length (filter (fun ap => delivers ap.2 2 = true) ps)) =? 0) = true
  <-> Forall (fun ap => delivers ap.2 2 = false) ps.
Proof.
  induction ps as [|[a p] ps IH].
  - split; [constructor|reflexivity].
  - rewrite filter_cons. cbn [snd].
    destruct (delivers p 2) eqn:Hd.
    + destruct (decide (true = true)) as [_|Habs]; [|now destruct Habs].
      cbn [length]. split.
      * intros Hz. apply Z.eqb_eq in Hz. lia.
      * intros Hall. inversion Hall as [|? ? Hhd _]. cbn in Hhd. congruence.
    + destruct (decide (false = true)) as [Habs|_]; [discriminate|].
      rewrite IH. split.
      * intros Hall. constructor; [exact Hd|exact Hall].
      * intros Hall. now inversion Hall.
Qed.

Lemma delivery_or_none (ps : list (string * Peer)) :
  Forall (fun ap => delivers ap.2 2 = false) ps
  \/ Exists (fun ap => delivers ap.2 2 = true) ps.
Proof.
  induction ps as [|[a p] ps [IH|IH]].
  - left. constructor.
  - destruct (delivers p 2) eqn:Hd.
    + right. now left.
    + left. now constructor.
  - right. now right.
Qed.


Lemma peer_store_length (ps : list (string * Peer)) (addr : string) (p : Peer) :
  length (peer_store ps addr p)
  = match peer_lookup ps addr with
    | Some _ => length ps
    | None => S (length ps)
    end.
Proof.
  induction ps as [|[a q] ps IH]; [reflexivity|].
  cbn [peer_store peer_lookup].
  destruct (String.eqb a addr); [reflexivity|].
  cbn [length]. rewrite IH. now destruct (peer_lookup ps addr).
Qed.

(** X8: [OnPeer] returns [nil] and registers the peer under its address: a
    lookup of that address gives the new peer, every other address is
    looked up as before, and the registry grows by one entry exactly when
    the address was not registered (a peer that reconnects replaces its old
    entry). *)
Theorem OnPeer_registers (s : FileServer) (addr : string) (p : Peer) :
  snd (OnPeer s addr p) = None
  /\ peer_lookup (peers (fst (OnPeer s addr p))) addr = Some p
  /\ (forall other, other <> addr ->
         peer_lookup (peers (fst (OnPeer s addr p))) other = peer_lookup (peers s) other)
  /\ length (peers (fst (OnPeer s addr p)))
     = match peer_lookup (peers s) addr with
       | Some _ => length (peers s)
       | None => S (length (peers s))
       end
  /\ store_ (fst (OnPeer s addr p)) = store_ s.
Proof.
  unfold OnPeer. cbn [fst snd peers with_peers store_].
  split; [reflexivity|]. split; [apply peer_lookup_store|].
  split; [|split; [apply peer_store_length|reflexivity]].
  intros other Hne. apply peer_lookup_store_other. congruence.
Qed.

(** X9: [Get] of a key that the local store holds returns the local bytes
    and nothing else happens: no peer is sent anything, no time passes and
    the store is not written. *)
Theorem Get_local_hit (s : FileServer) (key : string) (content : bytes) :
  files (store_ s) !! (ID s, key) = Some content ->
  failing (store_ s) = false ->
  Get s key = (s, inl content).
Proof.
  intros Hfile Hfs. unfold Get, Has, Read. rewrite Hfile, Hfs.
  now rewrite bool_decide_eq_true_2 by eauto.
Qed.

Lemma broadcast_frame (s : FileServer) (msg : Message) :
  store_ (fst (broadcast s msg)) = store_ s /\ ID (fst (broadcast s msg)) = ID s.
Proof.
  unfold broadcast.
  destruct (broadcast_peers (peers s) (gobEncode msg) None 0) as [[ps le] n].
  destruct (_ && _); now split.
Qed.

Lemma replicateTopeers_ID (s : FileServer) (key : string) (fileBuffer : bytes) :
  ID (fst (replicateTopeers s key fileBuffer)) = ID s.
Proof.
  unfold replicateTopeers.
  destruct (length (peers s) =? 0)%nat; [reflexivity|].
  unfold mw_Write at 1.
  destruct (multi_write (peers s) [IncomingStream]) as [ps1 [e|]]; [reflexivity|].
  unfold draw_iv, crypto.copyEncrypt. unfold mw_Write at 1.
  cbn [peers with_drawn with_peers].
  destruct (multi_write ps1 _) as [ps2 [e|]]; [reflexivity|].
  destruct fileBuffer; [reflexivity|].
  unfold mw_Write. cbn [peers with_drawn with_peers].
  destruct (multi_write ps2 _) as [ps3 [e|]]; reflexivity.
Qed.

(** What [replicateTopeers] may return. *)
Lemma replicateTopeers_error_kind (s : FileServer) (key : string) (fileBuffer : bytes)
      (e : error) :
  snd (replicateTopeers s key fileBuffer) = Some e ->
  GetType e = NetworkError \/ GetType e = EncryptionError.
Proof.
  unfold replicateTopeers.
  destruct (length (peers s) =? 0)%nat; [discriminate|].
  unfold mw_Write at 1.
  destruct (multi_write (peers s) [IncomingStream]) as [ps1 [e1|]].
  - intros [= <-]. now left.
  - unfold draw_iv.
    match goal with
    | |- context [crypto.copyEncrypt ?k ?iv ?src ?w ?d] =>
        destruct (crypto.copyEncrypt k iv src w d) as [[s2 n] [e2|]]
    end.
    + intros [= <-]. now right.
    + discriminate.
Qed.

(** The local file after [Store], whatever becomes of the replication. *)
Lemma Store_writes_locally (s : FileServer) (key : string) (r : bytes) :
  failing (store_ s) = false ->
  store_ (fst (Store s key r))
  = with_files (store_ s) (<[(ID s, key) := r]> (files (store_ s)))
  /\ ID (fst (Store s key r)) = ID s.
Proof.
  intros Hfs. unfold Store, Write. rewrite Hfs.
  cbn [peers with_store]. destruct (length (peers s) =? 0)%nat; [now split|].
  set (msg := {| Payload_ := _ |}). set (s0 := with_store s _).
  pose proof (broadcast_frame s0 msg) as [Hst Hid].
  destruct (broadcast s0 msg) as [s1 e1]. cbn [fst] in Hst, Hid.
  rewrite replicateTopeers_store, replicateTopeers_ID.
  cbn [elapse FileServer_Clock store_ ID with_wall]. now rewrite Hst, Hid.
Qed.

(** X10: after [Store] on a node whose store takes the write, [Get] of the
    same key on that node returns exactly the bytes stored, from the local
    store, whether or not the replication to the peers succeeded. *)
Theorem Store_then_Get (s : FileServer) (key : string) (r : bytes) :
  failing (store_ s) = false ->
  Get (fst (Store s key r)) key = (fst (Store s key r), inl r).
Proof.
  intros Hfs.
  destruct (Store_writes_locally s key r Hfs) as [Hst Hid].
  unfold Get, Has, Read. rewrite Hst, Hid. cbn [files failing with_files].
  rewrite Hfs, lookup_insert_eq.
  now rewrite bool_decide_eq_true_2 by eauto.
Qed.

(** X11: an error from [Store] is of kind Storage, Network or Encryption.
    A Storage error means that the local write failed and nothing else
    happened; with a Network or an Encryption error the replication failed
    and the blob has nevertheless been written to the local store. *)
Theorem Store_error_kinds (s : FileServer) (key : string) (r : bytes) (e : error) :
  snd (Store s key r) = Some e ->
  (GetType e = StorageError /\ fst (Store s key r) = s)
  \/ ((GetType e = NetworkError \/ GetType e = EncryptionError)
      /\ files (store_ (fst (Store s key r))) !! (ID s, key) = Some r).
Proof.
  destruct (failing (store_ s)) eqn:Hfs.
  - unfold Store, Write. rewrite Hfs. intros [= <-]. left. now split.
  - intros He. right. split.
    + revert He. unfold Store, Write. rewrite Hfs.
      cbn [peers with_store]. destruct (length (peers s) =? 0)%nat; [discriminate|].
      destruct (broadcast _ _) as [s1 e1].
      apply replicateTopeers_error_kind.
    + destruct (Store_writes_locally s key r Hfs) as [Hst _].
      rewrite Hst. cbn. apply lookup_insert_eq.
Qed.

End ServerMore.

(** ** The file server: fetching, handlers, loop *)

Section HandlersMore.
Context `{Primitives}.
Import errors store p2p server.

Lemma fetch_peers_silent (encKey : bytes) (id key : string) (st : store.Store) :
  forall (ps : list (string * Peer)) (lastErr : option error),
    ps <> [] ->
    Forall (fun ap => (length (inbox ap.2) < 8)%nat) ps ->
    fetch_peers encKey id key ps st lastErr
    = (map (fun ap => (ap.1, with_inbox ap.2 [])) ps, st,
       Some (PlainError "unexpected EOF"), false).
Proof.
  induction ps as [|[a p] ps IH]; intros lastErr Hne Hall; [contradiction|].
  inversion Hall as [|? ? Hp Hrest]; subst. cbn in Hp.
  cbn [fetch_peers map fst snd]. rewrite read_int64_short by exact Hp.
  destruct ps as [|ap ps'].
  - reflexivity.
  - rewrite IH; [reflexivity|discriminate|exact Hrest].
Qed.


(** X13: the loop over the peers in [fetchFileFromNetwork], on a registry
    that is not empty, either gets the file from a peer or leaves with
    [lastErr] set: the error "no peers provided the requested file" after
    the loop is out of reach. *)
Theorem fetch_peers_sets_lastErr (encKey : bytes) (id key : string) (st : store.Store)
        (ps : list (string * Peer)) (lastErr : option error) :
  ps <> [] ->
  snd (fetch_peers encKey id key ps st lastErr) = true
  \/ snd (fst (fetch_peers encKey id key ps st lastErr)) <> None.
Proof.
  intros Hne.
  assert (Hgen : forall ps st lastErr,
             lastErr <> None \/ ps <> [] ->
             snd (fetch_peers encKey id key ps st lastErr) = true
             \/ snd (fst (fetch_peers encKey id key ps st lastErr)) <> None).
  { clear. induction ps as [|[a p] ps IH]; intros st lastErr Hor.
    - right. cbn. destruct Hor as [Hl|Hn]; [exact Hl|contradiction].
    - cbn [fetch_peers].
      destruct (read_int64 p) as [p1 [fileSize|e]].
      + destruct (WriteDecrypt st encKey id key _) as [[st1 n] [e|]].
        * assert (Hs : Some e <> None \/ ps <> []) by (left; discriminate).
          specialize (IH st1 (Some e) Hs).
          destruct (fetch_peers encKey id key ps st1 (Some e)) as [[[ps' st'] le] ok].
          exact IH.
        * left. reflexivity.
      + assert (Hs : Some e <> None \/ ps <> []) by (left; discriminate).
        specialize (IH st (Some e) Hs).
        destruct (fetch_peers encKey id key ps st (Some e)) as [[[ps' st'] le] ok].
        exact IH. }
  apply Hgen. now right.
Qed.

(** X14: a [GetFile] for a file that the store holds, from a registered peer
    with a sound connection, is answered on that connection with the stream
    kind byte, the size of the file as eight little-endian bytes, and the
    bytes of the file as they are on disk; the handler returns [nil], reads
    nothing, and leaves the store and the other peers as they were.  The
    eight bytes read back as the length of the file. *)
Theorem handleMessageGetFile_response (s : FileServer) (from : string)
        (msg : MessageGetFile) (peer : Peer) (content : bytes) :
  files (store_ s) !! (gf_ID msg, gf_Key msg) = Some content ->
  failing (store_ s) = false ->
  peer_lookup (peers s) from = Some peer ->
  budget peer = None ->
  Z.of_nat (length content) < 2 ^ 63 ->
  let s' := fst (handleMessageGetFile s from msg) in
  snd (handleMessageGetFile s from msg) = None
  /\ (exists peer',
        peer_lookup (peers s') from = Some peer'
        /\ sent peer' = sent peer ++ [IncomingStream]
                          ++ put_int64 (Z.of_nat (length content)) ++ content
        /\ inbox peer' = inbox peer)
  /\ get_int64 (put_int64 (Z.of_nat (length content))) = Z.of_nat (length content)
  /\ store_ s' = store_ s
  /\ forall other, other <> from ->
                   peer_lookup (peers s') other = peer_lookup (peers s) other.
Proof.
  intros Hfile Hfs Hpeer Hb Hlen. cbv zeta.
  rewrite (handleMessageGetFile_serves s from msg peer content Hfile Hfs Hpeer Hb).
  cbn [fst snd peers with_peers store_].
  split; [reflexivity|]. split.
  - eexists. split; [apply peer_lookup_store|]. now split.
  - split; [apply get_put_int64; lia|]. split; [reflexivity|].
    intros other Hne. apply peer_lookup_store_other. congruence.
Qed.

(** X15: a message from an address that is not in the registry is refused
    with a Connection error and changes nothing: [StoreFile] stores no file,
    and [GetFile], for a file that the store holds, sends nothing. *)
Theorem handlers_refuse_unknown_peer (s : FileServer) (from : string)
        (sf : MessageStoreFile) (gf : MessageGetFile) (content : bytes) :
  peer_lookup (peers s) from = None ->
  files (store_ s) !! (gf_ID gf, gf_Key gf) = Some content ->
  failing (store_ s) = false ->
  (exists e, handleMessageStoreFile s from sf = (s, Some e)
             /\ GetType e = ConnectionError)
  /\ (exists e, handleMessageGetFile s from gf = (s, Some e)
                /\ GetType e = ConnectionError).
Proof.
  intros Hnone Hfile Hfs. split.
  - unfold handleMessageStoreFile. rewrite Hnone. eexists. now split.
  - unfold handleMessageGetFile, Has, Read. rewrite Hfile, Hfs.
    rewrite bool_decide_eq_true_2 by eauto. cbn [negb]. rewrite Hnone.
    eexists. now split.
Qed.

(** X16: [handleMessageStoreFile] does not compare what it copied with the
    announced [Size]: when the peer delivers fewer bytes than announced,
    the handler stores the bytes that came, calls [CloseStream] and returns
    [nil] all the same. *)
Theorem handleMessageStoreFile_short_stream (s : FileServer) (from : string)
        (msg : MessageStoreFile) (peer : Peer) :
  peer_lookup (peers s) from = Some peer ->
  failing (store_ s) = false ->
  Z.of_nat (length (inbox peer)) < sf_Size msg ->
  exists s',
    handleMessageStoreFile s from msg = (s', None)
    /\ files (store_ s') !! (sf_ID msg, sf_Key msg) = Some (inbox peer)
    /\ peer_lookup (peers s') from = Some (CloseStream (with_inbox peer [])).
Proof.
  intros Hpeer Hfs Hshort.
  rewrite (handleMessageStoreFile_run s from msg peer Hpeer Hfs).
  rewrite take_ge, drop_ge by lia.
  eexists. split; [reflexivity|]. split.
  - cbn. apply lookup_insert_eq.
  - cbn. apply peer_lookup_store.
Qed.

End HandlersMore.

(** ** The file server: the loop, a relay, replication *)

Section LoopMore.
Context `{Primitives}.
Import errors store p2p server.

Lemma handleMessage_frame (s : FileServer) (from : string) (msg : Message) :
  quitch (fst (handleMessage s from msg)) = quitch s
  /\ transport_closed (fst (handleMessage s from msg)) = transport_closed s
  /\ ID (fst (handleMessage s from msg)) = ID s
  /\ EncKey (fst (handleMessage s from msg)) = EncKey s.
Proof.
  unfold handleMessage. destruct (Payload_ msg) as [v|v|]; [| |now repeat split].
  - unfold handleMessageStoreFile.
    destruct (peer_lookup (peers s) from); [|now repeat split].
    destruct (Write _ _ _ _) as [[st n] [e|]]; now repeat split.
  - unfold handleMessageGetFile.
    destruct (negb _); [now repeat split|].
    destruct (Read _ _ _) as [[fileSize r]|e]; [|now repeat split].
    destruct (peer_lookup (peers s) from) as [peer|]; [|now repeat split].
    destruct (Send peer _) as [p1 [e|]]; [now repeat split|].
    destruct (Send p1 _) as [p2 [e|]]; [now repeat split|].
    destruct r; [now repeat split|].
    destruct (Send p2 _) as [p3 [e|]]; now repeat split.
Qed.

(** X17: while [quitch] is open the loop never exits: whatever RPCs arrive,
    payloads that do not decode and handlers that fail included, it works
    through them and is left waiting, with the transport still open and the
    identity and the key of the node unchanged.  The loop ends through
    [quitch] only. *)
Theorem loop_runs_until_quit (pick_quit : list bool) (rpcs : list RPC) (s : FileServer) :
  quitch s = false ->
  exists s',
    loop pick_quit rpcs s = Waiting s'
    /\ quitch s' = false
    /\ transport_closed s' = transport_closed s
    /\ ID s' = ID s /\ EncKey s' = EncKey s.
Proof.
  revert pick_quit s. induction rpcs as [|rpc rpcs IH]; intros pick_quit s Hq.
  - cbn. rewrite Hq. exists s. now repeat split.
  - cbn [loop]. rewrite Hq. cbn [andb].
    destruct (gobDecode (Payload rpc)) as [[msg rest]|].
    + pose proof (handleMessage_frame s (From_ rpc) msg) as (Hq' & Ht & Hi & Hk).
      destruct (handleMessage s (From_ rpc) msg) as [s1 e]. cbn [fst] in *.
      destruct (IH (tl pick_quit) s1) as (s' & Hrun & Hq2 & Ht2 & Hi2 & Hk2); [congruence|].
      exists s'. rewrite Hrun. repeat split; congruence.
    + now apply IH.
Qed.

(** X18: a node relays what it was given.  After [handleMessageStoreFile]
    has taken the [Size] bytes of a stream from one peer, a [GetFile] with
    the same ID and key from a registered peer with a sound connection is
    answered with the stream kind byte, [Size] as the size, and these very
    bytes: the node neither decrypts nor alters what it stores for others. *)
Theorem stored_stream_is_served_back (s : FileServer) (from to : string)
        (msg : MessageStoreFile) (peer link : Peer) :
  peer_lookup (peers s) from = Some peer ->
  peer_lookup (peers s) to = Some link ->
  budget link = None ->
  failing (store_ s) = false ->
  0 <= sf_Size msg <= Z.of_nat (length (inbox peer)) ->
  let s1 := fst (handleMessageStoreFile s from msg) in
  let request := {| gf_ID := sf_ID msg; gf_Key := sf_Key msg |} in
  let s2 := fst (handleMessageGetFile s1 to request) in
  snd (handleMessageGetFile s1 to request) = None
  /\ network.sent_to to s2
     = sent link ++ [IncomingStream] ++ put_int64 (sf_Size msg)
         ++ take (Z.to_nat (sf_Size msg)) (inbox peer).
Proof.
  intros Hpeer Hlink Hb Hfs Hsize. cbv zeta.
  rewrite (handleMessageStoreFile_run s from msg peer Hpeer Hfs). cbn [fst].
  set (body := take (Z.to_nat (sf_Size msg)) (inbox peer)).
  set (s1 := with_peers _ _).
  assert (Hlen : Z.of_nat (length body) = sf_Size msg).
  { subst body. rewrite length_take. lia. }
  assert (Hl1 : exists l, peer_lookup (peers s1) to = Some l
                          /\ budget l = None /\ sent l = sent link).
  { subst s1. cbn [peers with_peers].
    destruct (String.eqb_spec from to) as [<-|Hne].
    - rewrite peer_lookup_store. eexists. split; [reflexivity|].
      rewrite Hpeer in Hlink. injection Hlink as <-. now split.
    - rewrite peer_lookup_store_other by exact Hne. exists link. now repeat split. }
  destruct Hl1 as (l & Hl & Hbl & Hsl).
  rewrite (handleMessageGetFile_serves s1 to {| gf_ID := sf_ID msg; gf_Key := sf_Key msg |}
             l body).
  - cbn [fst snd]. split; [reflexivity|].
    unfold network.sent_to. cbn [peers with_peers]. rewrite peer_lookup_store.
    cbn [with_sent sent]. now rewrite Hsl, Hlen.
  - subst s1. cbn. apply lookup_insert_eq.
  - subst s1. exact Hfs.
  - exact Hl.
  - exact Hbl.
Qed.

(** X19: on sound connections [replicateTopeers] draws one IV and sends
    every peer the same bytes: the stream kind byte and one encrypted
    stream, 16 bytes longer than the blob, that decrypts to the blob under
    the key of the node.  It returns [nil] and consumes 16 bytes of
    randomness. *)
Theorem replicateTopeers_sends_one_stream (s : FileServer) (key : string)
        (fileBuffer : bytes) :
  peers s <> [] ->
  Forall (fun ap => budget ap.2 = None) (peers s) ->
  exists stream,
    snd (replicateTopeers s key fileBuffer) = None
    /\ Forall2 (fun ap ap' =>
                  ap'.1 = ap.1
                  /\ sent ap'.2 = sent ap.2 ++ [IncomingStream] ++ stream
                  /\ inbox ap'.2 = inbox ap.2)
               (peers s) (peers (fst (replicateTopeers s key fileBuffer)))
    /\ length stream = (16 + length fileBuffer)%nat
    /\ crypto.decrypt (EncKey s) stream = inl fileBuffer
    /\ drawn (fst (replicateTopeers s key fileBuffer)) = (drawn s + 16)%nat.
Proof.
  intros Hne Hh.
  rewrite (replicateTopeers_healthy s key fileBuffer Hne Hh).
  set (iv := map (entropy s) (seq (drawn s) crypto.ivSize)).
  assert (Hiv : length iv = crypto.ivSize) by (subst iv; now rewrite length_map, length_seq).
  exists (crypto.encrypt (EncKey s) iv fileBuffer).
  cbn [fst snd peers with_drawn with_peers drawn].
  split; [reflexivity|]. split; [|split; [|split; [|reflexivity]]].
  - clear. induction (peers s) as [|[a p] l IH]; constructor; [|exact IH].
    cbn. now repeat split.
  - rewrite length_encrypt, Hiv. reflexivity.
  - now apply decrypt_encrypt.
Qed.

End LoopMore.

(** ** Package errors: the type of an error *)

Section ErrorsMore.
Import errors.

Lemma ErrorType_eqb_eq (a b : ErrorType) : ErrorType_eqb a b = true <-> a = b.
Proof. split; [destruct a, b; (reflexivity || discriminate)|intros <-; now destruct a]. Qed.

(** X20: [IsType] and [GetType] agree on a [FileSystemError] and disagree on
    any other error: for such an error [GetType] answers [InternalError],
    and [IsType] answers false for every type, [InternalError] included.
    So [IsType err t] implies [GetType err = t], and not the other way
    round. *)
Theorem IsType_and_GetType (e : error) (t : ErrorType) :
  (IsType e t = true <->
   GetType e = t /\ exists t' m c, e = FileSystemError t' m c)
  /\ (forall text, GetType (PlainError text) = InternalError
                   /\ IsType (PlainError text) InternalError = false)
  /\ (forall cause t' m, GetType (Wrap cause t' m) = t' /\ IsType (Wrap cause t' m) t' = true).
Proof.
  split; [|split].
  - destruct e as [t0 m c|text]; cbn.
    + rewrite ErrorType_eqb_eq. split.
      * intros ->. split; [reflexivity|]. now exists t, m, c.
      * now intros [-> _].
    + split; [discriminate|]. intros [_ (t' & m & c & Habs)]. discriminate.
  - intros text. now split.
  - intros cause t' m. cbn. split; [reflexivity|]. now apply ErrorType_eqb_eq.
Qed.

End ErrorsMore.

(** ** Retries in [Get], failures in the handlers *)

Section RetriesMore.
Context `{Primitives}.
Import errors store p2p server.

Lemma with_peers_same (s : FileServer) : with_peers s (peers s) = s.
Proof. now destruct s. Qed.

Lemma broadcast_peers_broken (buf : bytes) :
  forall (ps : list (string * Peer)) (lastErr : option error) (n : Z),
    Forall (fun ap => budget ap.2 = Some O) ps ->
    broadcast_peers ps buf lastErr n
    = (ps,
       match ps with
       | [] => lastErr
       | _ => Some (PlainError "write: broken pipe")
       end, n).
Proof.
  induction ps as [|[a p] ps IH]; intros lastErr n Hall; [reflexivity|].
  inversion Hall as [|? ? Hp Hrest]; subst. cbn [snd] in Hp.
  cbn [broadcast_peers]. unfold Send at 1. rewrite Hp.
  rewrite IH by exact Hrest. now destruct ps.
Qed.

Lemma fetchFileFromNetwork_broken (s : FileServer) (key : string) :
  peers s <> [] ->
  Forall (fun ap => budget ap.2 = Some O) (peers s) ->
  fetchFileFromNetwork s key
  = (s, Some (Wrap (Some (PlainError "write: broken pipe")) NetworkError
                   "failed to broadcast to any peers")).
Proof.
  intros Hne Hall. unfold fetchFileFromNetwork, broadcast.
  rewrite broadcast_peers_broken by exact Hall.
  rewrite with_peers_same.
  destruct (peers s) as [|ap ps]; [contradiction|].
  reflexivity.
Qed.

Ltac still_running :=
  match goal with
  | |- context [?a <=? ?b] =>
      replace (a <=? b) with false
        by (symmetry; apply Z.leb_gt;
            cbn [now elapse FileServer_Clock wall with_wall];
            unfold retry.Second, retry.Millisecond; lia)
  end.

(** A fetch that fails with the same retryable error whatever the clock
    shows is attempted three times, 100 ms and 180 ms apart. *)
Lemma Get_retries_run (s : FileServer) (key : string) (e : error) :
  Has (store_ s) (ID s) key = false ->
  IsRetryable e = true ->
  (forall t, fetchFileFromNetwork (with_wall s t) key = (with_wall s t, Some e)) ->
  fetchFileFromNetwork s key = (s, Some e) ->
  Get s key
  = (with_wall s (wall s + 280 * retry.Millisecond),
     inr (Wrap (Some e) NetworkError "failed to fetch file from network")).
Proof.
  intros Hmiss Hretry Hlater Hfirst. unfold Get. rewrite Hmiss.
  unfold retry.DoSimple, retry.DoWithTimeout, retry.Do.
  change (Z.to_nat (retry.MaxAttempts retry.DefaultRetryConfig)) with 3%nat.
  change (retry.InitialDelay retry.DefaultRetryConfig) with (100 * retry.Millisecond).
  unfold WithTimeout. cbn [Background cancelled deadline].
  cbn [retry.Do_loop]. unfold Done at 1. cbn [cancelled deadline orb].
  still_running.
  rewrite Hfirst, Hretry. cbn [negb].
  change (1 =? retry.MaxAttempts retry.DefaultRetryConfig) with false. cbn iota.
  unfold select_done_after at 1. cbn [cancelled deadline].
  still_running.
  rewrite next_delay_default_first.
  unfold Done at 1. cbn [cancelled deadline orb].
  still_running.
  cbn [elapse FileServer_Clock].
  rewrite Hlater, Hretry. cbn [negb].
  change (1 + 1 =? retry.MaxAttempts retry.DefaultRetryConfig) with false. cbn iota.
  unfold select_done_after at 1. cbn [cancelled deadline].
  still_running.
  unfold Done at 1. cbn [cancelled deadline orb].
  still_running.
  cbn [elapse FileServer_Clock].
  assert (Hw : forall t u, with_wall (with_wall s t) u = with_wall s u) by reflexivity.
  rewrite Hw, Hlater, Hretry. cbn [negb].
  change (1 + 1 + 1 =? retry.MaxAttempts retry.DefaultRetryConfig) with true. cbn iota.
  cbn [wall with_wall]. f_equal. f_equal.
  unfold retry.Millisecond. lia.
Qed.

(** X21: when no peer can be written to (the registry is empty, or every
    connection is broken), [Get] of a key that is not held locally makes
    the three attempts of the default retry policy, 100 ms and 180 ms
    apart: it returns 280 ms after the call, with the Network error of the
    last attempt wrapped as a Network error.  Nothing has been sent or
    stored. *)
Theorem Get_retries_before_giving_up (s : FileServer) (key : string) :
  Has (store_ s) (ID s) key = false ->
  Forall (fun ap => budget ap.2 = Some O) (peers s) ->
  let cause :=
    match peers s with
    | [] => NewNetworkError "no peers available for file retrieval"
    | _ => Wrap (Some (PlainError "write: broken pipe")) NetworkError
                "failed to broadcast to any peers"
    end in
  Get s key
  = (with_wall s (wall s + 280 * retry.Millisecond),
     inr (Wrap (Some cause) NetworkError "failed to fetch file from network"))
  /\ IsRetryable cause = true.
Proof.
  intros Hmiss Hall. cbv zeta.
  destruct (peers s) as [|ap ps] eqn:Hps.
  - split; [|reflexivity]. apply Get_retries_run; try assumption; try reflexivity.
    + intros t. now apply fetchFileFromNetwork_without_peers.
    + now apply fetchFileFromNetwork_without_peers.
  - split; [|reflexivity]. apply Get_retries_run; try assumption; try reflexivity.
    + intros t. apply fetchFileFromNetwork_broken; cbn [peers with_wall];
        rewrite Hps; [discriminate|exact Hall].
    + apply fetchFileFromNetwork_broken; rewrite Hps; [discriminate|exact Hall].
Qed.

(** X22: [handleMessageGetFile] only ever writes to the peer that asked: the
    store, the clock and every other peer are as before, and on the
    connection of the requester bytes are appended to what was sent, while
    nothing is read and no stream is closed.  An error is of kind
    FileNotFound, Storage or Connection, with the server exactly as it was,
    or of kind Network, from a failed write. *)
Theorem handleMessageGetFile_only_sends (s : FileServer) (from : string)
        (msg : MessageGetFile) :
  let r := handleMessageGetFile s from msg in
  store_ (fst r) = store_ s
  /\ wall (fst r) = wall s
  /\ (forall other, other <> from ->
        peer_lookup (peers (fst r)) other = peer_lookup (peers s) other)
  /\ (forall p, peer_lookup (peers s) from = Some p ->
        exists p' t, peer_lookup (peers (fst r)) from = Some p'
                     /\ sent p' = sent p ++ t
                     /\ inbox p' = inbox p /\ in_flight p' = in_flight p)
  /\ (forall e, snd r = Some e ->
        GetType e = NetworkError
        \/ (fst r = s
            /\ (GetType e = FileNotFoundError \/ GetType e = StorageError
                \/ GetType e = ConnectionError))).
Proof.
  cbv zeta. unfold handleMessageGetFile.
  assert (Hsame : forall p, peer_lookup (peers s) from = Some p ->
            exists p' t, peer_lookup (peers s) from = Some p'
                         /\ sent p' = sent p ++ t
                         /\ inbox p' = inbox p /\ in_flight p' = in_flight p).
  { intros p Hp. exists p, []. now rewrite app_nil_r. }
  destruct (negb _).
  { cbn [fst snd]. repeat split; try reflexivity; [exact Hsame|].
    intros e [= <-]. right. split; [reflexivity|]. now left. }
  destruct (Read _ _ _) as [[fileSize r]|e0].
  2:{ cbn [fst snd]. repeat split; try reflexivity; [exact Hsame|].
      intros e [= <-]. right. split; [reflexivity|]. right. now left. }
  destruct (peer_lookup (peers s) from) as [peer|] eqn:Hpeer.
  2:{ cbn [fst snd]. repeat split; try reflexivity; [discriminate|].
      intros e [= <-]. right. split; [reflexivity|]. right. now right. }
  clear Hsame.
  assert (Hdone : forall q err,
            (exists t, sent q = sent peer ++ t) ->
            inbox q = inbox peer -> in_flight q = in_flight peer ->
            (forall e, err = Some e -> GetType e = NetworkError) ->
            let r := (with_peers s (peer_store (peers s) from q), err) in
            store_ (fst r) = store_ s
            /\ wall (fst r) = wall s
            /\ (forall other, other <> from ->
                  peer_lookup (peers (fst r)) other = peer_lookup (peers s) other)
            /\ (forall p, Some peer = Some p ->
                  exists p' t, peer_lookup (peers (fst r)) from = Some p'
                               /\ sent p' = sent p ++ t
                               /\ inbox p' = inbox p /\ in_flight p' = in_flight p)
            /\ (forall e, snd r = Some e ->
                  GetType e = NetworkError
                  \/ (fst r = s
                      /\ (GetType e = FileNotFoundError \/ GetType e = StorageError
                          \/ GetType e = ConnectionError)))).
  { intros q err [t Ht] Hi Hf Herr. cbv zeta. cbn [fst snd peers with_peers store_ wall].
    split; [reflexivity|]. split; [reflexivity|]. split; [|split].
    - intros other Hne. apply peer_lookup_store_other. congruence.
    - intros p [= <-]. exists q, t. now rewrite peer_lookup_store.
    - intros e He. left. now apply Herr. }
  pose proof (Send_sent_grows peer [IncomingStream]) as [t1 Ht1].
  pose proof (Send_inbox peer [IncomingStream]) as [Hi1 Hf1].
  destruct (Send peer [IncomingStream]) as [p1 [e1|]]; cbn [fst] in Ht1, Hi1, Hf1.
  { apply Hdone; eauto. now intros e [= <-]. }
  pose proof (Send_sent_grows p1 (put_int64 fileSize)) as [t2 Ht2].
  pose proof (Send_inbox p1 (put_int64 fileSize)) as [Hi2 Hf2].
  destruct (Send p1 (put_int64 fileSize)) as [p2 [e2|]]; cbn [fst] in Ht2, Hi2, Hf2.
  { apply Hdone; [|congruence|congruence|now intros e [= <-]].
    exists (t1 ++ t2). now rewrite Ht2, Ht1, app_assoc. }
  destruct r as [|b r].
  { apply Hdone; [|congruence|congruence|discriminate].
    exists (t1 ++ t2). now rewrite Ht2, Ht1, app_assoc. }
  pose proof (Send_sent_grows p2 (b :: r)) as [t3 Ht3].
  pose proof (Send_inbox p2 (b :: r)) as [Hi3 Hf3].
  destruct (Send p2 (b :: r)) as [p3 [e3|]]; cbn [fst] in Ht3, Hi3, Hf3.
  - apply Hdone; [|congruence|congruence|now intros e [= <-]].
    exists (t1 ++ t2 ++ t3). now rewrite Ht3, Ht2, Ht1, !app_assoc.
  - apply Hdone; [|congruence|congruence|discriminate].
    exists (t1 ++ t2 ++ t3). now rewrite Ht3, Ht2, Ht1, !app_assoc.
Qed.

(** X23: when the local write fails, [handleMessageStoreFile] returns a
    Storage error without calling [CloseStream]: the peer is left as it
    was, its stream still counted as open and its bytes unread, and the
    store holds nothing new. *)
Theorem handleMessageStoreFile_failed_write (s : FileServer) (from : string)
        (msg : MessageStoreFile) (peer : Peer) :
  peer_lookup (peers s) from = Some peer ->
  failing (store_ s) = true ->
  exists s' cause,
    handleMessageStoreFile s from msg
    = (s', Some (Wrap (Some cause) StorageError "failed to write file from peer"))
    /\ peer_lookup (peers s') from = Some peer
    /\ (forall other, other <> from ->
          peer_lookup (peers s') other = peer_lookup (peers s) other)
    /\ store_ s' = store_ s.
Proof.
  intros Hpeer Hfs. unfold handleMessageStoreFile, Write, drains.
  rewrite Hpeer, Hfs. cbn [negb].
  eexists. eexists. split; [reflexivity|].
  cbn [peers with_peers with_store store_].
  split; [apply peer_lookup_store|]. split; [|reflexivity].
  intros other Hne. apply peer_lookup_store_other. congruence.
Qed.

End RetriesMore.

(** ** Package retry and package errors: the default policy *)

Section PolicyMore.
Import errors retry.

(** X24: [DoSimple] on a closure that takes no time and fails with a
    retryable error three times running invokes it three times and returns
    the third error 280 ms after the call: the waits are 100 ms and, the
    jitter taking a tenth off the doubled delay, 180 ms.  The timeout of
    30 s plays no part. *)
Theorem retry_DoSimple_backoff (outcome : nat -> option error) (p : Probe) :
  (forall k, (k < 3)%nat ->
             exists e, outcome (calls p + k)%nat = Some e /\ IsRetryable e = true) ->
  DoSimple (scripted outcome) p
  = ({| calls := calls p + 3; clock := clock p + 280 * Millisecond |},
     outcome (calls p + 2)%nat).
Proof.
  intros Hfail.
  destruct (Hfail 0%nat ltac:(lia)) as (e0 & He0 & Hr0).
  destruct (Hfail 1%nat ltac:(lia)) as (e1 & He1 & Hr1).
  destruct (Hfail 2%nat ltac:(lia)) as (e2 & He2 & Hr2).
  rewrite Nat.add_0_r in He0.
  unfold DoSimple, DoWithTimeout, Do.
  change (Z.to_nat (MaxAttempts DefaultRetryConfig)) with 3%nat.
  change (InitialDelay DefaultRetryConfig) with (100 * Millisecond).
  unfold WithTimeout. cbn [Background cancelled deadline now Probe_Clock].
  assert (Hrem : forall u, Z.rem (2 * u) 2 = 0).
  { intros u. rewrite (Z.mul_comm 2 u). apply Z.rem_mul. lia. }
  assert (Hnext : forall t, next_delay DefaultRetryConfig (100 * Millisecond) t
                            = 180 * Millisecond).
  { intros t. unfold next_delay, scale.
    cbn [DefaultRetryConfig Multiplier MaxDelay Jitter Qnum Qden].
    rewrite Hrem. reflexivity. }
  assert (Hleb : forall d, 0 <= d <= 280 * Millisecond ->
                           (clock p + 30 * Second <=? clock p + d) = false).
  { intros d Hd. apply Z.leb_gt. unfold Second, Millisecond in *. lia. }
  cbn [Do_loop]. unfold Done at 1.
  cbn [cancelled deadline orb now Probe_Clock].
  rewrite <- (Z.add_0_r (clock p)) at 2. rewrite Hleb by (unfold Millisecond; lia).
  cbn [scripted]. rewrite He0, Hr0. cbn [negb].
  change (1 =? MaxAttempts DefaultRetryConfig) with false. cbn iota.
  unfold select_done_after at 1.
  cbn [cancelled deadline now elapse Probe_Clock calls clock].
  rewrite Hleb by (unfold Millisecond; lia).
  rewrite Hnext.
  unfold Done at 1. cbn [cancelled deadline orb now Probe_Clock calls clock].
  rewrite Hleb by (unfold Millisecond; lia).
  replace (S (calls p)) with (calls p + 1)%nat by lia.
  rewrite He1, Hr1. cbn [negb].
  change (1 + 1 =? MaxAttempts DefaultRetryConfig) with false. cbn iota.
  unfold select_done_after at 1.
  cbn [cancelled deadline now elapse Probe_Clock calls clock].
  rewrite <- Z.add_assoc. rewrite Hleb by (unfold Millisecond; lia).
  unfold Done at 1. cbn [cancelled deadline orb now Probe_Clock calls clock].
  rewrite Hleb by (unfold Millisecond; lia).
  replace (S (calls p + 1)) with (calls p + 2)%nat by lia.
  rewrite He2, Hr2. cbn [negb].
  change (1 + 1 + 1 =? MaxAttempts DefaultRetryConfig) with true. cbn iota.
  assert (Hc : S (calls p + 2) = (calls p + 3)%nat) by lia.
  assert (Ht : clock p + (Z.max 0 (100 * Millisecond) + Z.max 0 (180 * Millisecond))
               = clock p + 280 * Millisecond) by (unfold Millisecond; lia).
  now rewrite Hc, Ht.
Qed.

(** X25: an error is retryable exactly when it is a [FileSystemError] whose
    own type is Network, Connection, Timeout or Storage.  The cause that an
    error wraps plays no part, and the errors of a context, which [Do]
    returns when the context is done, are not retryable. *)
Theorem IsRetryable_by_outer_type (e : error) :
  (IsRetryable e = true <->
   exists t m c, e = FileSystemError t m c
                 /\ (t = NetworkError \/ t = ConnectionError
                     \/ t = TimeoutError \/ t = StorageError))
  /\ (forall cause t m, IsRetryable (Wrap cause t m) = IsRetryable (New t m))
  /\ (forall ctx, IsRetryable (Err ctx) = false).
Proof.
  split; [|split].
  - split.
    + destruct e as [t m c|text]; [|discriminate].
      intros Hr. exists t, m, c. split; [reflexivity|].
      destruct t; try discriminate; auto.
    + intros (t & m & c & -> & [->|[->|[->| ->]]]); reflexivity.
  - reflexivity.
  - intros ctx. unfold Err. now destruct (cancelled ctx).
Qed.

End PolicyMore.

(** ** Package logger and package config *)

Section LoggerMore.
Import logger.

Lemma Write_lookup (o : Writer) (b : string) (ws : gmap Writer (list string)) :
  Write o b ws !! o = Some (default [] (ws !! o) ++ [b]).
Proof. unfold Write. apply lookup_insert_eq. Qed.

Lemma Write_lookup_ne (o o' : Writer) (b : string) (ws : gmap Writer (list string)) :
  o <> o' -> Write o b ws !! o' = ws !! o'.
Proof. intros Hne. unfold Write. now apply lookup_insert_ne. Qed.

Lemma append_assoc (a b c : string) : (a +:+ b) +:+ c = a +:+ (b +:+ c).
Proof.
  induction a as [|x a IH]; [reflexivity|].
  change (String x ((a +:+ b) +:+ c) = String x (a +:+ (b +:+ c))).
  now f_equal.
Qed.

(** What [log] does through the address of a logger. *)
Lemma log_run (l : nat) (lg : Logger) (lv : LogLevel) (c : Call) (w : World) :
  loggers w !! l = Some lg ->
  (lv < level lg -> log l lv c w = Continues tt w)
  /\ (level lg <= lv ->
      exists line w',
        log l lv c w = (if lv =? FATAL then Terminates 1 w' else Continues tt w')
        /\ loggers w' = loggers w
        /\ written w' !! output lg = Some (default [] (written w !! output lg) ++ [line])
        /\ (forall o, o <> output lg -> written w' !! o = written w !! o)
        /\ exists body, line = body +:+ newline).
Proof.
  intros Hl. unfold log. rewrite Hl. split.
  - intros Hlt. now rewrite (proj2 (Z.ltb_lt _ _) Hlt).
  - intros Hge. rewrite (proj2 (Z.ltb_ge _ _) Hge). cbv zeta.
    eexists. eexists. split; [reflexivity|]. cbn [loggers written].
    split; [reflexivity|]. split; [apply Write_lookup|]. split.
    + intros o Hne. apply Write_lookup_ne. congruence.
    + destruct (negb (String.eqb (prefix lg) "")).
      * exists ("[" +:+ timestamp c +:+ "] " +:+ LogLevel_String lv +:+ " ["
                  +:+ prefix lg +:+ "] [" +:+ caller_of (frame c) +:+ "] " +:+ message c).
        now rewrite !append_assoc.
      * exists ("[" +:+ timestamp c +:+ "] " +:+ LogLevel_String lv +:+ " ["
                  +:+ caller_of (frame c) +:+ "] " +:+ message c).
        now rewrite !append_assoc.
Qed.

(** X26: a record below the level of the logger changes nothing.  A record
    at or above it gives the writer of the logger exactly one line, which
    ends in a newline, and leaves every other writer and every logger as
    it was; the process exits, with code 1, exactly when such a record is
    at level FATAL.  So [Fatal] on a logger whose level has been set above
    FATAL writes nothing and returns. *)
Theorem log_filters_then_writes_one_line (l : nat) (lg : Logger) (lv : LogLevel)
        (c : Call) (w : World) :
  loggers w !! l = Some lg ->
  (lv < level lg -> log l lv c w = Continues tt w)
  /\ (level lg <= lv ->
      exists line w',
        log l lv c w = (if lv =? FATAL then Terminates 1 w' else Continues tt w')
        /\ loggers w' = loggers w
        /\ written w' !! output lg = Some (default [] (written w !! output lg) ++ [line])
        /\ (forall o, o <> output lg -> written w' !! o = written w !! o)
        /\ exists body, line = body +:+ newline)
  /\ ((exists w', Fatal l c w = Terminates 1 w') <-> level lg <= FATAL)
  /\ (FATAL < level lg -> Fatal l c w = Continues tt w).
Proof.
  intros Hl. destruct (log_run l lg lv c w Hl) as [Hlow Hhigh].
  split; [exact Hlow|]. split; [exact Hhigh|].
  destruct (log_run l lg FATAL c w Hl) as [Hf1 Hf2]. unfold Fatal. split.
  - split.
    + intros [w' Hrun]. destruct (Z.le_gt_cases (level lg) FATAL) as [Hle|Hgt]; [exact Hle|].
      rewrite Hf1 in Hrun by lia. discriminate.
    + intros Hle. destruct (Hf2 Hle) as (body & w' & Hrun & _).
      exists w'. exact Hrun.
  - exact Hf1.
Qed.

Lemma assign_frame (l : nat) (f : Logger -> Logger) (w w2 : World) :
  assign l f w = Continues tt w2 ->
  written w2 = written w
  /\ forall d, d <> l -> loggers w2 !! d = loggers w !! d.
Proof.
  unfold assign. destruct (loggers w !! l) as [lg|]; [|discriminate].
  intros [= <-]. cbn [written loggers]. split; [reflexivity|].
  intros d Hne. apply list_lookup_insert_ne. congruence.
Qed.

(** X27: the logger that [WithPrefix] returns is a copy made at that moment:
    it is a new object, and later calls of [SetLevel] or [SetOutput] on the
    logger it was made from do not reach it.  It goes on filtering by the
    level, and writing to the writer, that the original had when
    [WithPrefix] was called. *)
Theorem WithPrefix_is_a_snapshot (parent : nat) (pl : Logger) (p : string) (w : World) :
  loggers w !! parent = Some pl ->
  exists d w1,
    WithPrefix parent p w = Continues d w1
    /\ d <> parent
    /\ loggers w1 !! parent = Some pl
    /\ written w1 = written w
    /\ forall lv o w2,
         SetLevel parent lv w1 = Continues tt w2
         \/ SetOutput parent o w1 = Continues tt w2 ->
         loggers w2 !! d = Some {| level := level pl; output := output pl; prefix := p |}
         /\ forall lv' c,
              (lv' < level pl -> log d lv' c w2 = Continues tt w2)
              /\ (level pl <= lv' ->
                  exists line w3,
                    log d lv' c w2
                    = (if lv' =? FATAL then Terminates 1 w3 else Continues tt w3)
                    /\ written w3 !! output pl
                       = Some (default [] (written w !! output pl) ++ [line])).
Proof.
  intros Hp. unfold WithPrefix, alloc. rewrite Hp.
  pose proof (lookup_lt_Some _ _ _ Hp) as Hlt.
  eexists. eexists. split; [reflexivity|].
  cbn [loggers written].
  split; [lia|]. split; [now apply lookup_app_l_Some|]. split; [reflexivity|].
  intros lv o w2 Hset.
  assert (Hframe : written w2 = written w
                   /\ loggers w2 !! length (loggers w)
                      = Some {| level := level pl; output := output pl; prefix := p |}).
  { destruct Hset as [Hset|Hset]; apply assign_frame in Hset as [Hw Hd];
      cbn [written loggers] in *; (split; [exact Hw|]);
      rewrite Hd by lia; now apply list_lookup_middle. }
  destruct Hframe as [Hw Hd]. split; [exact Hd|].
  intros lv' c. destruct (log_run _ _ lv' c w2 Hd) as [Hlow Hhigh].
  cbn [level output] in Hlow, Hhigh. split; [exact Hlow|].
  intros Hge. destruct (Hhigh Hge) as (line & w3 & Hrun & _ & Hout & _).
  exists line, w3. split; [exact Hrun|]. now rewrite <- Hw.
Qed.

End LoggerMore.

Section ConfigMore.
Import logger config.
Variable ToUpper : string -> string.

Lemma GetLogLevel_range (c : Config) : DEBUG <= GetLogLevel ToUpper c <= FATAL.
Proof.
  unfold GetLogLevel. cbv zeta.
  repeat match goal with
         | |- context [String.eqb ?a ?b] => destruct (String.eqb a b)
         end; unfold DEBUG, INFO, WARN, ERROR, FATAL; lia.
Qed.

(** X28: the level that [GetLogLevel] returns is always one of the five
    named levels.  For a configuration that [Validate] accepts, its name is
    the upper-cased [LogLevel] of the configuration; for a [LogLevel] that
    [Validate] would refuse, [GetLogLevel] falls back to INFO. *)
Theorem GetLogLevel_names_the_configured_level (c : Config) :
  DEBUG <= GetLogLevel ToUpper c <= FATAL
  /\ (Validate ToUpper c = None ->
      LogLevel_String (GetLogLevel ToUpper c) = ToUpper (LogLevel_ c))
  /\ (validLogLevels (ToUpper (LogLevel_ c)) = false -> GetLogLevel ToUpper c = INFO).
Proof.
  split; [apply GetLogLevel_range|]. split.
  - unfold Validate.
    destruct (String.eqb (ListenAddr c) ""); [discriminate|].
    destruct (String.eqb (StorageRoot c) ""); [discriminate|].
    destruct (validLogLevels (ToUpper (LogLevel_ c))) eqn:Hv; [|discriminate].
    intros _. unfold validLogLevels in Hv. unfold GetLogLevel. cbv zeta.
    destruct (String.eqb_spec (ToUpper (LogLevel_ c)) "DEBUG") as [->|_]; [reflexivity|].
    destruct (String.eqb_spec (ToUpper (LogLevel_ c)) "INFO") as [->|_]; [reflexivity|].
    destruct (String.eqb_spec (ToUpper (LogLevel_ c)) "WARN") as [->|_]; [reflexivity|].
    destruct (String.eqb_spec (ToUpper (LogLevel_ c)) "ERROR") as [->|_]; [reflexivity|].
    destruct (String.eqb_spec (ToUpper (LogLevel_ c)) "FATAL") as [->|_]; [reflexivity|].
    discriminate.
  - unfold validLogLevels, GetLogLevel. cbv zeta.
    destruct (String.eqb (ToUpper (LogLevel_ c)) "DEBUG"); [discriminate|].
    destruct (String.eqb (ToUpper (LogLevel_ c)) "INFO"); [discriminate|].
    destruct (String.eqb (ToUpper (LogLevel_ c)) "WARN"); [discriminate|].
    destruct (String.eqb (ToUpper (LogLevel_ c)) "ERROR"); [discriminate|].
    destruct (String.eqb (ToUpper (LogLevel_ c)) "FATAL"); [discriminate|].
    reflexivity.
Qed.

(** X29: once the level of the default logger has been set from the
    configuration, as [main] does, the package-level [Fatal] always ends
    the process with code 1, after one line to the writer of the default
    logger. *)
Theorem Fatal_exits_under_configured_level (c : Config) (call : Call) (w w1 : World) :
  SetGlobalLevel (GetLogLevel ToUpper c) w = Continues tt w1 ->
  exists dl line w2,
    loggers w1 !! defaultLogger = Some dl
    /\ GlobalFatal call w1 = Terminates 1 w2
    /\ written w2 !! output dl = Some (default [] (written w !! output dl) ++ [line]).
Proof.
  unfold SetGlobalLevel, SetLevel, assign.
  destruct (loggers w !! defaultLogger) as [lg|] eqn:Hl; [|discriminate].
  intros [= <-]. cbn [loggers written].
  pose proof (lookup_lt_Some _ _ _ Hl) as Hlt.
  eexists. eexists. eexists.
  split; [now apply list_lookup_insert_eq|].
  unfold GlobalFatal, Fatal, log. cbn [loggers written].
  rewrite list_lookup_insert_eq by exact Hlt. cbn [level output prefix].
  pose proof (GetLogLevel_range c) as [_ Hle].
  rewrite (proj2 (Z.ltb_ge _ _) Hle). cbv zeta.
  change (FATAL =? FATAL) with true. cbn iota.
  split; [reflexivity|]. cbn [written]. apply Write_lookup.
Qed.

End ConfigMore.
(** * Runs of the model on the concrete instance *)

#[local] Existing Instance sample.primitives.

Lemma Get_without_peers_is_Network_witness :
  exists s' e,
    server.Get (sample.node "n1" [] []) "nope.txt" = (s', inr e)
    /\ errors.GetType e = errors.NetworkError
    /\ e = errors.Wrap
             (Some (errors.NewNetworkError "no peers available for file retrieval"))
             errors.NetworkError "failed to fetch file from network"
    /\ server.peers s' = [] /\ server.store_ s' = server.store_ (sample.node "n1" [] []).
Proof.
  apply (Get_without_peers_is_Network (sample.node "n1" [] []) "nope.txt").
  - reflexivity.
  - vm_compute. reflexivity.
Defined.


Lemma handleMessageGetFile_missing_witness :
  let s := sample.node "n2" [] [("10.0.0.1:3000", sample.peer0)] in
  let msg := {| gf_ID := "n1"; gf_Key := "h:nope.txt" |} in
  server.handleMessageGetFile s "10.0.0.1:3000" msg
  = (s, Some (errors.NewFileNotFoundError "h:nope.txt"))
  /\ errors.GetType (errors.NewFileNotFoundError "h:nope.txt") = errors.FileNotFoundError
  /\ forall p, server.peer_lookup (server.peers s) "10.0.0.1:3000" = Some p ->
               server.peer_lookup
                 (server.peers (fst (server.handleMessageGetFile s "10.0.0.1:3000" msg)))
                 "10.0.0.1:3000" = Some p.
Proof.
  cbv zeta.
  apply (handleMessageGetFile_missing
           (sample.node "n2" [] [("10.0.0.1:3000", sample.peer0)])
           "10.0.0.1:3000" {| gf_ID := "n1"; gf_Key := "h:nope.txt" |}).
  vm_compute. reflexivity.
Defined.

Lemma handleMessageStoreFile_copies_witness :
  let peer := p2p.with_inbox sample.peer0 [x10; x11; x12; x13] in
  let s := sample.node "n2" [] [("10.0.0.1:3000", peer)] in
  let msg := {| sf_ID := "n1"; sf_Key := "h:a.txt"; sf_Size := 3 |} in
  exists s' body,
    server.handleMessageStoreFile s "10.0.0.1:3000" msg = (s', None)
    /\ Z.of_nat (length body) = 3
    /\ p2p.inbox peer = body ++ drop (Z.to_nat 3) (p2p.inbox peer)
    /\ store.files (server.store_ s') !! ("n1", "h:a.txt") = Some body
    /\ server.peer_lookup (server.peers s') "10.0.0.1:3000"
       = Some (p2p.CloseStream (p2p.with_inbox peer (drop (Z.to_nat 3) (p2p.inbox peer)))).
Proof.
  cbv zeta.
  apply (handleMessageStoreFile_copies
           (sample.node "n2" [] [("10.0.0.1:3000",
                                  p2p.with_inbox sample.peer0 [x10; x11; x12; x13])])
           "10.0.0.1:3000"
           {| sf_ID := "n1"; sf_Key := "h:a.txt"; sf_Size := 3 |}
           (p2p.with_inbox sample.peer0 [x10; x11; x12; x13])).
  - reflexivity.
  - reflexivity.
  - simpl. lia.
Defined.

Lemma Store_without_peers_witness :
  let s := sample.node "n1" [] [] in
  let r := [x48; x69] in
  server.Store s "a.txt" r
  = (server.with_store s
       (store.with_files (server.store_ s)
          (<[(server.ID s, "a.txt") := r]> (store.files (server.store_ s)))), None)
  /\ store.Read (server.store_ (fst (server.Store s "a.txt" r))) (server.ID s) "a.txt"
     = inl (Z.of_nat (length r), r)
  /\ server.peers (fst (server.Store s "a.txt" r)) = []
  /\ server.wall (fst (server.Store s "a.txt" r)) = server.wall s
  /\ server.drawn (fst (server.Store s "a.txt" r)) = server.drawn s.
Proof.
  cbv zeta.
  apply (Store_without_peers (sample.node "n1" [] []) "a.txt" [x48; x69]).
  - reflexivity.
  - reflexivity.
Defined.

Lemma Stop_signals_quit_witness :
  exists s1,
    server.Stop (sample.node "n1" [] []) = Returned s1
    /\ server.quitch s1 = true
    /\ forall (pick_quit : list bool) (rpcs : list p2p.RPC),
         exists s2, server.loop pick_quit rpcs s1 = server.Exited s2
                    /\ server.transport_closed s2 = true.
Proof.
  apply (Stop_signals_quit (sample.node "n1" [] [])).
  reflexivity.
Defined.

Lemma Store_announces_ciphertext_size_witness :
  let s := sample.node "n1" [x01; x02]
             [("10.0.0.1:3000", sample.peer0); ("10.0.0.2:3000", sample.peer0)] in
  let r := [x48; x69; x21] in
  let msg := {| Payload_ :=
                  StoreFile {| sf_ID := "n1"; sf_Key := hashKey "a.txt";
                               sf_Size := Z.of_nat (length r) + 16 |} |} in
  let s' := fst (server.Store s "a.txt" r) in
  store.files (server.store_ s') !! ("n1", "a.txt") = Some r
  /\ (exists p' tail,
        server.peers s' !! 1%nat = Some ("10.0.0.2:3000", p')
        /\ p2p.sent p' = p2p.sent sample.peer0 ++ [p2p.IncomingMessage] ++ gobEncode msg ++ tail)
  /\ (Forall (fun ap => p2p.budget ap.2 = None) (server.peers s) ->
      exists p' stream,
        server.peers s' !! 1%nat = Some ("10.0.0.2:3000", p')
        /\ p2p.sent p' = p2p.sent sample.peer0 ++ [p2p.IncomingMessage] ++ gobEncode msg
                            ++ [p2p.IncomingStream] ++ stream
        /\ Z.of_nat (length stream) = Z.of_nat (length r) + 16
        /\ snd (server.Store s "a.txt" r) = None).
Proof.
  cbv zeta.
  apply (Store_announces_ciphertext_size
           (sample.node "n1" [x01; x02]
              [("10.0.0.1:3000", sample.peer0); ("10.0.0.2:3000", sample.peer0)])
           "a.txt" [x48; x69; x21] 1 "10.0.0.2:3000" sample.peer0).
  - reflexivity.
  - simpl. lia.
  - reflexivity.
  - reflexivity.
Defined.

Lemma Get_fetches_from_first_responder_witness :
  let key := [x0a; x0b] in
  let body := crypto.encrypt key (repeat x07 16) [x48; x69] in
  let silent := sample.peer0 in
  let peer := p2p.with_inbox sample.peer0
                (put_int64 (Z.of_nat (length body)) ++ body ++ [x02]) in
  let s := sample.node "n1" key [("10.0.0.1:3000", silent); ("10.0.0.2:3000", peer);
                                 ("10.0.0.3:3000", silent)] in
  let buf := gobEncode {| Payload_ := GetFile {| gf_ID := "n1"; gf_Key := hashKey "a.txt" |} |} in
  exists s',
    server.Get s "a.txt" = (s', inl [x48; x69])
    /\ server.wall s' = server.wall s + 500 * retry.Millisecond
    /\ store.files (server.store_ s') !! ("n1", "a.txt") = Some [x48; x69]
    /\ server.peers s'
       = map (fun ap => (ap.1, p2p.with_inbox (server.announce buf ap.2) []))
             [("10.0.0.1:3000", silent)]
           ++ ("10.0.0.2:3000",
               p2p.CloseStream (p2p.with_inbox (server.announce buf peer) [x02]))
           :: map (fun ap => (ap.1, server.announce buf ap.2)) [("10.0.0.3:3000", silent)]
    /\ p2p.sent (server.announce buf peer) = p2p.sent peer ++ [p2p.IncomingMessage] ++ buf
    /\ p2p.in_flight (p2p.CloseStream (p2p.with_inbox (server.announce buf peer) [x02]))
       = p2p.in_flight peer - 1.
Proof.
  cbv zeta.
  apply (Get_fetches_from_first_responder
           (sample.node "n1" [x0a; x0b]
              [("10.0.0.1:3000", sample.peer0);
               ("10.0.0.2:3000",
                p2p.with_inbox sample.peer0
                  (put_int64 (Z.of_nat (length (crypto.encrypt [x0a; x0b] (repeat x07 16)
                                                   [x48; x69])))
                     ++ crypto.encrypt [x0a; x0b] (repeat x07 16) [x48; x69] ++ [x02]));
               ("10.0.0.3:3000", sample.peer0)])
           "a.txt" [("10.0.0.1:3000", sample.peer0)] [("10.0.0.3:3000", sample.peer0)]
           "10.0.0.2:3000"
           (p2p.with_inbox sample.peer0
              (put_int64 (Z.of_nat (length (crypto.encrypt [x0a; x0b] (repeat x07 16)
                                               [x48; x69])))
                 ++ crypto.encrypt [x0a; x0b] (repeat x07 16) [x48; x69] ++ [x02]))
           (crypto.encrypt [x0a; x0b] (repeat x07 16) [x48; x69]) [x02] [x48; x69]).
  - vm_compute. reflexivity.
  - reflexivity.
  - reflexivity.
  - reflexivity.
  - repeat constructor.
  - reflexivity.
  - vm_compute. reflexivity.
  - vm_compute. reflexivity.
Defined.



(** * Runs of the further properties on the concrete instance *)

#[local] Existing Instance retry.Probe_Clock.

Lemma retry_Do_exhausts_witness :
  let down := fun _ : nat => Some (errors.NewNetworkError "down") in
  let p := {| retry.calls := 0; retry.clock := 0 |} in
  exists p' e,
    retry.Do Background retry.DefaultRetryConfig (retry.scripted down) p = (p', Some e)
    /\ down (retry.calls p + (3 - 1))%nat = Some e
    /\ retry.calls p' = (retry.calls p + 3)%nat.
Proof.
  cbv zeta.
  apply (retry_Do_exhausts retry.DefaultRetryConfig 3
           (fun _ => Some (errors.NewNetworkError "down"))
           {| retry.calls := 0; retry.clock := 0 |}).
  - lia.
  - reflexivity.
  - intros k _. eexists. split; reflexivity.
Defined.

Lemma retry_Do_under_done_context_witness :
  let ctx := {| cancelled := true; deadline := None |} in
  let p := {| retry.calls := 0; retry.clock := 0 |} in
  retry.Do ctx retry.DefaultRetryConfig (retry.scripted (fun _ => None)) p
  = (p, Some (Err ctx)).
Proof.
  cbv zeta.
  apply (retry_Do_under_done_context {| cancelled := true; deadline := None |}
           retry.DefaultRetryConfig (retry.scripted (fun _ => None))
           {| retry.calls := 0; retry.clock := 0 |}).
  - reflexivity.
  - simpl. lia.
Defined.

Lemma retry_Do_deadline_during_backoff_witness :
  let slow := fun _ : nat => Some (errors.NewTimeoutError "slow") in
  let p := {| retry.calls := 0; retry.clock := 0 |} in
  retry.Do {| cancelled := false; deadline := Some (50 * retry.Millisecond) |}
           retry.DefaultRetryConfig (retry.scripted slow) p
  = ({| retry.calls := 1; retry.clock := 50 * retry.Millisecond |},
     Some (errors.PlainError "context deadline exceeded")).
Proof.
  cbv zeta.
  apply (retry_Do_deadline_during_backoff retry.DefaultRetryConfig
           (50 * retry.Millisecond)
           (fun _ => Some (errors.NewTimeoutError "slow"))
           (errors.NewTimeoutError "slow")
           {| retry.calls := 0; retry.clock := 0 |}).
  - simpl. lia.
  - simpl. unfold retry.Millisecond. lia.
  - reflexivity.
  - reflexivity.
Defined.


Lemma retry_Do_nil_means_success_witness :
  let once := fun k : nat => match k with
                             | O => Some (errors.NewNetworkError "down")
                             | _ => None
                             end in
  let p := {| retry.calls := 0; retry.clock := 0 |} in
  let p' := {| retry.calls := 2; retry.clock := 100 * retry.Millisecond |} in
  (retry.calls p < retry.calls p')%nat /\ once (retry.calls p' - 1)%nat = None.
Proof.
  cbv zeta.
  apply (retry_Do_nil_means_success Background retry.DefaultRetryConfig
           (fun k : nat => match k with
                           | O => Some (errors.NewNetworkError "down")
                           | _ => None
                           end)
           {| retry.calls := 0; retry.clock := 0 |}
           {| retry.calls := 2; retry.clock := 100 * retry.Millisecond |}).
  - simpl. lia.
  - vm_compute. reflexivity.
Defined.

Lemma retry_DoSimple_backoff_witness :
  let down := fun _ : nat => Some (errors.NewNetworkError "down") in
  let p := {| retry.calls := 0; retry.clock := 0 |} in
  retry.DoSimple (retry.scripted down) p
  = ({| retry.calls := retry.calls p + 3;
        retry.clock := retry.clock p + 280 * retry.Millisecond |},
     down (retry.calls p + 2)%nat).
Proof.
  cbv zeta.
  apply (retry_DoSimple_backoff (fun _ => Some (errors.NewNetworkError "down"))
           {| retry.calls := 0; retry.clock := 0 |}).
  intros k _. eexists. split; reflexivity.
Defined.

Lemma Get_local_hit_witness :
  let s := server.with_store (sample.node "n1" [] [("10.0.0.1:3000", sample.peer0)])
             {| store.files := {[ ("n1", "a.txt") := [x48; x69] ]};
                store.failing := false |} in
  server.Get s "a.txt" = (s, inl [x48; x69]).
Proof.
  cbv zeta.
  apply (Get_local_hit
           (server.with_store (sample.node "n1" [] [("10.0.0.1:3000", sample.peer0)])
              {| store.files := {[ ("n1", "a.txt") := [x48; x69] ]};
                 store.failing := false |})
           "a.txt" [x48; x69]).
  - vm_compute. reflexivity.
  - reflexivity.
Defined.

Lemma Store_then_Get_witness :
  let s := sample.node "n1" [x01] [("10.0.0.1:3000", sample.peer0)] in
  server.Get (fst (server.Store s "a.txt" [x48; x69])) "a.txt"
  = (fst (server.Store s "a.txt" [x48; x69]), inl [x48; x69]).
Proof.
  cbv zeta.
  apply (Store_then_Get (sample.node "n1" [x01] [("10.0.0.1:3000", sample.peer0)])
           "a.txt" [x48; x69]).
  reflexivity.
Defined.

Lemma Store_error_kinds_witness :
  let broken := {| p2p.sent := []; p2p.inbox := []; p2p.budget := Some O;
                   p2p.in_flight := 0 |} in
  let s := sample.node "n1" [x01] [("10.0.0.1:3000", broken)] in
  let e := errors.Wrap (Some (errors.PlainError "write: broken pipe"))
                       errors.NetworkError "failed to send stream header" in
  (errors.GetType e = errors.StorageError /\ fst (server.Store s "a.txt" [x48; x69]) = s)
  \/ ((errors.GetType e = errors.NetworkError \/ errors.GetType e = errors.EncryptionError)
      /\ store.files (server.store_ (fst (server.Store s "a.txt" [x48; x69])))
           !! (server.ID s, "a.txt") = Some [x48; x69]).
Proof.
  cbv zeta.
  apply (Store_error_kinds
           (sample.node "n1" [x01]
              [("10.0.0.1:3000",
                {| p2p.sent := []; p2p.inbox := []; p2p.budget := Some O;
                   p2p.in_flight := 0 |})])
           "a.txt" [x48; x69]
           (errors.Wrap (Some (errors.PlainError "write: broken pipe"))
                        errors.NetworkError "failed to send stream header")).
  vm_compute. reflexivity.
Defined.


Lemma fetch_peers_sets_lastErr_witness :
  let ps := [("10.0.0.1:3000", sample.peer0)] in
  let st := {| store.files := ∅; store.failing := false |} in
  snd (server.fetch_peers [x01] "n1" "a.txt" ps st None) = true
  \/ snd (fst (server.fetch_peers [x01] "n1" "a.txt" ps st None)) <> None.
Proof.
  cbv zeta.
  apply (fetch_peers_sets_lastErr [x01] "n1" "a.txt"
           {| store.files := ∅; store.failing := false |}
           [("10.0.0.1:3000", sample.peer0)] None).
  discriminate.
Defined.

Lemma handleMessageGetFile_response_witness :
  let s := server.with_store (sample.node "n2" [] [("10.0.0.1:3000", sample.peer0)])
             {| store.files := {[ ("n1", "h:a.txt") := [x10; x11] ]};
                store.failing := false |} in
  let msg := {| gf_ID := "n1"; gf_Key := "h:a.txt" |} in
  let content := [x10; x11] in
  let s' := fst (server.handleMessageGetFile s "10.0.0.1:3000" msg) in
  snd (server.handleMessageGetFile s "10.0.0.1:3000" msg) = None
  /\ (exists peer',
        server.peer_lookup (server.peers s') "10.0.0.1:3000" = Some peer'
        /\ p2p.sent peer' = p2p.sent sample.peer0 ++ [p2p.IncomingStream]
                              ++ put_int64 (Z.of_nat (length content)) ++ content
        /\ p2p.inbox peer' = p2p.inbox sample.peer0)
  /\ get_int64 (put_int64 (Z.of_nat (length content))) = Z.of_nat (length content)
  /\ server.store_ s' = server.store_ s
  /\ forall other, other <> "10.0.0.1:3000" ->
                   server.peer_lookup (server.peers s') other
                   = server.peer_lookup (server.peers s) other.
Proof.
  cbv zeta.
  apply (handleMessageGetFile_response
           (server.with_store (sample.node "n2" [] [("10.0.0.1:3000", sample.peer0)])
              {| store.files := {[ ("n1", "h:a.txt") := [x10; x11] ]};
                 store.failing := false |})
           "10.0.0.1:3000" {| gf_ID := "n1"; gf_Key := "h:a.txt" |}
           sample.peer0 [x10; x11]).
  - vm_compute. reflexivity.
  - reflexivity.
  - reflexivity.
  - reflexivity.
  - vm_compute. reflexivity.
Defined.

Lemma handlers_refuse_unknown_peer_witness :
  let s := server.with_store (sample.node "n2" [] [("10.0.0.1:3000", sample.peer0)])
             {| store.files := {[ ("n1", "h:a.txt") := [x10; x11] ]};
                store.failing := false |} in
  let sf := {| sf_ID := "n1"; sf_Key := "h:b.txt"; sf_Size := 2 |} in
  let gf := {| gf_ID := "n1"; gf_Key := "h:a.txt" |} in
  (exists e, server.handleMessageStoreFile s "10.0.0.7:3000" sf = (s, Some e)
             /\ errors.GetType e = errors.ConnectionError)
  /\ (exists e, server.handleMessageGetFile s "10.0.0.7:3000" gf = (s, Some e)
                /\ errors.GetType e = errors.ConnectionError).
Proof.
  cbv zeta.
  apply (handlers_refuse_unknown_peer
           (server.with_store (sample.node "n2" [] [("10.0.0.1:3000", sample.peer0)])
              {| store.files := {[ ("n1", "h:a.txt") := [x10; x11] ]};
                 store.failing := false |})
           "10.0.0.7:3000"
           {| sf_ID := "n1"; sf_Key := "h:b.txt"; sf_Size := 2 |}
           {| gf_ID := "n1"; gf_Key := "h:a.txt" |} [x10; x11]).
  - vm_compute. reflexivity.
  - vm_compute. reflexivity.
  - reflexivity.
Defined.

Lemma handleMessageStoreFile_short_stream_witness :
  let peer := p2p.with_inbox sample.peer0 [x10; x11] in
  let s := sample.node "n2" [] [("10.0.0.1:3000", peer)] in
  let msg := {| sf_ID := "n1"; sf_Key := "h:a.txt"; sf_Size := 5 |} in
  exists s',
    server.handleMessageStoreFile s "10.0.0.1:3000" msg = (s', None)
    /\ store.files (server.store_ s') !! ("n1", "h:a.txt") = Some (p2p.inbox peer)
    /\ server.peer_lookup (server.peers s') "10.0.0.1:3000"
       = Some (p2p.CloseStream (p2p.with_inbox peer [])).
Proof.
  cbv zeta.
  apply (handleMessageStoreFile_short_stream
           (sample.node "n2" [] [("10.0.0.1:3000", p2p.with_inbox sample.peer0 [x10; x11])])
           "10.0.0.1:3000"
           {| sf_ID := "n1"; sf_Key := "h:a.txt"; sf_Size := 5 |}
           (p2p.with_inbox sample.peer0 [x10; x11])).
  - reflexivity.
  - reflexivity.
  - simpl. lia.
Defined.

Lemma handleMessageStoreFile_failed_write_witness :
  let peer := p2p.with_inbox sample.peer0 [x10; x11] in
  let s := server.with_store (sample.node "n2" [] [("10.0.0.1:3000", peer)])
             {| store.files := ∅; store.failing := true |} in
  let msg := {| sf_ID := "n1"; sf_Key := "h:a.txt"; sf_Size := 2 |} in
  exists s' cause,
    server.handleMessageStoreFile s "10.0.0.1:3000" msg
    = (s', Some (errors.Wrap (Some cause) errors.StorageError
                             "failed to write file from peer"))
    /\ server.peer_lookup (server.peers s') "10.0.0.1:3000" = Some peer
    /\ (forall other, other <> "10.0.0.1:3000" ->
          server.peer_lookup (server.peers s') other
          = server.peer_lookup (server.peers s) other)
    /\ server.store_ s' = server.store_ s.
Proof.
  cbv zeta.
  apply (handleMessageStoreFile_failed_write
           (server.with_store
              (sample.node "n2" [] [("10.0.0.1:3000",
                                     p2p.with_inbox sample.peer0 [x10; x11])])
              {| store.files := ∅; store.failing := true |})
           "10.0.0.1:3000"
           {| sf_ID := "n1"; sf_Key := "h:a.txt"; sf_Size := 2 |}
           (p2p.with_inbox sample.peer0 [x10; x11])).
  - reflexivity.
  - reflexivity.
Defined.

Lemma loop_runs_until_quit_witness :
  let s := sample.node "n1" [] [("10.0.0.1:3000", sample.peer0)] in
  let rpcs := [ {| p2p.From_ := "10.0.0.1:3000"; p2p.Payload := [xff]; p2p.Stream := false |};
                {| p2p.From_ := "10.0.0.9:3000";
                   p2p.Payload := gobEncode {| Payload_ := GetFile {| gf_ID := "n1";
                                                                      gf_Key := "h:a" |} |};
                   p2p.Stream := false |} ] in
  exists s',
    server.loop [true; true] rpcs s = server.Waiting s'
    /\ server.quitch s' = false
    /\ server.transport_closed s' = server.transport_closed s
    /\ server.ID s' = server.ID s /\ server.EncKey s' = server.EncKey s.
Proof.
  cbv zeta.
  apply (loop_runs_until_quit [true; true]
           [ {| p2p.From_ := "10.0.0.1:3000"; p2p.Payload := [xff]; p2p.Stream := false |};
             {| p2p.From_ := "10.0.0.9:3000";
                p2p.Payload := gobEncode {| Payload_ := GetFile {| gf_ID := "n1";
                                                                   gf_Key := "h:a" |} |};
                p2p.Stream := false |} ]
           (sample.node "n1" [] [("10.0.0.1:3000", sample.peer0)])).
  reflexivity.
Defined.

Lemma stored_stream_is_served_back_witness :
  let peer := p2p.with_inbox sample.peer0 [x10; x11; x12] in
  let s := sample.node "relay" [] [("10.0.0.1:3000", peer); ("10.0.0.2:3000", sample.peer0)] in
  let msg := {| sf_ID := "n1"; sf_Key := "h:a.txt"; sf_Size := 2 |} in
  let s1 := fst (server.handleMessageStoreFile s "10.0.0.1:3000" msg) in
  let request := {| gf_ID := "n1"; gf_Key := "h:a.txt" |} in
  let s2 := fst (server.handleMessageGetFile s1 "10.0.0.2:3000" request) in
  snd (server.handleMessageGetFile s1 "10.0.0.2:3000" request) = None
  /\ network.sent_to "10.0.0.2:3000" s2
     = p2p.sent sample.peer0 ++ [p2p.IncomingStream] ++ put_int64 2
         ++ take (Z.to_nat 2) (p2p.inbox peer).
Proof.
  cbv zeta.
  apply (stored_stream_is_served_back
           (sample.node "relay" []
              [("10.0.0.1:3000", p2p.with_inbox sample.peer0 [x10; x11; x12]);
               ("10.0.0.2:3000", sample.peer0)])
           "10.0.0.1:3000" "10.0.0.2:3000"
           {| sf_ID := "n1"; sf_Key := "h:a.txt"; sf_Size := 2 |}
           (p2p.with_inbox sample.peer0 [x10; x11; x12]) sample.peer0).
  - reflexivity.
  - reflexivity.
  - reflexivity.
  - reflexivity.
  - simpl. lia.
Defined.

Lemma replicateTopeers_sends_one_stream_witness :
  let s := sample.node "n1" [x01; x02]
             [("10.0.0.1:3000", sample.peer0); ("10.0.0.2:3000", sample.peer0)] in
  let fileBuffer := [x48; x69; x21] in
  exists stream,
    snd (server.replicateTopeers s "a.txt" fileBuffer) = None
    /\ Forall2 (fun ap ap' =>
                  ap'.1 = ap.1
                  /\ p2p.sent ap'.2 = p2p.sent ap.2 ++ [p2p.IncomingStream] ++ stream
                  /\ p2p.inbox ap'.2 = p2p.inbox ap.2)
               (server.peers s)
               (server.peers (fst (server.replicateTopeers s "a.txt" fileBuffer)))
    /\ length stream = (16 + length fileBuffer)%nat
    /\ crypto.decrypt (server.EncKey s) stream = inl fileBuffer
    /\ server.drawn (fst (server.replicateTopeers s "a.txt" fileBuffer))
       = (server.drawn s + 16)%nat.
Proof.
  cbv zeta.
  apply (replicateTopeers_sends_one_stream
           (sample.node "n1" [x01; x02]
              [("10.0.0.1:3000", sample.peer0); ("10.0.0.2:3000", sample.peer0)])
           "a.txt" [x48; x69; x21]).
  - discriminate.
  - repeat constructor.
Defined.

Lemma Get_retries_before_giving_up_witness :
  let broken := {| p2p.sent := []; p2p.inbox := []; p2p.budget := Some O;
                   p2p.in_flight := 0 |} in
  let s := sample.node "n1" [x01] [("10.0.0.1:3000", broken); ("10.0.0.2:3000", broken)] in
  let cause := errors.Wrap (Some (errors.PlainError "write: broken pipe"))
                           errors.NetworkError "failed to broadcast to any peers" in
  server.Get s "a.txt"
  = (server.with_wall s (server.wall s + 280 * retry.Millisecond),
     inr (errors.Wrap (Some cause) errors.NetworkError "failed to fetch file from network"))
  /\ errors.IsRetryable cause = true.
Proof.
  cbv zeta.
  apply (Get_retries_before_giving_up
           (sample.node "n1" [x01]
              [("10.0.0.1:3000",
                {| p2p.sent := []; p2p.inbox := []; p2p.budget := Some O;
                   p2p.in_flight := 0 |});
               ("10.0.0.2:3000",
                {| p2p.sent := []; p2p.inbox := []; p2p.budget := Some O;
                   p2p.in_flight := 0 |})])
           "a.txt").
  - vm_compute. reflexivity.
  - repeat constructor.
Defined.

Lemma log_filters_then_writes_one_line_witness :
  let lg := {| logger.level := logger.INFO; logger.output := logger.Stdout;
               logger.prefix := "" |} in
  let c := {| logger.timestamp := "2026-01-02 15:04:05.000";
              logger.frame := Some ("/go/src/foreverstore/server.go", 206);
              logger.message := "Storing file: a.txt" |} in
  let w := logger.init in
  let l := logger.defaultLogger in
  (logger.WARN < logger.level lg -> logger.log l logger.WARN c w = logger.Continues tt w)
  /\ (logger.level lg <= logger.WARN ->
      exists line w',
        logger.log l logger.WARN c w
        = (if logger.WARN =? logger.FATAL
           then logger.Terminates 1 w' else logger.Continues tt w')
        /\ logger.loggers w' = logger.loggers w
        /\ logger.written w' !! logger.output lg
           = Some (default [] (logger.written w !! logger.output lg) ++ [line])
        /\ (forall o, o <> logger.output lg ->
                      logger.written w' !! o = logger.written w !! o)
        /\ exists body, line = body +:+ logger.newline)
  /\ ((exists w', logger.Fatal l c w = logger.Terminates 1 w')
      <-> logger.level lg <= logger.FATAL)
  /\ (logger.FATAL < logger.level lg -> logger.Fatal l c w = logger.Continues tt w).
Proof.
  cbv zeta.
  apply (log_filters_then_writes_one_line logger.defaultLogger
           {| logger.level := logger.INFO; logger.output := logger.Stdout;
              logger.prefix := "" |}
           logger.WARN
           {| logger.timestamp := "2026-01-02 15:04:05.000";
              logger.frame := Some ("/go/src/foreverstore/server.go", 206);
              logger.message := "Storing file: a.txt" |}
           logger.init).
  reflexivity.
Defined.

Lemma WithPrefix_is_a_snapshot_witness :
  let pl := {| logger.level := logger.INFO; logger.output := logger.Stdout;
               logger.prefix := "" |} in
  let p := "SERVER[:3000]" in
  let w := logger.init in
  exists d w1,
    logger.WithPrefix logger.defaultLogger p w = logger.Continues d w1
    /\ d <> logger.defaultLogger
    /\ logger.loggers w1 !! logger.defaultLogger = Some pl
    /\ logger.written w1 = logger.written w
    /\ forall lv o w2,
         logger.SetLevel logger.defaultLogger lv w1 = logger.Continues tt w2
         \/ logger.SetOutput logger.defaultLogger o w1 = logger.Continues tt w2 ->
         logger.loggers w2 !! d
         = Some {| logger.level := logger.level pl; logger.output := logger.output pl;
                   logger.prefix := p |}
         /\ forall lv' c,
              (lv' < logger.level pl -> logger.log d lv' c w2 = logger.Continues tt w2)
              /\ (logger.level pl <= lv' ->
                  exists line w3,
                    logger.log d lv' c w2
                    = (if lv' =? logger.FATAL
                       then logger.Terminates 1 w3 else logger.Continues tt w3)
                    /\ logger.written w3 !! logger.output pl
                       = Some (default [] (logger.written w !! logger.output pl) ++ [line])).
Proof.
  cbv zeta.
  apply (WithPrefix_is_a_snapshot logger.defaultLogger
           {| logger.level := logger.INFO; logger.output := logger.Stdout;
              logger.prefix := "" |}
           "SERVER[:3000]" logger.init).
  reflexivity.
Defined.

Lemma Fatal_exits_under_configured_level_witness :
  let c := {| config.ListenAddr := ":3000"; config.StorageRoot := "storage";
              config.BootstrapNodes := []; config.LogLevel_ := "debug";
              config.LogFile := ""; config.EncryptionEnabled := true;
              config.EncryptionKey := ""; config.MaxConnections := 100;
              config.ReadTimeout := 30; config.WriteTimeout := 30;
              config.MaxStorageSize := 1073741824; config.ReplicationFactor := 2 |} in
  let call := {| logger.timestamp := "2026-01-02 15:04:05.000";
                 logger.frame := Some ("/go/src/foreverstore/main.go", 81);
                 logger.message := "Server failed to start: address in use" |} in
  let w1 := {| logger.loggers := [ {| logger.level := logger.DEBUG;
                                      logger.output := logger.Stdout;
                                      logger.prefix := "" |} ];
               logger.written := ∅ |} in
  exists dl line w2,
    logger.loggers w1 !! logger.defaultLogger = Some dl
    /\ logger.GlobalFatal call w1 = logger.Terminates 1 w2
    /\ logger.written w2 !! logger.output dl
       = Some (default [] (logger.written logger.init !! logger.output dl) ++ [line]).
Proof.
  cbv zeta.
  apply (Fatal_exits_under_configured_level config.upper
           {| config.ListenAddr := ":3000"; config.StorageRoot := "storage";
              config.BootstrapNodes := []; config.LogLevel_ := "debug";
              config.LogFile := ""; config.EncryptionEnabled := true;
              config.EncryptionKey := ""; config.MaxConnections := 100;
              config.ReadTimeout := 30; config.WriteTimeout := 30;
              config.MaxStorageSize := 1073741824; config.ReplicationFactor := 2 |}
           {| logger.timestamp := "2026-01-02 15:04:05.000";
              logger.frame := Some ("/go/src/foreverstore/main.go", 81);
              logger.message := "Server failed to start: address in use" |}
           logger.init
           {| logger.loggers := [ {| logger.level := logger.DEBUG;
                                     logger.output := logger.Stdout;
                                     logger.prefix := "" |} ];
              logger.written := ∅ |}).
  vm_compute. reflexivity.
Defined.
